(** * IMPORT bulk-ingest core: progress tracking, routing, sampling, file reading

    A shallow embedding of [pkg/ccl/importccl/import_processor.go] and
    [pkg/ccl/importccl/read_import_base.go], followed by the job-control node
    [controlJobsNode] and the fake advisory-lock manager of
    [pkg/sql/pgadvisory/fake_lock_manager.go].

    Conventions.
    - Go's [uint64], [uint32], [int64], [int32] and [int] values are [Z];
      the only arithmetic on them is the counting of files and bytes, which
      stays far from the bounds of the types.
    - A slice is a [list]; an index expression [a[i]] panics when [i] is out
      of range, which the model writes as [None].
    - A Go [map] is a [gmap].
    - [atomic.LoadUint64] / [atomic.StoreUint64] are a read and a write of one
      slot; tasks are interleaved at the granularity of the events below. *)

From Stdlib Require Import ZArith QArith Qround Qpower Lia Lqa Ascii String.
From stdpp Require Import gmap strings list fin_maps.

Open Scope Z_scope.
Set Default Proof Using "Type".

(** ** Floating point

    A [float32] or [float64] value is a rational, an infinity or NaN; the two
    zeros are not told apart. Every operation computes the exact result and
    rounds it to the nearest number of the format, ties to even. The
    exponent range of the formats is not modelled (no overflow, no subnormal
    numbers): 64-bit integers and the quotients of two of them lie within the
    range of both formats. *)
Module IEEE.

(** For [x > 0], the exponent [e] with [2^e <= x < 2^(e+1)]. *)
Definition binade (x : Q) : Z :=
  let k := Z.log2 (Qnum x) - Z.log2 (Zpos (Qden x)) in
  if Qle_bool (2 ^ k) x then k else k - 1.

(** The integer nearest to [y], the even one of the two when [y] is halfway. *)
Definition nearestEven (y : Q) : Z :=
  let f := Qfloor y in
  match (y - inject_Z f ?= 1 # 2)%Q with
  | Lt => f
  | Gt => f + 1
  | Eq => if Z.even f then f else f + 1
  end.

(** Rounding of [x > 0] to [prec] significant bits. *)
Definition roundPos (prec : Z) (x : Q) : Q :=
  let e := binade x in
  (inject_Z (nearestEven (x * 2 ^ (prec - 1 - e))) * 2 ^ (e - prec + 1))%Q.

Definition roundNearestEven (prec : Z) (x : Q) : Q :=
  match Qnum x with
  | Z0 => 0%Q
  | Zpos _ => roundPos prec x
  | Zneg _ => (- roundPos prec (- x))%Q
  end.

(** [float32] has 24 significant bits, [float64] has 53. *)
Definition round32 : Q → Q := roundNearestEven 24.
Definition round64 : Q → Q := roundNearestEven 53.

Inductive float :=
| Finite (q : Q)
| PosInf
| NegInf
| NaN.

Definition isFinite (f : float) : bool :=
  match f with
  | Finite _ => true
  | _ => false
  end.

Section Rounding.

Variable round : Q → Q.

(** The conversions [float32(n)] and [float64(n)] of an integer. *)
Definition ofInt (n : Z) : float := Finite (round (inject_Z n)).

(** [a / b]. *)
Definition div (a b : float) : float :=
  match a, b with
  | NaN, _ | _, NaN => NaN
  | Finite x, Finite y =>
      if Qeq_bool y 0 then
        if Qeq_bool x 0 then NaN else if Qle_bool 0 x then PosInf else NegInf
      else Finite (round (x / y))
  | Finite _, _ => Finite 0
  | PosInf, Finite y => if Qle_bool 0 y then PosInf else NegInf
  | NegInf, Finite y => if Qle_bool 0 y then NegInf else PosInf
  | _, _ => NaN
  end.

End Rounding.

(** [a > b]. *)
Definition gt (a b : float) : bool :=
  match a, b with
  | Finite x, Finite y => negb (Qle_bool x y)
  | PosInf, Finite _ | PosInf, NegInf | Finite _, NegInf => true
  | _, _ => false
  end.

(** What the proofs use of a rounding: it keeps the order, and it keeps 1
    and -1, which every binary format holds. *)
Record faithful (round : Q → Q) : Prop := mkFaithful {
  round_mono : ∀ x y, (x <= y)%Q → (round x <= round y)%Q;
  round_one : (round 1 == 1)%Q;
  round_minus_one : (round (-1) == -1)%Q
}.

End IEEE.

(** ** Progress arrays of [ingestKvs] *)
Module Progress.

(** [a[i]] on a slice, with [i] an unsigned integer. *)
Definition load (a : list Z) (i : Z) : option Z :=
  if decide (0 ≤ i < Z.of_nat (length a)) then a !! Z.to_nat i else None.

(** [a[i] = v] (also [atomic.StoreUint64(&a[i], v)]). *)
Definition store (a : list Z) (i : Z) (v : Z) : option (list Z) :=
  if decide (0 ≤ i < Z.of_nat (length a)) then Some (<[Z.to_nat i := v]> a) else None.

(** The four slices allocated at import_processor.go:301-305. *)
Record arrays := mkArrays {
  writtenRow : list Z;
  writtenFraction : list Z;
  pkFlushedRow : list Z;
  idxFlushedRow : list Z
}.

(** [make([]uint64, len(spec.Uri))] four times. *)
Definition init (n : nat) : arrays :=
  mkArrays (replicate n 0) (replicate n 0) (replicate n 0) (replicate n 0).

(** The loop
    [for _, i := range writtenRow { atomic.StoreUint64(&flushed[i], writtenRow[i]) }]
    of the flush hooks.  [range] yields the ELEMENTS of [writtenRow] (second
    loop variable), here [vals], and each element is then used as an index
    into both slices. *)
Fixpoint storeEach (writtenRow vals flushed : list Z) : option (list Z) :=
  match vals with
  | [] => Some flushed
  | i :: rest =>
      match load writtenRow i with
      | None => None
      | Some v =>
          match store flushed i v with
          | None => None
          | Some flushed' => storeEach writtenRow rest flushed'
          end
      end
  end.

(** [pkIndexAdder.SetOnFlush(func() {...})], import_processor.go:310-319.
    [indexAdderIsEmpty] is the value of [indexAdder.IsEmpty()]. *)
Definition pkOnFlush (indexAdderIsEmpty : bool) (s : arrays) : option arrays :=
  match storeEach (writtenRow s) (writtenRow s) (pkFlushedRow s) with
  | None => None
  | Some pk =>
      if indexAdderIsEmpty then
        match storeEach (writtenRow s) (writtenRow s) (idxFlushedRow s) with
        | None => None
        | Some idx => Some (mkArrays (writtenRow s) (writtenFraction s) pk idx)
        end
      else Some (mkArrays (writtenRow s) (writtenFraction s) pk (idxFlushedRow s))
  end.

(** [indexAdder.SetOnFlush(func() {...})], import_processor.go:320-324. *)
Definition idxOnFlush (s : arrays) : option arrays :=
  match storeEach (writtenRow s) (writtenRow s) (idxFlushedRow s) with
  | None => None
  | Some idx => Some (mkArrays (writtenRow s) (writtenFraction s) (pkFlushedRow s) idx)
  end.

(** What the comment above the hooks describes ("we set pkFlushedRow to
    writtenRow"): slot [off] of [flushed] receives [writtenRow[off]], for
    every offset [0 <= off < len(writtenRow)]. *)
Definition copyEachSlot (writtenRow flushed : list Z) : list Z :=
  foldl (λ fl off, <[off := writtenRow !!! off]> fl) flushed (seq 0 (length writtenRow)).

(** Invariants of the arrays: all four have the length fixed at allocation,
    and the flushed rows never run ahead of the written rows. *)
Definition sized (n : nat) (s : arrays) : Prop :=
  length (writtenRow s) = n ∧ length (writtenFraction s) = n ∧
  length (pkFlushedRow s) = n ∧ length (idxFlushedRow s) = n.

Definition bounded (fl w : list Z) : Prop :=
  ∀ j x y, load fl j = Some x → load w j = Some y → x ≤ y.

Definition inv (s : arrays) : Prop :=
  bounded (pkFlushedRow s) (writtenRow s) ∧ bounded (idxFlushedRow s) (writtenRow s).

(** [offsets], import_processor.go:327-332:
    [for i := range spec.Uri { offsets[i] = offset; offset++ }].
    [ids] lists the keys of [spec.Uri] in the order the iteration visits
    them (Go leaves that order unspecified). *)
Definition mkOffsets (ids : list Z) : gmap Z Z :=
  (foldl (λ acc i, (<[i := acc.2]> acc.1, acc.2 + 1)) (∅, 0) ids).1.

(** [RemoteProducerMetadata_BulkProcessorProgress]: the two maps the reporter
    fills. *)
Record BulkProcessorProgress := mkProg {
  CompletedRow : gmap Z Z;
  CompletedFraction : gmap Z IEEE.float
}.

Section Tasks.

(** [math.Float32bits] and [math.Float32frombits]: the IEEE-754 encoding of a
    [float32] in 32 bits. *)
Variable Float32bits : IEEE.float → Z.
Variable Float32frombits : Z → IEEE.float.

(** [offsets] as built by [mkOffsets]. *)
Variable offsets : gmap Z Z.

(** End of the per-batch body of the ingest task, import_processor.go:419-421.
    A map index on a missing key yields the zero value. *)
Definition recordBatch (source lastRow : Z) (progress : IEEE.float) (s : arrays)
  : option arrays :=
  let offset := default 0 (offsets !! source) in
  match store (writtenRow s) offset lastRow with
  | None => None
  | Some w =>
      match store (writtenFraction s) offset (Float32bits progress) with
      | None => None
      | Some f => Some (mkArrays w f (pkFlushedRow s) (idxFlushedRow s))
      end
  end.

(** [if idx > pk { CompletedRow[file] = pk } else { CompletedRow[file] = idx }]. *)
Definition completedRow (pk idx : Z) : Z := if decide (idx > pk) then pk else idx.

(** One iteration of [for file, offset := range offsets] in the reporter,
    import_processor.go:351-362. *)
Definition reportFile (s : arrays) (file offset : Z) (prog : BulkProcessorProgress)
  : option BulkProcessorProgress :=
  match load (pkFlushedRow s) offset with
  | None => None
  | Some pk =>
      match load (idxFlushedRow s) offset with
      | None => None
      | Some idx =>
          match load (writtenFraction s) offset with
          | None => None
          | Some bits =>
              Some (mkProg (<[file := completedRow pk idx]> (CompletedRow prog))
                           (<[file := Float32frombits bits]> (CompletedFraction prog)))
          end
      end
  end.

(** The loop over [offsets], visiting its entries in the order [l]. *)
Definition reportList (s : arrays) (l : list (Z * Z)) : option BulkProcessorProgress :=
  foldr (λ fo acc, match acc with
                    | None => None
                    | Some prog => reportFile s fo.1 fo.2 prog
                    end)
        (Some (mkProg ∅ ∅)) l.

(** The record built on a tick, import_processor.go:348-363, which is then
    sent on [progCh]. *)
Definition report (s : arrays) : option BulkProcessorProgress :=
  reportList s (map_to_list offsets).

(** What the other tasks do to the arrays between two ticks. *)
Inductive event :=
| Batch (source lastRow : Z) (progress : IEEE.float)
| PkFlush (indexAdderIsEmpty : bool)
| IdxFlush.

Definition step (ev : event) (s : arrays) : option arrays :=
  match ev with
  | Batch source lastRow progress => recordBatch source lastRow progress s
  | PkFlush e => pkOnFlush e s
  | IdxFlush => idxOnFlush s
  end.

Fixpoint run (evs : list event) (s : arrays) : option arrays :=
  match evs with
  | [] => Some s
  | ev :: rest =>
      match step ev s with
      | None => None
      | Some s' => run rest s'
      end
  end.

(** Every batch carries a [LastRow] that is at least the value its slot of
    [writtenRow] holds when the batch is recorded. *)
Fixpoint watermarksAscend (evs : list event) (s : arrays) : bool :=
  match evs with
  | [] => true
  | ev :: rest =>
      match ev with
      | Batch source lastRow _ =>
          match load (writtenRow s) (default 0 (offsets !! source)) with
          | Some w => bool_decide (w ≤ lastRow)
          | None => true
          end
      | _ => true
      end &&
      match step ev s with
      | None => true
      | Some s' => watermarksAscend rest s'
      end
  end.

End Tasks.

End Progress.

(** ** Errors and key-value batches *)

(** Go [error] values, by dynamic type: [storagebase.DuplicateKeyError], an
    error made by [errors.New]/[errors.Errorf] or returned by a collaborator,
    and [errors.Wrap(cause, msg)]. *)
Inductive error :=
| DuplicateKeyError (key value : string)
| ErrorString (msg : string)
| Wrapped (cause : error) (msg : string).

(** The type assertion [_, ok := err.(storagebase.DuplicateKeyError)]. *)
Definition isDuplicateKeyError (e : error) : bool :=
  match e with
  | DuplicateKeyError _ _ => true
  | _ => false
  end.

Inductive result (A : Type) :=
| Ok (a : A)
| Err (e : error).
Arguments Ok {A} a.
Arguments Err {A} e.

(** How a loop of a task ends: it runs to its end (the channel is closed and
    drained), it returns an error, or the task panics. *)
Inductive exit :=
| Completes
| Fails (err : error)
| Panic.

(** [roachpb.KeyValue]: [Key] and [Value.RawBytes], both byte strings. *)
Record KeyValue := mkKV { Key : string; RawBytes : string }.

(** [row.KVBatch]. *)
Record KVBatch := mkBatch {
  Source : Z;
  LastRow : Z;
  Progress : IEEE.float;
  KVs : list KeyValue
}.

(** ** The ingest task of [ingestKvs] and its two adders *)
Module Ingest.

Inductive which := PK | IDX.

Inductive op :=
| OpAdd (kv : KeyValue)
| OpFlush
| OpClose.

(** One call on one of the two adders, with the error it returned. *)
Record call := mkCall { callee : which; what : op; returned : option error }.

(** What a Go function call comes to: it returns its two results or the
    goroutine panics. *)
Inductive outcome (S : Type) :=
| Returns (summary : option S) (err : option error)
| Panics.
Arguments Returns {S} summary err.
Arguments Panics {S}.

Section Adders.

(** [storagebase.BulkAdder] and [roachpb.BulkOpSummary], consumed through
    their interface. *)
Variable adder : Type.
Variable Add : adder → string → string → adder * option error.
Variable Flush : adder → adder * option error.
Variable Close : adder → adder.
Variable BulkOpSummary : Type.
Variable GetSummary : adder → BulkOpSummary.
Variable summaryAdd : BulkOpSummary → BulkOpSummary → BulkOpSummary.

(** [sqlbase.DecodeTableIDIndexID]: remaining bytes, table ID, index ID. *)
Variable DecodeTableIDIndexID : string → result (string * Z * Z).

Variable Float32bits : IEEE.float → Z.
Variable offsets : gmap Z Z.

(** The two adders, the progress arrays, and the calls made so far on the
    adders, oldest first. *)
Record state := mkState {
  pkIndexAdder : adder;
  indexAdder : adder;
  arrays : Progress.arrays;
  calls : list call
}.

Definition getAdder (w : which) (st : state) : adder :=
  match w with
  | PK => pkIndexAdder st
  | IDX => indexAdder st
  end.

Definition setAdder (w : which) (a : adder) (c : call) (st : state) : state :=
  match w with
  | PK => mkState a (indexAdder st) (arrays st) (calls st ++ [c])
  | IDX => mkState (pkIndexAdder st) a (arrays st) (calls st ++ [c])
  end.

(** [w.Add(ctx, kv.Key, kv.Value.RawBytes)]. *)
Definition callAdd (w : which) (kv : KeyValue) (st : state) : state * option error :=
  let r := Add (getAdder w st) (Key kv) (RawBytes kv) in
  (setAdder w r.1 (mkCall w (OpAdd kv) r.2) st, r.2).

(** [w.Flush(ctx)]. *)
Definition callFlush (w : which) (st : state) : state * option error :=
  let r := Flush (getAdder w st) in
  (setAdder w r.1 (mkCall w OpFlush r.2) st, r.2).

(** [defer w.Close(ctx)]. *)
Definition callClose (w : which) (st : state) : state :=
  setAdder w (Close (getAdder w st)) (mkCall w OpClose None) st.

(** Body of [for _, kv := range kvBatch.KVs], import_processor.go:393-417. *)
Definition ingestKV (kv : KeyValue) (st : state) : state * option error :=
  match DecodeTableIDIndexID (Key kv) with
  | Err indexErr => (st, Some indexErr)
  | Ok (_, _, indexID) =>
      if decide (indexID = 1) then
        match callAdd PK kv st with
        | (st', Some err) =>
            if isDuplicateKeyError err
            then (st', Some (Wrapped err "duplicate key in primary index"))
            else (st', Some err)
        | (st', None) => (st', None)
        end
      else
        match callAdd IDX kv st with
        | (st', Some err) =>
            if isDuplicateKeyError err
            then (st', Some (Wrapped err "duplicate key in index"))
            else (st', Some err)
        | (st', None) => (st', None)
        end
  end.

Fixpoint ingestKVs (kvs : list KeyValue) (st : state) : state * option error :=
  match kvs with
  | [] => (st, None)
  | kv :: rest =>
      match ingestKV kv st with
      | (st', Some err) => (st', Some err)
      | (st', None) => ingestKVs rest st'
      end
  end.

(** [for kvBatch := range kvCh], import_processor.go:391-423; [batches] is
    what the channel delivers until it is closed. *)
Fixpoint ingestBatches (batches : list KVBatch) (st : state) : state * exit :=
  match batches with
  | [] => (st, Completes)
  | kvBatch :: rest =>
      match ingestKVs (KVs kvBatch) st with
      | (st', Some err) => (st', Fails err)
      | (st', None) =>
          match Progress.recordBatch Float32bits offsets
                  (Source kvBatch) (LastRow kvBatch) (Progress kvBatch) (arrays st') with
          | None => (st', Panic)
          | Some a =>
              ingestBatches rest
                (mkState (pkIndexAdder st') (indexAdder st') a (calls st'))
          end
      end
  end.

(** From [g.Wait()] to the end, import_processor.go:426-446. *)
Definition flushBoth (st : state) : state * outcome BulkOpSummary :=
  match callFlush PK st with
  | (st1, Some err) =>
      if isDuplicateKeyError err
      then (st1, Returns None (Some (Wrapped err "duplicate key in primary index")))
      else (st1, Returns None (Some err))
  | (st1, None) =>
      match callFlush IDX st1 with
      | (st2, Some err) =>
          if isDuplicateKeyError err
          then (st2, Returns None (Some (Wrapped err "duplicate key in index")))
          else (st2, Returns None (Some err))
      | (st2, None) =>
          (st2, Returns (Some (summaryAdd (GetSummary (pkIndexAdder st2))
                                          (GetSummary (indexAdder st2)))) None)
      end
  end.

(** [ingestKvs] once both adders exist: the ingest task, [g.Wait()], the
    flushes, and the deferred [Close] calls (last deferred first). A panic of
    the ingest task is not recovered, so nothing runs after it. The reporter
    task and the flush hooks are the events of [Progress]; cancellation of
    the context is not modelled. *)
Definition ingestKvs (batches : list KVBatch) (st : state) : state * outcome BulkOpSummary :=
  match ingestBatches batches st with
  | (st1, Panic) => (st1, Panics)
  | (st1, Fails err) => (callClose PK (callClose IDX st1), Returns None (Some err))
  | (st1, Completes) =>
      let r := flushBoth st1 in
      (callClose PK (callClose IDX r.1), r.2)
  end.

(** The [Add] calls of a log, oldest first: which adder, which KV. *)
Definition adds (cs : list call) : list (which * KeyValue) :=
  omap (λ c, match what c with
             | OpAdd kv => Some (callee c, kv)
             | _ => None
             end) cs.

(** The adder a KV belongs to by its decoded index ID: the PK adder for index
    ID 1, the secondary adder for any other. *)
Definition route (kv : KeyValue) : option which :=
  match DecodeTableIDIndexID (Key kv) with
  | Ok (_, _, indexID) => Some (if decide (indexID = 1) then PK else IDX)
  | Err _ => None
  end.

(** No call of the log returned an error. *)
Definition clean (cs : list call) : Prop := ∀ c, c ∈ cs → returned c = None.

(** The error handed back when adder [w] returned [e]: a duplicate-key error
    is wrapped with the adder's message, any other error is passed on. *)
Definition reported (w : which) (e : error) : error :=
  if isDuplicateKeyError e
  then Wrapped e (match w with
                  | PK => "duplicate key in primary index"
                  | IDX => "duplicate key in index"
                  end)
  else e.

(** A log segment made of one [Add] per KV of [done], in order, each on the
    adder [route] names. *)
Definition served (done : list KeyValue) (cs : list call) : Prop :=
  Forall2 (λ kv c, what c = OpAdd kv ∧ route kv = Some (callee c)) done cs.

(** A log segment and the error [r] returned after it: either no call of the
    segment failed, or its last call did and [r] reports that failure. *)
Definition accounted (cs : list call) (r : option error) : Prop :=
  clean cs ∨
  ∃ cs0 c e, cs = cs0 ++ [c] ∧ clean cs0 ∧ returned c = Some e ∧
             r = Some (reported (callee c) e).

(** A log segment and the outcome of [ingestKvs] after it: either no call of
    the segment failed, or exactly one did and the outcome is that failure,
    reported, with no summary. *)
Definition settled {S : Type} (cs : list call) (out : outcome S) : Prop :=
  clean cs ∨
  ∃ pre c e post, cs = pre ++ c :: post ∧ clean pre ∧ clean post ∧
                  returned c = Some e ∧
                  out = Returns None (Some (reported (callee c) e)).

(** The error an exit of the ingest task carries. *)
Definition exitError (x : exit) : option error :=
  match x with
  | Fails err => Some err
  | _ => None
  end.

End Adders.

Arguments pkIndexAdder {adder} s.
Arguments indexAdder {adder} s.
Arguments arrays {adder} s.
Arguments calls {adder} s.
Arguments mkState {adder} pkIndexAdder indexAdder arrays calls.

End Ingest.

(** ** The sampler: [sampleRate.sample] and [emitKvs] *)
Module Emit.

(** [roachpb.Span]: the keys from [SpanKey] up to, not including, [EndKey]. *)
Record Span := mkSpan { SpanKey : string; EndKey : string }.

(** Modelled from the spec: [roachpb.SpanGroup] with its [Add] and
    [Contains], which are not among the sources. "A set of key intervals
    (union of previously-successful runs) used to filter KVs. Membership
    test: does this key lie within any completed span?"  Keys are compared
    byte by byte. *)
Definition Contains (completedSpans : list Span) (k : string) : bool :=
  existsb (λ sp, String.leb (SpanKey sp) k && String.ltb k (EndKey sp)) completedSpans.

(** [job.Progress().Details]: the import variant with its [SpanProgress], or
    another variant. *)
Inductive ProgressDetails :=
| Progress_Import (SpanProgress : list Span)
| Progress_Other.

(** [execinfra.ConsumerStatus]. *)
Inductive ConsumerStatus :=
| NeedMoreRows
| DrainRequested
| ConsumerClosed.

Section Sampler.

(** [*rand.Rand] with its [Float64]. *)
Variable rand : Type.
Variable Float64 : rand → Q * rand.

(** [execinfra.RowReceiver] with its [Push], for rows of byte-string
    columns. *)
Variable receiver : Type.
Variable Push : receiver → list string → receiver * ConsumerStatus.

(** [keys.IsDescriptorKey]. *)
Variable IsDescriptorKey : string → bool.

Record sampleRate := mkSampleRate { rnd : rand; sampleSize : IEEE.float }.

(** [len(kv.Key) + len(kv.Value.RawBytes)]. *)
Definition size (kv : KeyValue) : Z :=
  Z.of_nat (String.length (Key kv)) + Z.of_nat (String.length (RawBytes kv)).

(** [func (s sampleRate) sample(kv roachpb.KeyValue) bool],
    import_processor.go:166-170; the second component is the sampler after
    the draw. *)
Definition sample (s : sampleRate) (kv : KeyValue) : bool * sampleRate :=
  let sz := IEEE.ofInt IEEE.round64 (size kv) in
  let prob := IEEE.div IEEE.round64 sz (sampleSize s) in
  let draw := Float64 (rnd s) in
  (IEEE.gt prob (IEEE.Finite draw.1), mkSampleRate draw.2 (sampleSize s)).

(** The receiver, the rows pushed to it so far (oldest first), and [fn]: nil
    or the [sample] method of a [sampleRate]. *)
Record state := mkState {
  output : receiver;
  pushed : list (list string);
  fn : option sampleRate
}.

(** [output.Push(row, nil) != execinfra.NeedMoreRows]. *)
Definition push (row : list string) (fn' : option sampleRate) (st : state) : state * exit :=
  let r := Push (output st) row in
  (mkState r.1 (pushed st ++ [row]) fn',
   match r.2 with
   | NeedMoreRows => Completes
   | _ => Fails (ErrorString "unexpected closure of consumer")
   end).

(** Body of [for _, kv := range kvBatch.KVs], import_processor.go:209-232. *)
Definition emitKV (sampleAll : bool) (completedSpans : list Span) (kv : KeyValue) (st : state)
  : state * exit :=
  if Contains completedSpans (Key kv) then (st, Completes)
  else
    let rowRequired := sampleAll || IsDescriptorKey (Key kv) in
    if rowRequired then push [Key kv; RawBytes kv] (fn st) st
    else
      match fn st with
      | None => (st, Panic)
      | Some s =>
          let r := sample s kv in
          if r.1 then push [Key kv; ""] (Some r.2) st
          else (mkState (output st) (pushed st) (Some r.2), Completes)
      end.

Fixpoint emitKVs (sampleAll : bool) (completedSpans : list Span) (kvs : list KeyValue)
    (st : state) : state * exit :=
  match kvs with
  | [] => (st, Completes)
  | kv :: rest =>
      match emitKV sampleAll completedSpans kv st with
      | (st', Completes) => emitKVs sampleAll completedSpans rest st'
      | (st', x) => (st', x)
      end
  end.

(** [for kvBatch := range kvCh], import_processor.go:207-234. *)
Fixpoint emitBatches (sampleAll : bool) (completedSpans : list Span) (batches : list KVBatch)
    (st : state) : state * exit :=
  match batches with
  | [] => (st, Completes)
  | kvBatch :: rest =>
      match emitKVs sampleAll completedSpans (KVs kvBatch) st with
      | (st', Completes) => emitBatches sampleAll completedSpans rest st'
      | (st', x) => (st', x)
      end
  end.

(** [emitKvs], import_processor.go:172-236. [seed] is the generator made by
    [rand.New(rand.NewSource(rand.Int63()))], [job] what [LoadJob] and
    [job.Progress().Details] give, [batches] what [kvCh] delivers. *)
Definition emitKvs (SampleSize : Z) (seed : rand) (job : result ProgressDetails)
    (batches : list KVBatch) (out : receiver) : state * exit :=
  let sampleAll := bool_decide (SampleSize = 0) in
  let fn := if decide (SampleSize = 0) then None
            else Some (mkSampleRate seed (IEEE.ofInt IEEE.round64 SampleSize)) in
  match job with
  | Err err => (mkState out [] fn, Fails err)
  | Ok (Progress_Import SpanProgress) =>
      emitBatches sampleAll SpanProgress batches (mkState out [] fn)
  | Ok _ => (mkState out [] fn, Fails (ErrorString "unexpected progress type jobspb.Progress"))
  end.

End Sampler.

(** The completed spans a job's progress holds. *)
Definition completedSpansOf (job : result ProgressDetails) : list Span :=
  match job with
  | Ok (Progress_Import SpanProgress) => SpanProgress
  | _ => []
  end.

Arguments output {rand receiver} s.
Arguments pushed {rand receiver} s.
Arguments fn {rand receiver} s.
Arguments rnd {rand} s.
Arguments sampleSize {rand} s.
Arguments mkState {rand receiver} output pushed fn.
Arguments mkSampleRate {rand} rnd sampleSize.

(** The row of a KV forwarded because it is required. *)
Definition fullRow (kv : KeyValue) : list string := [Key kv; RawBytes kv].

(** A row forwarded for [kv]: its key, and its value or the empty string. *)
Definition rowOf (kv : KeyValue) (row : list string) : Prop :=
  row = [Key kv; RawBytes kv] ∨ row = [Key kv; ""].

(** [kv] lies outside every span of [completedSpans]. *)
Definition outside (completedSpans : list Span) (kv : KeyValue) : Prop :=
  Contains completedSpans (Key kv) = false.

#[global] Instance outside_dec completedSpans kv : Decision (outside completedSpans kv) :=
  decide (Contains completedSpans (Key kv) = false).

End Emit.

(** ** File reading: [read_import_base.go] *)
Module Reader.

(** [roachpb.IOFileFormat_Compression]. *)
Inductive IOFileFormat_Compression :=
| IOFileFormat_Auto
| IOFileFormat_None
| IOFileFormat_Gzip
| IOFileFormat_Bzip.

#[global] Instance IOFileFormat_Compression_eq_dec : EqDecision IOFileFormat_Compression.
Proof. solve_decision. Defined.

(** [roachpb.IOFileFormat_FileFormat]. *)
Inductive IOFileFormat_FileFormat :=
| IOFileFormat_CSV
| IOFileFormat_MysqlOutfile
| IOFileFormat_Mysqldump
| IOFileFormat_PgCopy
| IOFileFormat_PgDump.

#[global] Instance IOFileFormat_FileFormat_eq_dec : EqDecision IOFileFormat_FileFormat.
Proof. solve_decision. Defined.

(** [roachpb.IOFileFormat], with [MysqlOut.SaveRejected]. *)
Record IOFileFormat := mkFormat {
  Format : IOFileFormat_FileFormat;
  Compression : IOFileFormat_Compression;
  SaveRejected : bool
}.

(** [net/url.URL], the fields [url.Parse] fills. *)
Record URL := mkURL {
  Scheme : string;
  Host : string;
  Path : string;
  RawQuery : string;
  Fragment : string
}.

(** [strings.HasSuffix]:
    [len(s) >= len(suffix) && s[len(s)-len(suffix):] == suffix]. *)
Definition HasSuffix (s suffix : string) : bool :=
  (String.length suffix <=? String.length s)%nat &&
  String.eqb (String.substring (String.length s - String.length suffix) (String.length suffix) s)
             suffix.

(** [fileReader] with its [byteCounter]: the stream, the total size, and the
    bytes counted so far. *)
Record fileReader := mkFileReader {
  stream : string;
  total : Z;
  counter_n : Z
}.

(** [func (f fileReader) ReadFraction() float32],
    read_import_base.go:330-335. *)
Definition ReadFraction (f : fileReader) : IEEE.float :=
  if decide (total f = 0) then IEEE.Finite 0
  else IEEE.div IEEE.round32 (IEEE.ofInt IEEE.round32 (counter_n f))
                             (IEEE.ofInt IEEE.round32 (total f)).

Section Compression.

(** [net/url.Parse]. *)
Variable urlParse : string → result URL.

(** [guessCompressionFromName], read_import_base.go:294-311. The call on
    [parsed.Path] is the only recursive one; [fuel] bounds the number of such
    calls, and [None] means the bound was reached. *)
Fixpoint guessCompressionFromName (fuel : nat) (name : string)
    (hint : IOFileFormat_Compression) : option IOFileFormat_Compression :=
  if decide (hint ≠ IOFileFormat_Auto) then Some hint
  else if HasSuffix name ".gz" then Some IOFileFormat_Gzip
  else if HasSuffix name ".bz2" || HasSuffix name ".bz" then Some IOFileFormat_Bzip
  else
    match urlParse name with
    | Ok parsed =>
        if decide (Path parsed ≠ name) then
          match fuel with
          | O => None
          | S fuel' => guessCompressionFromName fuel' (Path parsed) hint
          end
        else Some IOFileFormat_None
    | Err _ => Some IOFileFormat_None
    end.

(** The rules as the documentation states them: the hint when it is not
    Auto; else gzip for a name ending in ".gz"; else bzip for a name ending
    in ".bz" or ".bz2"; else, when the name parses as a URI whose path
    differs from the name, what the same rules give for the path; else
    none. *)
Inductive guessed : string → IOFileFormat_Compression → IOFileFormat_Compression → Prop :=
| guessed_hint name hint :
    hint ≠ IOFileFormat_Auto → guessed name hint hint
| guessed_gz name :
    HasSuffix name ".gz" = true → guessed name IOFileFormat_Auto IOFileFormat_Gzip
| guessed_bz name :
    HasSuffix name ".bz" = true ∨ HasSuffix name ".bz2" = true →
    guessed name IOFileFormat_Auto IOFileFormat_Bzip
| guessed_path name parsed c :
    HasSuffix name ".gz" = false → HasSuffix name ".bz" = false →
    HasSuffix name ".bz2" = false →
    urlParse name = Ok parsed → Path parsed ≠ name →
    guessed (Path parsed) IOFileFormat_Auto c →
    guessed name IOFileFormat_Auto c
| guessed_none name :
    HasSuffix name ".gz" = false → HasSuffix name ".bz" = false →
    HasSuffix name ".bz2" = false →
    (∀ parsed, urlParse name = Ok parsed → Path parsed = name) →
    guessed name IOFileFormat_Auto IOFileFormat_None.

(** What [url.Parse] guarantees about the path: it is cut out of the name
    and unescaped, so a path that differs from the name is shorter. *)
Definition pathShrinks : Prop :=
  ∀ name parsed, urlParse name = Ok parsed → Path parsed ≠ name →
                 (String.length (Path parsed) < String.length name)%nat.

End Compression.

(** One [WriteFile] call: the URI the storage was opened from, the base
    name, and the bytes written. *)
Record write := mkWrite { uri : string; basename : string; content : string }.

(** What [readInputFiles] leaves behind: the blob writes and the values
    handed to [progressFn], oldest first, and the running [readBytes]. *)
Record world := mkWorld {
  writes : list write;
  progress : list IEEE.float;
  readBytes : Z
}.

(** What a call of [fileFunc] does: the rows it sends on the rejected-row
    channel, its calls of the progress callback (the [finished] flag and the
    value of [src.counter.n] at the call), and the error it returns. *)
Record parse := mkParse {
  rejectedRows : list string;
  progressCalls : list (bool * Z);
  parseError : option error
}.

Section Files.

Variable urlParse : string → result URL.

(** [storageccl]: [ExportStorageConfFromURI], [MakeExportStorage], and the
    storage's [Size], [ReadFile] and [WriteFile] on the empty base name. *)
Variable conf : Type.
Variable storage : Type.
Variable ExportStorageConfFromURI : string → result conf.
Variable MakeExportStorage : conf → result storage.
Variable Size : storage → Z * option error.
Variable ReadFile : storage → result string.
Variable WriteFile : storage → string → string → option error.

(** [gzip.NewReader] and [bzip2.NewReader], on whole streams. *)
Variable gzipNewReader : string → result string.
Variable bzip2NewReader : string → string.

(** The [readFileFunc]; its last argument tells whether the rejected-row
    channel is non-nil. *)
Variable fileFunc : fileReader → Z → string → bool → parse.

(** [decompressingReader], read_import_base.go:281-292. Fuel equal to the
    length of the name is enough for the guess. *)
Definition decompressingReader (input name : string) (hint : IOFileFormat_Compression)
  : result string :=
  match guessCompressionFromName urlParse (String.length name) name hint with
  | Some IOFileFormat_Gzip => gzipNewReader input
  | Some IOFileFormat_Bzip => Ok (bzip2NewReader input)
  | _ => Ok input
  end.

(** [const progressBytes = 100 << 20]. *)
Definition progressBytes : Z := Z.shiftl 100 20.

(** The byte-based [wrappedProgressFn], read_import_base.go:198-211, applied
    to the calls the parser made; what it returns goes to the parser. *)
Fixpoint reportBytes (progressFn : IEEE.float → option error) (totalBytes : Z)
    (calls : list (bool * Z)) (lastReported : Z) (w : world) : world :=
  match calls with
  | [] => w
  | (finished, n) :: rest =>
      let progressed := n - lastReported in
      if finished || bool_decide (progressed > progressBytes) then
        let readBytes' := readBytes w + progressed in
        reportBytes progressFn totalBytes rest n
          (mkWorld (writes w)
                   (progress w ++ [IEEE.div IEEE.round32
                                     (IEEE.ofInt IEEE.round32 readBytes')
                                     (IEEE.ofInt IEEE.round32 totalBytes)])
                   readBytes')
      else reportBytes progressFn totalBytes rest lastReported w
  end.

(** The task that collects the rejected rows, read_import_base.go:220-250,
    once the channel is closed: [rows] is what it received. *)
Definition saveRejected (dataFile : string) (rows : list string) (w : world)
  : world * option error :=
  let buf := String.concat "" rows in
  let atFirstLine := bool_decide (rows = []) in
  if atFirstLine then (w, None)
  else
    let rejectedFile := dataFile in
    match urlParse rejectedFile with
    | Err err => (w, Some err)
    | Ok parsedURI =>
        let parsedURI :=
          mkURL (Scheme parsedURI) (Host parsedURI) (Path parsedURI ++ ".rejected")
                (RawQuery parsedURI) (Fragment parsedURI) in
        match ExportStorageConfFromURI rejectedFile with
        | Err err => (w, Some err)
        | Ok conf =>
            match MakeExportStorage conf with
            | Err err => (w, Some err)
            | Ok rejectedStorage =>
                (mkWorld (writes w ++ [mkWrite rejectedFile "" buf]) (progress w)
                         (readBytes w),
                 WriteFile rejectedStorage "" buf)
            end
        end
    end.

(** The body run for one file, read_import_base.go:170-274. Of the two tasks
    of the group the parser ends first, so its error is the one [grp.Wait]
    returns when both fail. Cancellation of the context is not modelled. *)
Definition readFile (format : IOFileFormat) (progressFn : option (IEEE.float → option error))
    (totalBytes : Z) (fileSizes : gmap Z Z) (nFiles currentFile : Z)
    (dataFileIndex : Z) (dataFile : string) (w : world) : world * option error :=
  let updateFromFiles := bool_decide (is_Some progressFn) && bool_decide (totalBytes = 0) in
  let updateFromBytes := bool_decide (is_Some progressFn) && bool_decide (totalBytes > 0) in
  match ExportStorageConfFromURI dataFile with
  | Err err => (w, Some err)
  | Ok conf =>
  match MakeExportStorage conf with
  | Err err => (w, Some err)
  | Ok es =>
  match ReadFile es with
  | Err err => (w, Some err)
  | Ok raw =>
  match decompressingReader raw dataFile (Compression format) with
  | Err err => (w, Some err)
  | Ok decompressed =>
      let src := mkFileReader decompressed (default 0 (fileSizes !! dataFileIndex)) 0 in
      let rejected :=
        bool_decide (Format format = IOFileFormat_MysqlOutfile) && SaveRejected format in
      let p := fileFunc src dataFileIndex dataFile rejected in
      let w1 :=
        match progressFn with
        | Some pf =>
            if updateFromBytes then reportBytes pf totalBytes (progressCalls p) 0 w else w
        | None => w
        end in
      let r :=
        if rejected then
          let c := saveRejected dataFile (rejectedRows p) w1 in
          match parseError p, c.2 with
          | Some err, _ => (c.1, Some (Wrapped (Wrapped err dataFile) dataFile))
          | None, Some err => (c.1, Some (Wrapped err dataFile))
          | None, None => (c.1, None)
          end
        else
          match parseError p with
          | Some err => (w1, Some (Wrapped err dataFile))
          | None => (w1, None)
          end in
      match r.2, progressFn with
      | Some err, _ => r
      | None, Some pf =>
          if updateFromFiles then
            let pct := IEEE.div IEEE.round32 (IEEE.ofInt IEEE.round32 currentFile)
                                             (IEEE.ofInt IEEE.round32 nFiles) in
            (mkWorld (writes r.1) (progress r.1 ++ [pct]) (readBytes r.1), pf pct)
          else r
      | None, None => r
      end
  end end end end.

(** The first loop, read_import_base.go:139-158: total and per-file sizes,
    abandoned at the first size that is not positive. *)
Fixpoint fetchSizes (dataFiles : list (Z * string)) (totalBytes : Z) (fileSizes : gmap Z Z)
  : result (Z * gmap Z Z) :=
  match dataFiles with
  | [] => Ok (totalBytes, fileSizes)
  | (id, dataFile) :: rest =>
      match ExportStorageConfFromURI dataFile with
      | Err err => Err err
      | Ok conf =>
          match MakeExportStorage conf with
          | Err err => Err err
          | Ok es =>
              let sz := (Size es).1 in
              if bool_decide (sz ≤ 0) then Ok (0, fileSizes)
              else fetchSizes rest (totalBytes + sz) (<[id := sz]> fileSizes)
          end
      end
  end.

(** The second loop, read_import_base.go:162-277. *)
Fixpoint readFiles (format : IOFileFormat) (progressFn : option (IEEE.float → option error))
    (totalBytes : Z) (fileSizes : gmap Z Z) (nFiles currentFile : Z)
    (dataFiles : list (Z * string)) (w : world) : world * option error :=
  match dataFiles with
  | [] => (w, None)
  | (dataFileIndex, dataFile) :: rest =>
      let currentFile := currentFile + 1 in
      match readFile format progressFn totalBytes fileSizes nFiles currentFile
              dataFileIndex dataFile w with
      | (w', Some err) => (w', Some err)
      | (w', None) =>
          readFiles format progressFn totalBytes fileSizes nFiles currentFile rest w'
      end
  end.

(** [readInputFiles], read_import_base.go:126-279. [dataFiles] lists the
    entries of the map in the order both loops visit them. *)
Definition readInputFiles (dataFiles : list (Z * string)) (format : IOFileFormat)
    (progressFn : option (IEEE.float → option error)) : world * option error :=
  match fetchSizes dataFiles 0 ∅ with
  | Err err => (mkWorld [] [] 0, Some err)
  | Ok (totalBytes, fileSizes) =>
      readFiles format progressFn totalBytes fileSizes (Z.of_nat (length dataFiles)) 0
        dataFiles (mkWorld [] [] 0)
  end.

End Files.

End Reader.

(** ** A small instance of the collaborators, on which the model runs *)
Module Toy.

(** The 32-bit encodings of 0, 1/2 and 1, the only fractions the examples
    use. *)
Definition Float32bits (f : IEEE.float) : Z :=
  match f with
  | IEEE.Finite q =>
      if Qeq_bool q 1 then 0x3F800000
      else if Qeq_bool q (1 # 2) then 0x3F000000
      else 0
  | _ => 0x7FC00000
  end.

Definition Float32frombits (bits : Z) : IEEE.float :=
  if decide (bits = 0x3F800000) then IEEE.Finite 1
  else if decide (bits = 0x3F000000) then IEEE.Finite (1 # 2)
  else if decide (bits = 0) then IEEE.Finite 0
  else IEEE.NaN.

(** An adder that keeps the keys it was given and refuses a key twice. *)
Definition Add (a : list string) (k v : string) : list string * option error :=
  if bool_decide (k ∈ a) then (a, Some (DuplicateKeyError k v)) else (k :: a, None).

Definition Flush (a : list string) : list string * option error := (a, None).

Definition Close (a : list string) : list string := a.

Definition GetSummary (a : list string) : nat := length a.

(** Keys that start with the digit of their index ID. *)
Definition DecodeTableIDIndexID (k : string) : result (string * Z * Z) :=
  match k with
  | String c rest => Ok (rest, 52, Z.of_nat (Ascii.nat_of_ascii c) - 48)
  | EmptyString => Err (ErrorString "insufficient bytes to decode uvarint value")
  end.

Definition ingestKvs (batches : list KVBatch) (st : Ingest.state (list string))
  : Ingest.state (list string) * Ingest.outcome nat :=
  Ingest.ingestKvs (list string) Add Flush Close nat GetSummary Nat.add
    DecodeTableIDIndexID Float32bits (Progress.mkOffsets [0]) batches st.

Definition fresh : Ingest.state (list string) :=
  Ingest.mkState [] [] (Progress.init 1) [].

(** A sink that accepts [budget] more rows and then answers that its
    consumer is closed. *)
Definition Push (budget : nat) (row : list string) : nat * Emit.ConsumerStatus :=
  match budget with
  | O => (O, Emit.ConsumerClosed)
  | S k => (k, Emit.NeedMoreRows)
  end.

(** A generator whose draws are 1/2, 1/3, 1/4, ... *)
Definition Float64 (r : positive) : Q * positive := (1 # (r + 1), (r + 1)%positive).

(** Descriptor keys start with byte 3 here. *)
Definition IsDescriptorKey (k : string) : bool :=
  match k with
  | String c _ => bool_decide (Ascii.nat_of_ascii c = 3%nat)
  | EmptyString => false
  end.

(** A URI parser that only splits off the query: the path is what precedes
    the first '?'. *)
Fixpoint beforeQuery (s : string) : string :=
  match s with
  | EmptyString => EmptyString
  | String c rest => if Ascii.eqb c "?"%char then EmptyString else String c (beforeQuery rest)
  end.

Fixpoint afterQuery (s : string) : string :=
  match s with
  | EmptyString => EmptyString
  | String c rest => if Ascii.eqb c "?"%char then rest else afterQuery rest
  end.

Definition urlParse (name : string) : result Reader.URL :=
  Ok (Reader.mkURL "" "" (beforeQuery name) (afterQuery name) "").

(** A blob store in which every URI opens, every file holds the same eight
    bytes, and every write succeeds; decompression changes nothing; and a
    parser that rejects the rows [rows] and calls the progress callback once,
    at the end. *)
Definition readInputFiles (rows : list string) (dataFiles : list (Z * string))
    (format : Reader.IOFileFormat) (progressFn : option (IEEE.float → option error))
  : Reader.world * option error :=
  Reader.readInputFiles urlParse string string
    (λ dataFile, Ok dataFile) (λ conf, Ok conf)
    (λ es, (8, None)) (λ es, Ok "1,x;2,y;") (λ es basename content, None)
    (λ input, Ok input) (λ input, input)
    (λ src dataFileIndex dataFile rejected,
       Reader.mkParse (if rejected then rows else []) [(true, 8)] None)
    dataFiles format progressFn.

Definition emitKvs (SampleSize : Z) (job : result Emit.ProgressDetails)
    (batches : list KVBatch) (budget : nat) : Emit.state positive nat * exit :=
  Emit.emitKvs positive Float64 nat Push IsDescriptorKey
    SampleSize 1%positive job batches budget.

End Toy.

(** ** Histories of the progress arrays *)
Module ProgressLog.

(** The slot [offsets[source]] a batch of file [source] is recorded in. *)
Definition slot (offsets : gmap Z Z) (source : Z) : Z := default 0 (offsets !! source).

(** The [LastRow] values of the batches recorded in slot [offset], oldest
    first. *)
Definition recorded (offsets : gmap Z Z) (offset : Z) (evs : list Progress.event) : list Z :=
  omap (λ ev, match ev with
              | Progress.Batch source lastRow _ =>
                  if decide (slot offsets source = offset) then Some lastRow else None
              | _ => None
              end) evs.

(** The fraction bits of the batches recorded in slot [offset], oldest
    first. *)
Definition recordedBits (Float32bits : IEEE.float → Z) (offsets : gmap Z Z) (offset : Z)
    (evs : list Progress.event) : list Z :=
  omap (λ ev, match ev with
              | Progress.Batch source _ progress =>
                  if decide (slot offsets source = offset) then Some (Float32bits progress)
                  else None
              | _ => None
              end) evs.

(** Every element of a slice is a valid index of a slice of length [n]. *)
Definition allInRange (n : nat) (vals : list Z) : Prop :=
  Forall (λ v, 0 ≤ v < Z.of_nat n) vals.

(** A flushed slice after a hook that ran on [writtenRow]: the slots whose
    index occurs as an element of [writtenRow] hold the written row, the
    others hold what they held. *)
Definition refreshed (writtenRow before after : list Z) : Prop :=
  ∀ j, Progress.load after j
       = if decide (j ∈ writtenRow) then Progress.load writtenRow j
         else Progress.load before j.

(** Every value a slice holds is 0 or a row recorded in its slot by the
    history [hist]. *)
Definition known (offsets : gmap Z Z) (hist : list Progress.event) (a : list Z) : Prop :=
  ∀ j x, Progress.load a j = Some x → x = 0 ∨ x ∈ recorded offsets j hist.

(** The events the ingest task makes of the batches it records. *)
Definition batchEvents (batches : list KVBatch) : list Progress.event :=
  (λ b, Progress.Batch (Source b) (LastRow b) (Progress b)) <$> batches.

End ProgressLog.

(** ** Call logs of the two adders *)
Module IngestLog.

(** The call is an [Add]. *)
Definition isAdd (c : Ingest.call) : Prop := ∃ kv, Ingest.what c = Ingest.OpAdd kv.

(** The two deferred [Close] calls, in the order they run. *)
Definition closes : list Ingest.call :=
  [Ingest.mkCall Ingest.IDX Ingest.OpClose None; Ingest.mkCall Ingest.PK Ingest.OpClose None].

End IngestLog.

(** ** Rows and answers at the sampler's sink *)
Module EmitLog.

Section Sink.
Variable receiver : Type.
Variable Push : receiver → list string → receiver * Emit.ConsumerStatus.

(** The receiver after [rows] were pushed to it, in order. *)
Definition replay (out : receiver) (rows : list (list string)) : receiver :=
  foldl (λ o row, (Push o row).1) out rows.

(** What the receiver answered to each of those pushes. *)
Fixpoint answers (out : receiver) (rows : list (list string)) : list Emit.ConsumerStatus :=
  match rows with
  | [] => []
  | row :: rest => (Push out row).2 :: answers (Push out row).1 rest
  end.

(** The receiver asked for more after every push of [rows]. *)
Definition fed (out : receiver) (rows : list (list string)) : Prop :=
  Forall (λ a, a = Emit.NeedMoreRows) (answers out rows).

(** The receiver asked for more after every push of [rows] but the last. *)
Definition refused (out : receiver) (rows : list (list string)) : Prop :=
  ∃ pre last, answers out rows = pre ++ [last] ∧
              Forall (λ a, a = Emit.NeedMoreRows) pre ∧ last ≠ Emit.NeedMoreRows.

End Sink.

(** [rowRequired], import_processor.go:214. *)
Definition required (IsDescriptorKey : string → bool) (sampleAll : bool) (kv : KeyValue)
  : bool :=
  sampleAll || IsDescriptorKey (Key kv).

(** The row built for a KV that is forwarded, import_processor.go:216-228: key
    and value when the row is required, key and no bytes otherwise. *)
Definition rowFor (IsDescriptorKey : string → bool) (sampleAll : bool) (kv : KeyValue)
  : list string :=
  if required IsDescriptorKey sampleAll kv then [Key kv; RawBytes kv] else [Key kv; ""].

(** [fn] can be called: the sampler samples everything, or [fn] is not nil. *)
Definition armed {rand receiver} (sampleAll : bool) (st : Emit.state rand receiver) : Prop :=
  sampleAll = true ∨ is_Some (Emit.fn st).

End EmitLog.

(** ** Sizes, counters and fractions of the file reader *)
Module ReaderLog.

(** [float32(k) / float32(n)], the quotient [ReadFraction] and both kinds of
    progress report compute. *)
Definition fraction32 (k n : Z) : IEEE.float :=
  IEEE.div IEEE.round32 (IEEE.ofInt IEEE.round32 k) (IEEE.ofInt IEEE.round32 n).

Section Probe.
Variable conf : Type.
Variable storage : Type.
Variable ExportStorageConfFromURI : string → result conf.
Variable MakeExportStorage : conf → result storage.
Variable Size : storage → Z * option error.

(** The size the first loop of [readInputFiles] gets for a data file whose
    storage opens. *)
Definition sizeOf (dataFile : string) : option Z :=
  match ExportStorageConfFromURI dataFile with
  | Ok c =>
      match MakeExportStorage c with
      | Ok es => Some (Size es).1
      | Err _ => None
      end
  | Err _ => None
  end.

(** The sum of those sizes over the data files. *)
Definition totalSize (dataFiles : list (Z * string)) : Z :=
  foldr (λ p acc, default 0 (sizeOf p.2) + acc) 0 dataFiles.

End Probe.

Section Orders.
Variable urlParse : string → result Reader.URL.
Variable conf : Type.
Variable storage : Type.
Variable ExportStorageConfFromURI : string → result conf.
Variable MakeExportStorage : conf → result storage.
Variable Size : storage → Z * option error.
Variable ReadFile : storage → result string.
Variable WriteFile : storage → string → string → option error.
Variable gzipNewReader : string → result string.
Variable bzip2NewReader : string → string.
Variable fileFunc : Reader.fileReader → Z → string → bool → Reader.parse.

(** [readInputFiles], read_import_base.go:126-279, with the order of each of
    its two [range dataFiles] loops given apart: Go fixes no order for the
    entries of a map, and the two loops need not agree. [sizeOrder] lists the
    entries as the first loop visits them, [readOrder] as the second does. *)
Definition readInputFilesIn (sizeOrder readOrder : list (Z * string))
    (format : Reader.IOFileFormat) (progressFn : option (IEEE.float → option error))
  : Reader.world * option error :=
  match Reader.fetchSizes conf storage ExportStorageConfFromURI MakeExportStorage Size
          sizeOrder 0 ∅ with
  | Err err => (Reader.mkWorld [] [] 0, Some err)
  | Ok (totalBytes, fileSizes) =>
      Reader.readFiles urlParse conf storage ExportStorageConfFromURI MakeExportStorage
        ReadFile WriteFile gzipNewReader bzip2NewReader fileFunc
        format progressFn totalBytes fileSizes (Z.of_nat (length readOrder)) 0
        readOrder (Reader.mkWorld [] [] 0)
  end.

End Orders.

(** The blob store of [Toy], with files of [size] bytes each, and a parser
    that rejects [rows] and hands the counters [calls] to the progress
    callback. *)
Definition toyTotalSize : list (Z * string) → Z :=
  totalSize string string (λ dataFile, Ok dataFile) (λ conf, Ok conf) (λ es, (8, None)).

Definition toyRead (size : Z) (rows : list string)
    (calls : Reader.fileReader → list (bool * Z))
    (sizeOrder readOrder : list (Z * string)) (format : Reader.IOFileFormat)
    (progressFn : option (IEEE.float → option error)) : Reader.world * option error :=
  readInputFilesIn Toy.urlParse string string
    (λ dataFile, Ok dataFile) (λ conf, Ok conf)
    (λ es, (size, None)) (λ es, Ok "1,x;2,y;") (λ es basename content, None)
    (λ input, Ok input) (λ input, input)
    (λ src dataFileIndex dataFile rejected,
       Reader.mkParse (if rejected then rows else []) (calls src) None)
    sizeOrder readOrder format progressFn.

(** Two data files, in two orders; a parser that calls back once, at the
    end, with the counter at [n]; and one that calls back at the start and
    at the end, with the counter at the size of the file. *)
Definition toyFiles : list (Z * string) := [(0, "a.csv"); (1, "b.csv")].
Definition toyFilesSwapped : list (Z * string) := [(1, "b.csv"); (0, "a.csv")].
Definition atEnd (n : Z) (src : Reader.fileReader) : list (bool * Z) := [(true, n)].
Definition wholeFile (src : Reader.fileReader) : list (bool * Z) :=
  [(false, 0); (true, Reader.total src)].

(** [lo], then the elements of [l] one after the other, are in the order
    [R]. *)
Fixpoint chain {A : Type} (R : A → A → Prop) (lo : A) (l : list A) : Prop :=
  match l with
  | [] => True
  | x :: rest => R lo x ∧ chain R x rest
  end.

(** The counters a parser hands to the progress callback, one after the
    other: they start at [prev] or above, never go down, and stay within
    [size]. *)
Fixpoint counted (size prev : Z) (calls : list (bool * Z)) : Prop :=
  match calls with
  | [] => True
  | (_, n) :: rest => prev ≤ n ≤ size ∧ counted size n rest
  end.

(** The decoder [decompressingReader] applies for a compression. *)
Definition decoded (gzipNewReader : string → result string) (bzip2NewReader : string → string)
    (c : Reader.IOFileFormat_Compression) (input : string) : result string :=
  match c with
  | Reader.IOFileFormat_Gzip => gzipNewReader input
  | Reader.IOFileFormat_Bzip => Ok (bzip2NewReader input)
  | _ => Ok input
  end.

End ReaderLog.

(** ** Choice of the input converter: [makeInputConverter] *)
Module Converter.

(** [roachpb.ExportStorageProvider], as far as [makeInputConverter] tells
    the providers apart. *)
Inductive ExportStorageProvider :=
| ExportStorageProvider_Workload
| ExportStorageProvider_Other.

#[global] Instance ExportStorageProvider_eq_dec : EqDecision ExportStorageProvider.
Proof. solve_decision. Defined.

(** [isMultiTableFormat], read_import_base.go:345-352. A format is one of the
    five the code names, or [None] for any other value of the enumeration. *)
Definition isMultiTableFormat (format : option Reader.IOFileFormat_FileFormat) : bool :=
  match format with
  | Some Reader.IOFileFormat_Mysqldump | Some Reader.IOFileFormat_PgDump => true
  | _ => false
  end.

Section Readers.

(** [*sqlbase.TableDescriptor] values, [ReadImportDataSpec_ImportTable] with
    its [Desc] pointer, which may be nil, and its [TargetCols]. *)
Variable TableDescriptor : Type.

Record ImportTable := mkImportTable {
  Desc : option TableDescriptor;
  TargetCols : list string
}.

(** [storageccl.ExportStorageConfFromURI] and the [Provider] of a
    configuration. *)
Variable conf : Type.
Variable ExportStorageConfFromURI : string → result conf.
Variable Provider : conf → ExportStorageProvider.

(** The readers, with the arguments that depend on the tables; the channel,
    the options of the format and the evaluation context are fixed. *)
Variable inputConverter : Type.
Variable newWorkloadReader : option TableDescriptor → inputConverter.
Variable newCSVInputReader : option TableDescriptor → list string → inputConverter.
Variable newMysqloutfileReader : option TableDescriptor → result inputConverter.
Variable newMysqldumpReader : list (string * ImportTable) → result inputConverter.
Variable newPgCopyReader : option TableDescriptor → result inputConverter.
Variable newPgDumpReader : list (string * ImportTable) → result inputConverter.

(** [format.String()] and the format printed with [%d]. *)
Variable formatString : option Reader.IOFileFormat_FileFormat → string.
Variable formatNumber : option Reader.IOFileFormat_FileFormat → string.

(** The loop over [spec.Uri], import_processor.go:133-139; [uris] lists the
    values of the map in the order the loop visits them. *)
Fixpoint isWorkload (uris : list string) : bool :=
  match uris with
  | [] => true
  | file :: rest =>
      match ExportStorageConfFromURI file with
      | Err _ => false
      | Ok c =>
          if decide (Provider c ≠ ExportStorageProvider_Workload) then false
          else isWorkload rest
      end
  end.

(** [makeInputConverter], import_processor.go:111-155. [Tables] lists the
    entries of [spec.Tables]. *)
Definition makeInputConverter (Tables : list (string * ImportTable))
    (format : option Reader.IOFileFormat_FileFormat) (uris : list string)
  : result inputConverter :=
  let singleTable := match Tables with [(_, table)] => Desc table | _ => None end in
  let singleTableTargetCols :=
    match Tables with [(_, table)] => TargetCols table | _ => [] end in
  if bool_decide (singleTable = None) && negb (isMultiTableFormat format) then
    Err (ErrorString (formatString format
                      ++ " only supports reading a single, pre-specified table"))
  else
    match format with
    | Some Reader.IOFileFormat_CSV =>
        if isWorkload uris then Ok (newWorkloadReader singleTable)
        else Ok (newCSVInputReader singleTable singleTableTargetCols)
    | Some Reader.IOFileFormat_MysqlOutfile => newMysqloutfileReader singleTable
    | Some Reader.IOFileFormat_Mysqldump => newMysqldumpReader Tables
    | Some Reader.IOFileFormat_PgCopy => newPgCopyReader singleTable
    | Some Reader.IOFileFormat_PgDump => newPgDumpReader Tables
    | None =>
        Err (ErrorString ("Requested IMPORT format (" ++ formatNumber format
                          ++ ") not supported by this node"))
    end.

(** A URI of the workload storage. *)
Definition workloadURI (file : string) : Prop :=
  ∃ c, ExportStorageConfFromURI file = Ok c ∧ Provider c = ExportStorageProvider_Workload.

End Readers.

Arguments mkImportTable {TableDescriptor} Desc TargetCols.
Arguments Desc {TableDescriptor} i.
Arguments TargetCols {TableDescriptor} i.

End Converter.

(** ** PAUSE, RESUME and CANCEL JOBS: [controlJobsNode] *)
Module ControlJobs.

(** [tree.Datum], as far as [startExec] tells the values apart: NULL, an
    integer, a string, anything else. *)
Inductive Datum :=
| DNull
| DInt (n : Z)
| DString (s : string)
| DOther.

(** [tree.JobCommand]. *)
Inductive JobCommand := CancelJob | ResumeJob | PauseJob.

(** The calls [startExec] makes on the job registry, and its wait for the
    pause. *)
Inductive op := OpPauseRequested | OpAwaitPaused | OpResume | OpCancelRequested.

Record call := mkCall { what : op; job : Z; returned : option error }.

Section Registry.

(** [jobs.Status] is a string type; the three constants the code names. *)
Variable StatusPaused : string.
Variable StatusRunning : string.
Variable StatusCanceled : string.

(** [jobCommandToDesiredStatus]. *)
Definition jobCommandToDesiredStatus (c : JobCommand) : string :=
  match c with
  | CancelJob => StatusCanceled
  | ResumeJob => StatusRunning
  | PauseJob => StatusPaused
  end.

(** The job registry and the jobs table behind it, seen through the
    transaction of the statement. *)
Variable registry : Type.
Variable PauseRequested : registry → Z → registry * option error.
Variable Resume : registry → Z → registry * option error.
Variable CancelRequested : registry → Z → registry * option error.

(** [InternalExecutor.QueryRowEx] of the status of a job. *)
Variable QueryRowEx : registry → Z → registry * result (list Datum).

(** [retry.WithMaxAttempts(ctx, opts, 10, fn)]. *)
Variable WithMaxAttempts : (registry → registry * exit) → registry → registry * exit.

(** The messages of the three errors made here, which Go formats with
    [%q], [%T], [%v] and [%id]. *)
Variable expectedDInt : Datum → string.
Variable unhandledStatus : string → string.
Variable timedOut : Z → string.

(** The function handed to [retry.WithMaxAttempts]. *)
Definition pausedCheck (jobID : Z) (r : registry) : registry * exit :=
  match QueryRowEx r jobID with
  | (r', Err err) => (r', Fails err)
  | (r', Ok row) =>
      match row with
      | DString statusString :: _ =>
          if decide (statusString ≠ StatusPaused)
          then (r', Fails (ErrorString (timedOut jobID)))
          else (r', Completes)
      | _ => (r', Panic)
      end
  end.

(** The node: the registry, [numRows], and the calls made so far, oldest
    first. *)
Record node := mkNode {
  reg : registry;
  numRows : Z;
  calls : list call
}.

(** The [switch n.desiredStatus] of [startExec]: the node after it and the
    value of [err], or a panic. *)
Definition command (desiredStatus : string) (jobID : Z) (n : node)
  : node * option (option error) :=
  if decide (desiredStatus = StatusPaused) then
    match PauseRequested (reg n) jobID with
    | (r1, Some err) =>
        (mkNode r1 (numRows n) (calls n ++ [mkCall OpPauseRequested jobID (Some err)]),
         Some (Some err))
    | (r1, None) =>
        let cs := calls n ++ [mkCall OpPauseRequested jobID None] in
        match WithMaxAttempts (pausedCheck jobID) r1 with
        | (r2, Panic) => (mkNode r2 (numRows n) cs, None)
        | (r2, Fails err) =>
            (mkNode r2 (numRows n) (cs ++ [mkCall OpAwaitPaused jobID (Some err)]),
             Some (Some err))
        | (r2, Completes) =>
            (mkNode r2 (numRows n) (cs ++ [mkCall OpAwaitPaused jobID None]), Some None)
        end
    end
  else if decide (desiredStatus = StatusRunning) then
    let r := Resume (reg n) jobID in
    (mkNode r.1 (numRows n) (calls n ++ [mkCall OpResume jobID r.2]), Some r.2)
  else if decide (desiredStatus = StatusCanceled) then
    let r := CancelRequested (reg n) jobID in
    (mkNode r.1 (numRows n) (calls n ++ [mkCall OpCancelRequested jobID r.2]), Some r.2)
  else (n, Some (Some (ErrorString (unhandledStatus desiredStatus)))).

(** [startExec]. [rows] is what the calls of [n.rows.Next] give one after the
    other, an error or the values of the next row, until it reports the
    end. *)
Fixpoint startExec (desiredStatus : string) (rows : list (result (list Datum))) (n : node)
  : node * exit :=
  match rows with
  | [] => (n, Completes)
  | Err err :: _ => (n, Fails err)
  | Ok values :: rest =>
      match values with
      | [] => (n, Panic)
      | DNull :: _ => startExec desiredStatus rest n
      | DInt jobID :: _ =>
          match command desiredStatus jobID n with
          | (n', None) => (n', Panic)
          | (n', Some (Some err)) => (n', Fails err)
          | (n', Some None) =>
              startExec desiredStatus rest (mkNode (reg n') (numRows n' + 1) (calls n'))
          end
      | jobIDDatum :: _ => (n, Fails (ErrorString (expectedDInt jobIDDatum)))
      end
  end.

(** The calls made for a job whose command went through. *)
Definition issued (desiredStatus : string) (jobID : Z) : list call :=
  if decide (desiredStatus = StatusPaused) then
    [mkCall OpPauseRequested jobID None; mkCall OpAwaitPaused jobID None]
  else if decide (desiredStatus = StatusRunning) then [mkCall OpResume jobID None]
  else if decide (desiredStatus = StatusCanceled) then [mkCall OpCancelRequested jobID None]
  else [].

End Registry.

(** The first columns of the rows that have one, and those of them that are
    not NULL. *)
Definition firstColumns (rows : list (result (list Datum))) : list Datum :=
  omap (λ r, match r with
             | Ok (d :: _) => Some d
             | _ => None
             end) rows.

#[global] Instance Datum_eq_dec : EqDecision Datum.
Proof. solve_decision. Defined.

Definition nonNull (rows : list (result (list Datum))) : list Datum :=
  filter (λ d, d ≠ DNull) (firstColumns rows).

Arguments reg {registry} n.
Arguments numRows {registry} n.
Arguments calls {registry} n.
Arguments mkNode {registry} reg numRows calls.

End ControlJobs.

(** ** The fake advisory-lock manager: [pgadvisory/fake_lock_manager.go] *)
Module LockManager.

(** [sync.RWMutex]: held by a writer, or by a number of readers. [Lock] and
    [RLock] give [None] when the caller has to wait, [Unlock] and [RUnlock]
    when the mutex is not held that way (a fatal error in Go). *)
Record RWMutex := mkRWMutex { writer : bool; readers : nat }.

Definition Lock (m : RWMutex) : option RWMutex :=
  if writer m || bool_decide (readers m ≠ 0%nat) then None else Some (mkRWMutex true 0).

Definition RLock (m : RWMutex) : option RWMutex :=
  if writer m then None else Some (mkRWMutex false (S (readers m))).

Definition Unlock (m : RWMutex) : option RWMutex :=
  if writer m then Some (mkRWMutex false (readers m)) else None.

Definition RUnlock (m : RWMutex) : option RWMutex :=
  match readers m with
  | O => None
  | S k => Some (mkRWMutex (writer m) k)
  end.

Section Txns.

(** [*client.Txn], with the bytes of [txn.ID()]. *)
Variable Txn : Type.
Variable ID : Txn → string.

(** [FakeLock]. *)
Record FakeLock := mkFakeLock {
  exclusive : option Txn;
  shared : gmap string Txn;
  key : string;
  txn : option Txn;
  mu : RWMutex;
  isExclusive : bool
}.

(** [FakeLockManager]: the map [locks] from keys to pointers, and the
    [FakeLock] values the pointers allocated so far point to. A pointer is a
    position in [heap]. *)
Record FakeLockManager := mkFakeLockManager {
  locks : gmap string nat;
  heap : list FakeLock
}.

(** [NewFakeLockManager]. *)
Definition NewFakeLockManager : FakeLockManager := mkFakeLockManager ∅ [].

(** [upsertLock]: the lock stored under the key, or a new one, which is not
    put into the map; its [txn] and [key] are set. *)
Definition upsertLock (t : Txn) (k : string) (fm : FakeLockManager)
  : FakeLockManager * nat :=
  match locks fm !! k with
  | Some storedLock =>
      (mkFakeLockManager (locks fm)
         (alter (λ l, mkFakeLock (exclusive l) (shared l) k (Some t) (mu l) (isExclusive l))
                storedLock (heap fm)),
       storedLock)
  | None =>
      (mkFakeLockManager (locks fm)
         (heap fm ++ [mkFakeLock None ∅ k (Some t) (mkRWMutex false 0) false]),
       length (heap fm))
  end.

(** How a call that may wait ends: it returns a lease, it waits for the
    mutex, or it panics. *)
Inductive acquired :=
| Lease (storedLock : nat)
| Waits
| Panics.

(** [AcquireExclusive]. *)
Definition AcquireExclusive (t : Txn) (k : string) (fm : FakeLockManager)
  : FakeLockManager * acquired :=
  let r := upsertLock t k fm in
  match heap r.1 !! r.2 with
  | None => (r.1, Panics)
  | Some l =>
      match Lock (mu l) with
      | None => (r.1, Waits)
      | Some m =>
          (mkFakeLockManager (locks r.1)
             (<[r.2 := mkFakeLock (Some t) (shared l) (key l) (txn l) m true]> (heap r.1)),
           Lease r.2)
      end
  end.

(** [AcquireShared]. *)
Definition AcquireShared (t : Txn) (k : string) (fm : FakeLockManager)
  : FakeLockManager * acquired :=
  let r := upsertLock t k fm in
  match heap r.1 !! r.2 with
  | None => (r.1, Panics)
  | Some l =>
      match RLock (mu l) with
      | None => (r.1, Waits)
      | Some m =>
          (mkFakeLockManager (locks r.1)
             (<[r.2 := mkFakeLock (exclusive l) (<[ID t := t]> (shared l)) (key l) (txn l) m
                         (isExclusive l)]> (heap r.1)),
           Lease r.2)
      end
  end.

(** The loop over [lock.shared] of [unlockFinalized]; [finalized] tells
    which transactions are finalized when it runs. *)
Fixpoint unlockShared (finalized : Txn → bool) (entries : list (string * Txn)) (l : FakeLock)
  : option FakeLock :=
  match entries with
  | [] => Some l
  | (id, t) :: rest =>
      if finalized t then
        match RUnlock (mu l) with
        | None => None
        | Some m =>
            unlockShared finalized rest
              (mkFakeLock (exclusive l) (delete id (shared l)) (key l) (txn l) m
                          (isExclusive l))
        end
      else unlockShared finalized rest l
  end.

(** The body of the loop over [fm.locks]. *)
Definition unlockOne (finalized : Txn → bool) (l : FakeLock) : option FakeLock :=
  let afterExclusive :=
    match exclusive l with
    | Some t =>
        if finalized t then
          match Unlock (mu l) with
          | None => None
          | Some m =>
              Some (mkFakeLock (exclusive l) (shared l) (key l) (txn l) m (isExclusive l))
          end
        else Some l
    | None => Some l
    end in
  match afterExclusive with
  | None => None
  | Some l1 => unlockShared finalized (map_to_list (shared l1)) l1
  end.

(** [unlockFinalized]; [None] is a fatal error of a mutex or a nil
    pointer. *)
Fixpoint unlockEach (finalized : Txn → bool) (entries : list (string * nat))
    (h : list FakeLock) : option (list FakeLock) :=
  match entries with
  | [] => Some h
  | (_, lock) :: rest =>
      match h !! lock with
      | None => None
      | Some l =>
          match unlockOne finalized l with
          | None => None
          | Some l' => unlockEach finalized rest (<[lock := l']> h)
          end
      end
  end.

Definition unlockFinalized (finalized : Txn → bool) (fm : FakeLockManager)
  : option FakeLockManager :=
  match unlockEach finalized (map_to_list (locks fm)) (heap fm) with
  | None => None
  | Some h => Some (mkFakeLockManager (locks fm) h)
  end.

(** How [TryAcquireExclusive] ends: it returns its two results, it never
    returns because [group.Wait] waits for a task that waits, or it
    panics. *)
Inductive tried :=
| Returned (lock : option nat) (err : option error)
| Hangs
| TryPanics.

(** [TryAcquireExclusive]. The second task of the group returns an error
    whatever the first does, so [group.Wait], which waits for both and gives
    the first error, gives that one, and the lease the first task stored in
    [lock] is dropped by [return nil, waitErr]. *)
Definition TryAcquireExclusive (t : Txn) (k : string) (fm : FakeLockManager)
  : FakeLockManager * tried :=
  match AcquireExclusive t k fm with
  | (fm', Lease lock) => (fm', Returned None (Some (ErrorString "could not acquire lock")))
  | (fm', Waits) => (fm', Hangs)
  | (fm', Panics) => (fm', TryPanics)
  end.

(** The calls on a manager, and a sequence of them; [None] when one of them
    waits, hangs or panics. *)
Inductive call :=
| CallAcquireExclusive (t : Txn) (k : string)
| CallAcquireShared (t : Txn) (k : string)
| CallTryAcquireExclusive (t : Txn) (k : string)
| CallUnlockFinalized (finalized : Txn → bool).

Definition step (c : call) (fm : FakeLockManager) : option FakeLockManager :=
  match c with
  | CallAcquireExclusive t k =>
      match AcquireExclusive t k fm with
      | (fm', Lease _) => Some fm'
      | _ => None
      end
  | CallAcquireShared t k =>
      match AcquireShared t k fm with
      | (fm', Lease _) => Some fm'
      | _ => None
      end
  | CallTryAcquireExclusive t k =>
      match TryAcquireExclusive t k fm with
      | (fm', Returned _ _) => Some fm'
      | _ => None
      end
  | CallUnlockFinalized finalized => unlockFinalized finalized fm
  end.

Fixpoint run (cs : list call) (fm : FakeLockManager) : option FakeLockManager :=
  match cs with
  | [] => Some fm
  | c :: rest =>
      match step c fm with
      | None => None
      | Some fm' => run rest fm'
      end
  end.

End Txns.

Arguments mkFakeLock {Txn} exclusive shared key txn mu isExclusive.
Arguments exclusive {Txn} f.
Arguments shared {Txn} f.
Arguments key {Txn} f.
Arguments txn {Txn} f.
Arguments mu {Txn} f.
Arguments isExclusive {Txn} f.
Arguments mkFakeLockManager {Txn} locks heap.
Arguments locks {Txn} f.
Arguments heap {Txn} f.
Arguments CallAcquireExclusive {Txn} t k.
Arguments CallAcquireShared {Txn} t k.
Arguments CallTryAcquireExclusive {Txn} t k.
Arguments CallUnlockFinalized {Txn} finalized.

End LockManager.

(** * Theorems *)

Module IEEEFacts.
Import IEEE.

Lemma pow2_pos k : (0 < 2 ^ k)%Q.
Proof. apply Qpower_0_lt. reflexivity. Qed.

Lemma pow2_succ k : (2 ^ (k + 1) == 2 * 2 ^ k)%Q.
Proof. rewrite Qpower_plus by discriminate. simpl (2 ^ 1)%Q. ring. Qed.

Lemma pow2_pred k : (2 * 2 ^ (k - 1) == 2 ^ k)%Q.
Proof. rewrite <- pow2_succ. by replace (k - 1 + 1) with k by lia. Qed.

Lemma pow2_le a b : a ≤ b → (2 ^ a <= 2 ^ b)%Q.
Proof. intros. apply Qpower_le_compat_l; [lia|]. discriminate. Qed.

Lemma pow2_inject a : 0 ≤ a → (inject_Z (2 ^ a) == 2 ^ a)%Q.
Proof. intros. by rewrite Zpower_Qpower. Qed.

Lemma pow2_sub a b : (2 ^ (a - b) * 2 ^ b == 2 ^ a)%Q.
Proof. rewrite <- Qpower_plus by discriminate. by replace (a - b + b) with a by lia. Qed.

Lemma binade_spec x :
  (0 < x)%Q → (2 ^ binade x <= x)%Q ∧ (x < 2 ^ (binade x + 1))%Q.
Proof.
  intros Hx. unfold binade.
  destruct x as [n d]. cbn [Qnum Qden].
  assert (0 < n) as Hn by (unfold Qlt in Hx; simpl in Hx; lia).
  set (a := Z.log2 n). set (b := Z.log2 (Z.pos d)).
  assert (0 ≤ a) as Ha by apply Z.log2_nonneg.
  assert (0 ≤ b) as Hb by apply Z.log2_nonneg.
  destruct (Z.log2_spec n Hn) as [Ha1 Ha2]. fold a in Ha1, Ha2.
  destruct (Z.log2_spec (Z.pos d) eq_refl) as [Hb1 Hb2]. fold b in Hb1, Hb2.
  rewrite <- Z.add_1_r in Ha2, Hb2.
  set (k := a - b).
  assert (n # d < 2 ^ (k + 1))%Q as Hup.
  { apply (Qmult_lt_r _ _ (2 ^ b)); [apply pow2_pos|].
    replace (k + 1) with (a + 1 - b) by (unfold k; lia).
    rewrite pow2_sub, <- !pow2_inject by lia.
    unfold Qlt. simpl. rewrite Z.mul_1_r. nia. }
  assert (2 ^ (k - 1) < n # d)%Q as Hlow.
  { apply (Qmult_lt_r _ _ (2 ^ (b + 1))); [apply pow2_pos|].
    replace (k - 1) with (a - (b + 1)) by (unfold k; lia).
    rewrite pow2_sub, <- !pow2_inject by lia.
    unfold Qlt. simpl. rewrite Z.mul_1_r. nia. }
  destruct (Qle_bool (2 ^ k) (n # d)) eqn:Hk.
  - apply Qle_bool_iff in Hk. by split.
  - split.
    + by apply Qlt_le_weak.
    + replace (k - 1 + 1) with k by lia. apply Qnot_le_lt.
      intros H. apply Qle_bool_iff in H. congruence.
Qed.

Lemma nearestEven_floor y : Qfloor y ≤ nearestEven y ≤ Qfloor y + 1.
Proof.
  unfold nearestEven. destruct (y - inject_Z (Qfloor y) ?= 1 # 2)%Q; [|lia|lia].
  destruct (Z.even (Qfloor y)); lia.
Qed.

Lemma nearestEven_ge c y : (inject_Z c <= y)%Q → c ≤ nearestEven y.
Proof.
  intros H. apply Qfloor_resp_le in H. rewrite Qfloor_Z in H.
  pose proof (nearestEven_floor y). lia.
Qed.

Lemma nearestEven_le c y : (y <= inject_Z c)%Q → nearestEven y ≤ c.
Proof.
  intros H. pose proof (Qfloor_resp_le _ _ H) as Hf. rewrite Qfloor_Z in Hf.
  destruct (decide (Qfloor y = c)) as [Heq|Hne].
  - unfold nearestEven. pose proof (Qfloor_le y) as Hl. rewrite Heq in *.
    destruct (y - inject_Z c ?= 1 # 2)%Q eqn:E; [|lia|];
      rewrite <- ?Qeq_alt, <- ?Qgt_alt in E; lra.
  - pose proof (nearestEven_floor y). lia.
Qed.

Lemma nearestEven_mono y1 y2 : (y1 <= y2)%Q → nearestEven y1 ≤ nearestEven y2.
Proof.
  intros H. pose proof (Qfloor_resp_le _ _ H) as Hf.
  destruct (decide (Qfloor y1 = Qfloor y2)) as [Heq|Hne].
  - unfold nearestEven. rewrite Heq.
    destruct (y1 - inject_Z (Qfloor y2) ?= 1 # 2)%Q eqn:H1;
      destruct (y2 - inject_Z (Qfloor y2) ?= 1 # 2)%Q eqn:H2;
      try (destruct (Z.even (Qfloor y2)); lia); try lia;
      exfalso;
      first [apply Qeq_alt in H1|apply Qlt_alt in H1|apply Qgt_alt in H1];
      first [apply Qeq_alt in H2|apply Qlt_alt in H2|apply Qgt_alt in H2]; lra.
  - pose proof (nearestEven_floor y1). pose proof (nearestEven_floor y2). lia.
Qed.

Lemma scaled_bracket prec x :
  (0 < x)%Q →
  (2 ^ (prec - 1) <= x * 2 ^ (prec - 1 - binade x))%Q ∧
  (x * 2 ^ (prec - 1 - binade x) <= 2 ^ prec)%Q.
Proof.
  intros Hx. destruct (binade_spec x Hx) as [Hlo Hhi].
  pose proof (pow2_pos (prec - 1 - binade x)) as Hc.
  split.
  - rewrite <- (pow2_sub (prec - 1) (prec - 1 - binade x)).
    replace (prec - 1 - (prec - 1 - binade x)) with (binade x) by lia.
    apply Qmult_le_compat_r; [done|by apply Qlt_le_weak].
  - rewrite <- (pow2_sub prec (prec - 1 - binade x)).
    replace (prec - (prec - 1 - binade x)) with (binade x + 1) by lia.
    apply Qmult_le_compat_r; by apply Qlt_le_weak.
Qed.

Lemma roundPos_bracket prec x :
  0 < prec → (0 < x)%Q →
  (2 ^ binade x <= roundPos prec x)%Q ∧ (roundPos prec x <= 2 ^ (binade x + 1))%Q.
Proof.
  intros Hp Hx. destruct (scaled_bracket prec x Hx) as [Hlo Hhi].
  unfold roundPos. set (m := nearestEven _).
  assert (2 ^ (prec - 1) ≤ m) as Hm1.
  { apply nearestEven_ge. by rewrite pow2_inject by lia. }
  assert (m ≤ 2 ^ prec) as Hm2.
  { apply nearestEven_le. by rewrite pow2_inject by lia. }
  pose proof (pow2_pos (binade x - prec + 1)) as Hc.
  split.
  - rewrite <- (pow2_sub (binade x) (binade x - prec + 1)).
    replace (binade x - (binade x - prec + 1)) with (prec - 1) by lia.
    apply Qmult_le_compat_r; [|by apply Qlt_le_weak].
    rewrite <- pow2_inject by lia. by rewrite <- Zle_Qle.
  - rewrite <- (pow2_sub (binade x + 1) (binade x - prec + 1)).
    replace (binade x + 1 - (binade x - prec + 1)) with prec by lia.
    apply Qmult_le_compat_r; [|by apply Qlt_le_weak].
    rewrite <- pow2_inject by lia. by rewrite <- Zle_Qle.
Qed.

Lemma binade_mono x y : (0 < x)%Q → (x <= y)%Q → binade x ≤ binade y.
Proof.
  intros Hx Hxy.
  destruct (binade_spec x Hx) as [Hx1 Hx2].
  destruct (binade_spec y) as [Hy1 Hy2]; [lra|].
  destruct (decide (binade x ≤ binade y)) as [|Hgt]; [done|].
  assert (binade y + 1 ≤ binade x) as Hle by lia.
  pose proof (pow2_le (binade y + 1) (binade x) Hle). lra.
Qed.

Lemma roundPos_mono prec x y :
  0 < prec → (0 < x)%Q → (x <= y)%Q → (roundPos prec x <= roundPos prec y)%Q.
Proof.
  intros Hp Hx Hxy. assert (0 < y)%Q as Hy by lra.
  pose proof (binade_mono x y Hx Hxy) as He.
  destruct (decide (binade x = binade y)) as [Heq|Hne].
  - unfold roundPos. rewrite Heq.
    apply Qmult_le_compat_r; [|apply Qlt_le_weak, pow2_pos].
    rewrite <- Zle_Qle. apply nearestEven_mono.
    apply Qmult_le_compat_r; [done|apply Qlt_le_weak, pow2_pos].
  - destruct (roundPos_bracket prec x Hp Hx) as [_ Hx2].
    destruct (roundPos_bracket prec y Hp Hy) as [Hy1 _].
    assert (binade x + 1 ≤ binade y) as Hle by lia.
    pose proof (pow2_le (binade x + 1) (binade y) Hle). lra.
Qed.

Lemma roundPos_pos prec x : 0 < prec → (0 < x)%Q → (0 < roundPos prec x)%Q.
Proof.
  intros Hp Hx. destruct (roundPos_bracket prec x Hp Hx) as [H _].
  pose proof (pow2_pos (binade x)). lra.
Qed.

Lemma Qnum_pos x p : Qnum x = Z.pos p → (0 < x)%Q.
Proof. intros H. unfold Qlt. simpl. lia. Qed.

Lemma Qnum_neg x p : Qnum x = Z.neg p → (x < 0)%Q.
Proof. intros H. unfold Qlt. simpl. lia. Qed.

Lemma Qnum_zero x : Qnum x = 0 → (x == 0)%Q.
Proof. intros H. unfold Qeq. simpl. lia. Qed.

Lemma roundNearestEven_mono prec x y :
  0 < prec → (x <= y)%Q → (roundNearestEven prec x <= roundNearestEven prec y)%Q.
Proof.
  intros Hp Hxy. unfold roundNearestEven.
  destruct (Qnum x) as [|px|px] eqn:Ex; destruct (Qnum y) as [|py|py] eqn:Ey;
    try apply Qnum_zero in Ex; try apply Qnum_zero in Ey;
    try apply Qnum_pos in Ex; try apply Qnum_pos in Ey;
    try apply Qnum_neg in Ex; try apply Qnum_neg in Ey;
    try lra.
  - pose proof (roundPos_pos prec y Hp Ey). lra.
  - by apply roundPos_mono.
  - assert (0 < - x)%Q as Hpos by lra.
    pose proof (roundPos_pos prec (- x) Hp Hpos). lra.
  - assert (0 < - x)%Q as Hpos by lra.
    pose proof (roundPos_pos prec (- x) Hp Hpos).
    pose proof (roundPos_pos prec y Hp Ey). lra.
  - assert (0 < - y)%Q as Hpos by lra. assert (- y <= - x)%Q as Hle by lra.
    pose proof (roundPos_mono prec (- y) (- x) Hp Hpos Hle). lra.
Qed.

Lemma roundPos_one prec : 0 < prec → (roundPos prec 1 == 1)%Q.
Proof.
  intros Hp. unfold roundPos. change (binade 1) with 0.
  assert (nearestEven (1 * 2 ^ (prec - 1 - 0)) = 2 ^ (prec - 1)) as ->.
  { replace (prec - 1 - 0) with (prec - 1) by lia.
    apply Z.le_antisymm.
    - apply nearestEven_le. rewrite pow2_inject by lia. lra.
    - apply nearestEven_ge. rewrite pow2_inject by lia. lra. }
  rewrite pow2_inject by lia. rewrite <- Qpower_plus by discriminate.
  by replace (prec - 1 + (0 - prec + 1)) with 0 by lia.
Qed.

Lemma roundNearestEven_one prec : 0 < prec → (roundNearestEven prec 1 == 1)%Q.
Proof. apply roundPos_one. Qed.

Lemma roundNearestEven_minus_one prec :
  0 < prec → (roundNearestEven prec (-1) == -1)%Q.
Proof.
  intros Hp. change (roundNearestEven prec (-1)) with (- roundPos prec 1)%Q.
  by rewrite roundPos_one.
Qed.

(** Rounding to nearest, ties to even, keeps the order and keeps 1 and -1,
    at every precision. *)
Lemma roundNearestEven_faithful prec : 0 < prec → faithful (roundNearestEven prec).
Proof.
  intros Hp. split.
  - intros x y. by apply roundNearestEven_mono.
  - by apply roundNearestEven_one.
  - by apply roundNearestEven_minus_one.
Qed.

Lemma round32_faithful : faithful round32.
Proof. by apply roundNearestEven_faithful. Qed.

Lemma round64_faithful : faithful round64.
Proof. by apply roundNearestEven_faithful. Qed.

(** 1/3 and 1/10 as [float32] and [float64], and a tie between two
    [float32] numbers. *)
Example rounding_examples :
  round32 (1 # 3) = (11184811 # 33554432)%Q
  ∧ (round64 (1 # 10) == 3602879701896397 # 36028797018963968)%Q
  ∧ round32 16777217 = 16777216%Q
  ∧ round32 16777219 = 16777220%Q.
Proof. repeat split. Qed.

Section Faithful.
Variable round : Q → Q.
Hypothesis round_faithful : faithful round.

Lemma round_int_ge_1 n : 1 ≤ n → (1 <= round (inject_Z n))%Q.
Proof using round_faithful.
  intros Hn. destruct round_faithful as [Hmono Hone _].
  rewrite <- Hone. apply Hmono. change 1%Q with (inject_Z 1). by rewrite <- Zle_Qle.
Qed.

Lemma round_int_nonzero n : n ≠ 0 → ¬ (round (inject_Z n) == 0)%Q.
Proof using round_faithful.
  intros Hn Hz.
  destruct (decide (1 ≤ n)) as [Hpos|Hneg].
  - pose proof (round_int_ge_1 n Hpos) as H. rewrite Hz in H. by compute in H.
  - destruct round_faithful as [Hmono _ Hmone].
    assert (round (inject_Z n) <= -1)%Q as H.
    { rewrite <- Hmone. apply Hmono. change (-1)%Q with (inject_Z (-1)).
      rewrite <- Zle_Qle. lia. }
    rewrite Hz in H. by compute in H.
Qed.

Lemma round_ratio_ge_1 n m :
  0 < m → m ≤ n → (1 <= round (round (inject_Z n) / round (inject_Z m)))%Q.
Proof using round_faithful.
  intros Hm Hmn.
  assert (1 <= round (inject_Z m))%Q as H1 by (apply round_int_ge_1; lia).
  assert (round (inject_Z m) <= round (inject_Z n))%Q as H2.
  { destruct round_faithful as [Hmono _ _]. apply Hmono. by rewrite <- Zle_Qle. }
  destruct round_faithful as [Hmono Hone _].
  rewrite <- Hone at 1. apply Hmono.
  apply Qle_shift_div_l; [|by rewrite Qmult_1_l].
  eapply Qlt_le_trans; [|exact H1]. reflexivity.
Qed.

End Faithful.

End IEEEFacts.

Module ProgressFacts.
Import Progress.

Lemma load_Some a i v : load a i = Some v → 0 ≤ i < Z.of_nat (length a).
Proof. unfold load. case_decide; [done|discriminate]. Qed.

Lemma load_in_range a i : 0 ≤ i < Z.of_nat (length a) → is_Some (load a i).
Proof.
  intros H. unfold load. rewrite decide_True by done.
  apply lookup_lt_is_Some. lia.
Qed.

Lemma store_length a i v a' : store a i v = Some a' → length a' = length a.
Proof.
  unfold store. case_decide; [|discriminate].
  intros [= <-]. apply length_insert.
Qed.

Lemma load_store a i v a' j :
  store a i v = Some a' → load a' j = if decide (j = i) then Some v else load a j.
Proof.
  unfold store. case_decide as Hi; [|discriminate]. intros [= <-].
  unfold load. rewrite length_insert.
  destruct (decide (j = i)) as [->|Hne].
  - rewrite decide_True by done. apply list_lookup_insert_eq. lia.
  - case_decide; [|done]. apply list_lookup_insert_ne. lia.
Qed.

Lemma storeEach_length w vals fl fl' :
  storeEach w vals fl = Some fl' → length fl' = length fl.
Proof.
  revert fl. induction vals as [|i rest IH]; simpl; intros fl.
  - by intros [= <-].
  - destruct (load w i) as [v|]; [|discriminate].
    destruct (store fl i v) as [fl1|] eqn:Hst; [|discriminate].
    intros H. rewrite (IH _ H). eapply store_length; eauto.
Qed.

(** Each slot of the result of the hook's loop holds what it held before or
    the current [writtenRow] of that slot. *)
Lemma storeEach_slot w vals fl fl' j :
  storeEach w vals fl = Some fl' → load fl' j = load fl j ∨ load fl' j = load w j.
Proof.
  revert fl. induction vals as [|i rest IH]; simpl; intros fl.
  - intros [= <-]. by left.
  - destruct (load w i) as [v|] eqn:Hw; [|discriminate].
    destruct (store fl i v) as [fl1|] eqn:Hst; [|discriminate].
    intros H. destruct (IH _ H) as [IH'|IH']; [|by right].
    rewrite IH', (load_store _ _ _ _ j Hst).
    case_decide; subst; auto.
Qed.

(** The slots the loop writes are exactly those whose index occurs as an
    element of [vals]. *)
Lemma storeEach_untouched w vals fl fl' j :
  storeEach w vals fl = Some fl' → j ∉ vals → load fl' j = load fl j.
Proof.
  revert fl. induction vals as [|i rest IH]; simpl; intros fl.
  - by intros [= <-].
  - destruct (load w i) as [v|] eqn:Hw; [|discriminate].
    destruct (store fl i v) as [fl1|] eqn:Hst; [|discriminate].
    intros H Hj. apply not_elem_of_cons in Hj as [Hne Hj].
    rewrite (IH _ H Hj), (load_store _ _ _ _ j Hst).
    by rewrite decide_False.
Qed.

Lemma storeEach_panics w vals fl i :
  i ∈ vals → ¬ (0 ≤ i < Z.of_nat (length w)) → storeEach w vals fl = None.
Proof.
  revert fl. induction vals as [|k rest IH]; simpl; intros fl Hin Hr.
  - by apply elem_of_nil in Hin.
  - apply elem_of_cons in Hin as [<-|Hin].
    + unfold load. by rewrite decide_False.
    + destruct (load w k); [|done]. destruct (store fl k z); [|done]. by apply IH.
Qed.

(** C1 (the code at an input it can receive). Two input files, each with one
    batch recorded with [LastRow = 1], so [writtenRow = [1; 1]]: the PK hook
    stores only into slot 1 of [pkFlushedRow] and [idxFlushedRow] and leaves
    slot 0 at 0, where copying every slot would give [[1; 1]]; with one file
    and [writtenRow = [7]] the hook indexes slot 7 of a one-element slice and
    panics. The secondary hook behaves the same way. *)
Theorem flush_hook_indexes_by_value :
  pkOnFlush true (mkArrays [1; 1] [0; 0] [0; 0] [0; 0])
    = Some (mkArrays [1; 1] [0; 0] [0; 1] [0; 1])
  ∧ idxOnFlush (mkArrays [1; 1] [0; 0] [0; 0] [0; 0])
    = Some (mkArrays [1; 1] [0; 0] [0; 0] [0; 1])
  ∧ copyEachSlot [1; 1] [0; 0] = [1; 1]
  ∧ pkOnFlush true (mkArrays [7] [0] [0] [0]) = None
  ∧ idxOnFlush (mkArrays [7] [0] [0] [0]) = None.
Proof. repeat split; reflexivity. Qed.

Lemma init_sized n : sized n (init n).
Proof. unfold sized, init; simpl. by rewrite !length_replicate. Qed.

Lemma load_replicate n j x : load (replicate n 0) j = Some x → x = 0.
Proof.
  unfold load. case_decide as Hr; [|discriminate].
  intros H. by apply lookup_replicate in H as [-> _].
Qed.

Lemma init_inv n : inv (init n).
Proof.
  split; intros j x y Hx Hy; simpl in *;
    apply load_replicate in Hx; apply load_replicate in Hy; lia.
Qed.

Lemma storeEach_bounded w vals fl fl' :
  storeEach w vals fl = Some fl' → bounded fl w → bounded fl' w.
Proof.
  intros H Hb j x y Hx Hy.
  destruct (storeEach_slot _ _ _ _ j H) as [E|E]; rewrite E in Hx.
  - eauto.
  - rewrite Hy in Hx. injection Hx as ->. lia.
Qed.

Lemma bounded_store fl w i v w' :
  store w i v = Some w' → bounded fl w →
  (∀ y, load w i = Some y → y ≤ v) → bounded fl w'.
Proof.
  intros Hst Hb Hup j x y Hx Hy.
  rewrite (load_store _ _ _ _ j Hst) in Hy.
  case_decide as Hj.
  - subst j. injection Hy as <-.
    assert (is_Some (load w i)) as [y0 Hy0].
    { apply load_in_range. unfold store in Hst. by case_decide. }
    specialize (Hb _ _ _ Hx Hy0). specialize (Hup _ Hy0). lia.
  - eauto.
Qed.

Section TasksFacts.
Variable Float32bits : IEEE.float → Z.
Variable Float32frombits : Z → IEEE.float.
Variable offsets : gmap Z Z.

Local Abbreviation step := (step Float32bits offsets).
Local Abbreviation run := (run Float32bits offsets).
Local Abbreviation watermarksAscend := (watermarksAscend Float32bits offsets).
Local Abbreviation report := (report Float32frombits offsets).
Local Abbreviation reportFile := (reportFile Float32frombits).
Local Abbreviation reportList := (reportList Float32frombits).

Lemma step_sized n ev s s' : step ev s = Some s' → sized n s → sized n s'.
Proof.
  unfold sized. destruct ev as [src lr pr|e|]; simpl.
  - unfold recordBatch.
    destruct (store (writtenRow s) _ lr) as [w|] eqn:Hw; [|discriminate].
    destruct (store (writtenFraction s) _ _) as [f|] eqn:Hf; [|discriminate].
    intros [= <-]; simpl. apply store_length in Hw, Hf. intros (?&?&?&?); repeat split; congruence.
  - unfold pkOnFlush.
    destruct (storeEach _ _ (pkFlushedRow s)) as [pk|] eqn:Hpk; [|discriminate].
    apply storeEach_length in Hpk. destruct e.
    + destruct (storeEach _ _ (idxFlushedRow s)) as [idx|] eqn:Hidx; [|discriminate].
      apply storeEach_length in Hidx. intros [= <-]; simpl. intros (?&?&?&?); repeat split; congruence.
    + intros [= <-]; simpl. intros (?&?&?&?); repeat split; congruence.
  - unfold idxOnFlush.
    destruct (storeEach _ _ (idxFlushedRow s)) as [idx|] eqn:Hidx; [|discriminate].
    apply storeEach_length in Hidx. intros [= <-]; simpl. intros (?&?&?&?); repeat split; congruence.
Qed.

Lemma run_sized n evs s s' : run evs s = Some s' → sized n s → sized n s'.
Proof.
  revert s. induction evs as [|ev rest IH]; simpl; intros s.
  - by intros [= <-].
  - destruct (step ev s) as [s1|] eqn:Hst; [|discriminate].
    intros H Hs. eapply IH; eauto using step_sized.
Qed.

Lemma run_inv evs s s' :
  run evs s = Some s' → watermarksAscend evs s = true → inv s → inv s'.
Proof.
  revert s. induction evs as [|ev rest IH]; simpl; intros s.
  - by intros [= <-].
  - destruct (step ev s) as [s1|] eqn:Hst; [|discriminate].
    intros H Hasc Hi. apply andb_true_iff in Hasc as [Hev Hasc].
    apply (IH _ H Hasc). clear IH H Hasc.
    destruct Hi as [Hpk Hidx]. destruct ev as [src lr pr|e|]; simpl in Hst.
    + unfold recordBatch in Hst.
      destruct (store (writtenRow s) _ lr) as [w|] eqn:Hw; [|discriminate].
      destruct (store (writtenFraction s) _ _) as [f|]; [|discriminate].
      injection Hst as <-.
      assert (∀ y, load (writtenRow s) (default 0 (offsets !! src)) = Some y → y ≤ lr)
        as Hup.
      { intros y Hy. rewrite Hy in Hev. by apply bool_decide_eq_true in Hev. }
      split; simpl; eapply bounded_store; eauto.
    + unfold pkOnFlush in Hst.
      destruct (storeEach _ _ (pkFlushedRow s)) as [pk|] eqn:Epk; [|discriminate].
      destruct e.
      * destruct (storeEach _ _ (idxFlushedRow s)) as [idx|] eqn:Eidx; [|discriminate].
        injection Hst as <-. split; simpl; eauto using storeEach_bounded.
      * injection Hst as <-. split; simpl; eauto using storeEach_bounded.
    + unfold idxOnFlush in Hst.
      destruct (storeEach _ _ (idxFlushedRow s)) as [idx|] eqn:Eidx; [|discriminate].
      injection Hst as <-. split; simpl; eauto using storeEach_bounded.
Qed.

Lemma completedRow_min pk idx : completedRow pk idx = Z.min pk idx.
Proof. unfold completedRow. case_decide; lia. Qed.

Lemma reportList_total n s l :
  sized n s → (∀ fo, fo ∈ l → 0 ≤ fo.2 < Z.of_nat n) → is_Some (reportList s l).
Proof.
  intros (Hw & Hf & Hpk & Hidx) Hr. induction l as [|[f o] rest IH]; simpl.
  - by eexists.
  - destruct IH as [prog ->].
    { intros fo Hfo. apply Hr. by right. }
    assert (0 ≤ o < Z.of_nat n) as Ho by (apply (Hr (f, o)); left).
    unfold Progress.reportFile; simpl.
    destruct (load_in_range (pkFlushedRow s) o) as [? ->]; [by rewrite Hpk|].
    destruct (load_in_range (idxFlushedRow s) o) as [? ->]; [by rewrite Hidx|].
    destruct (load_in_range (writtenFraction s) o) as [? ->]; [by rewrite Hf|].
    by eexists.
Qed.

Lemma reportList_lookup s l prog file offset :
  NoDup l.*1 → reportList s l = Some prog → (file, offset) ∈ l →
  ∃ pk idx bits,
    load (pkFlushedRow s) offset = Some pk ∧
    load (idxFlushedRow s) offset = Some idx ∧
    load (writtenFraction s) offset = Some bits ∧
    CompletedRow prog !! file = Some (completedRow pk idx) ∧
    CompletedFraction prog !! file = Some (Float32frombits bits).
Proof.
  revert prog. induction l as [|[f o] rest IH]; simpl; intros prog Hnd Hrep Hin.
  - by apply elem_of_nil in Hin.
  - apply NoDup_cons in Hnd as [Hf Hnd].
    destruct (reportList s rest) as [p|] eqn:Hrest; [|discriminate].
    unfold Progress.reportFile in Hrep; simpl in Hrep.
    destruct (load (pkFlushedRow s) o) as [pk|] eqn:Hpk; [|discriminate].
    destruct (load (idxFlushedRow s) o) as [idx|] eqn:Hidx; [|discriminate].
    destruct (load (writtenFraction s) o) as [bits|] eqn:Hbits; [|discriminate].
    injection Hrep as <-. simpl.
    apply elem_of_cons in Hin as [[= -> ->]|Hin].
    + exists pk, idx, bits. by rewrite !lookup_insert_eq.
    + assert (f ≠ file) as Hne.
      { intros ->. apply Hf. apply list_elem_of_fmap. by exists (file, offset). }
      rewrite !lookup_insert_ne by done. by apply IH.
Qed.

End TasksFacts.

Lemma mkOffsets_foldl (ids : list Z) (m : gmap Z Z) (k file offset : Z) :
  (foldl (λ acc i, (<[i := acc.2]> acc.1, acc.2 + 1)) (m, k) ids).1 !! file = Some offset →
  m !! file = Some offset ∨ k ≤ offset < k + Z.of_nat (length ids).
Proof.
  revert m k. induction ids as [|i rest IH]; simpl; intros m k H.
  - by left.
  - apply IH in H as [H|H]; [|right; lia].
    destruct (decide (i = file)) as [->|Hne].
    + rewrite lookup_insert_eq in H. injection H as <-. right; lia.
    + rewrite lookup_insert_ne in H by done. by left.
Qed.

Lemma mkOffsets_range ids file offset :
  mkOffsets ids !! file = Some offset → 0 ≤ offset < Z.of_nat (length ids).
Proof.
  intros H. apply mkOffsets_foldl in H as [H|H]; [|lia].
  by rewrite lookup_empty in H.
Qed.




End ProgressFacts.

Module IngestFacts.
Import Ingest.

Lemma clean_nil : clean [].
Proof. intros c Hc. by apply elem_of_nil in Hc. Qed.

Lemma clean_app cs1 cs2 : clean (cs1 ++ cs2) ↔ clean cs1 ∧ clean cs2.
Proof.
  unfold clean. split.
  - intros H. split; intros c Hc; apply H, elem_of_app; auto.
  - intros [H1 H2] c Hc. apply elem_of_app in Hc as [Hc|Hc]; auto.
Qed.

Lemma clean_singleton c : clean [c] ↔ returned c = None.
Proof.
  unfold clean. split.
  - intros H. apply H. by left.
  - intros H c' Hc'. apply list_elem_of_singleton in Hc'. by subst.
Qed.

Section AddersFacts.
Variable adder : Type.
Variable Add : adder → string → string → adder * option error.
Variable Flush : adder → adder * option error.
Variable Close : adder → adder.
Variable BulkOpSummary : Type.
Variable GetSummary : adder → BulkOpSummary.
Variable summaryAdd : BulkOpSummary → BulkOpSummary → BulkOpSummary.
Variable DecodeTableIDIndexID : string → result (string * Z * Z).
Variable Float32bits : IEEE.float → Z.
Variable offsets : gmap Z Z.

Local Abbreviation callAdd := (callAdd adder Add).
Local Abbreviation callFlush := (callFlush adder Flush).
Local Abbreviation callClose := (callClose adder Close).
Local Abbreviation ingestKV := (ingestKV adder Add DecodeTableIDIndexID).
Local Abbreviation ingestKVs := (ingestKVs adder Add DecodeTableIDIndexID).
Local Abbreviation ingestBatches :=
  (ingestBatches adder Add DecodeTableIDIndexID Float32bits offsets).
Local Abbreviation flushBoth := (flushBoth adder Flush BulkOpSummary GetSummary summaryAdd).
Local Abbreviation ingestKvs :=
  (ingestKvs adder Add Flush Close BulkOpSummary GetSummary summaryAdd
     DecodeTableIDIndexID Float32bits offsets).
Local Abbreviation route := (route DecodeTableIDIndexID).

Lemma calls_setAdder w a c (st : state adder) :
  calls (setAdder adder w a c st) = calls st ++ [c].
Proof. by destruct w. Qed.

Lemma callAdd_calls w kv st st' r :
  callAdd w kv st = (st', r) → calls st' = calls st ++ [mkCall w (OpAdd kv) r].
Proof. unfold Ingest.callAdd. intros [= <- <-]. apply calls_setAdder. Qed.

Lemma callFlush_calls w st st' r :
  callFlush w st = (st', r) → calls st' = calls st ++ [mkCall w OpFlush r].
Proof. unfold Ingest.callFlush. intros [= <- <-]. apply calls_setAdder. Qed.

Lemma callClose_calls w st :
  calls (callClose w st) = calls st ++ [mkCall w OpClose None].
Proof. apply calls_setAdder. Qed.

(** What one iteration of the inner loop adds to the log, and what it
    returns. *)
Lemma ingestKV_calls kv st st' r :
  ingestKV kv st = (st', r) →
  (route kv = None ∧ st' = st ∧ is_Some r) ∨
  (∃ w e, route kv = Some w ∧
          calls st' = calls st ++ [mkCall w (OpAdd kv) e] ∧
          r = reported w <$> e).
Proof.
  unfold Ingest.ingestKV, Ingest.route.
  destruct (DecodeTableIDIndexID (Key kv)) as [[[rest tid] iid]|indexErr].
  - intros H. right. case_decide.
    + destruct (callAdd PK kv st) as [st1 [err|]] eqn:Hadd;
        apply callAdd_calls in Hadd; exists PK.
      * exists (Some err). unfold reported; simpl.
        destruct (isDuplicateKeyError err); by injection H as <- <-.
      * exists None. by injection H as <- <-.
    + destruct (callAdd IDX kv st) as [st1 [err|]] eqn:Hadd;
        apply callAdd_calls in Hadd; exists IDX.
      * exists (Some err). unfold reported; simpl.
        destruct (isDuplicateKeyError err); by injection H as <- <-.
      * exists None. by injection H as <- <-.
  - intros [= <- <-]. left. eauto.
Qed.

Local Abbreviation served := (served DecodeTableIDIndexID).

Lemma accounted_cons c cs r :
  returned c = None → accounted cs r → accounted (c :: cs) r.
Proof.
  intros Hc [Hcl|(cs0 & c' & e & -> & Hcl & Hr & ->)].
  - left. change (c :: cs) with ([c] ++ cs). apply clean_app.
    split; [by apply clean_singleton|done].
  - right. exists (c :: cs0), c', e. repeat split; try done.
    change (c :: cs0) with ([c] ++ cs0). apply clean_app.
    split; [by apply clean_singleton|done].
Qed.

Lemma ingestKVs_calls kvs st st' r :
  ingestKVs kvs st = (st', r) →
  ∃ done cs, calls st' = calls st ++ cs ∧ done `prefix_of` kvs ∧
             (r = None → done = kvs) ∧ served done cs ∧ accounted cs r.
Proof.
  revert st. induction kvs as [|kv rest IH]; simpl; intros st.
  - intros [= <- <-]. exists [], []. rewrite app_nil_r.
    repeat split; try done; [constructor|left; apply clean_nil].
  - destruct (ingestKV kv st) as [st1 r1] eqn:Hkv.
    apply ingestKV_calls in Hkv as [(Hroute & -> & [e ->])|(w & e & Hroute & Hcalls & ->)].
    + intros [= <- <-]. exists [], []. rewrite app_nil_r.
      repeat split; try done; [apply prefix_nil|constructor|left; apply clean_nil].
    + destruct e as [e|]; simpl.
      * intros [= <- <-]. exists [kv], [mkCall w (OpAdd kv) (Some e)].
        repeat split; try done.
        -- apply prefix_cons, prefix_nil.
        -- by repeat constructor.
        -- right. exists [], (mkCall w (OpAdd kv) (Some e)), e.
           repeat split; try done. apply clean_nil.
      * intros H. apply IH in H as (done & cs & Hc & Hpre & Hall & Hserved & Hacc).
        exists (kv :: done), (mkCall w (OpAdd kv) None :: cs).
        rewrite Hc, Hcalls, <- app_assoc. repeat split; try done.
        -- by apply prefix_cons.
        -- intros ->. by rewrite Hall.
        -- by constructor.
        -- by apply accounted_cons.
Qed.

Lemma accounted_None cs : accounted cs None → clean cs.
Proof. by intros [H|(? & ? & ? & _ & _ & _ & [=])]. Qed.

Lemma accounted_app cs1 cs2 r :
  clean cs1 → accounted cs2 r → accounted (cs1 ++ cs2) r.
Proof.
  intros H1 [Hcl|(cs0 & c & e & -> & Hcl & Hr & ->)].
  - left. by apply clean_app.
  - right. exists (cs1 ++ cs0), c, e. rewrite app_assoc.
    repeat split; try done. by apply clean_app.
Qed.

Lemma ingestBatches_calls batches st st' x :
  ingestBatches batches st = (st', x) →
  ∃ done cs, calls st' = calls st ++ cs ∧
             done `prefix_of` concat (KVs <$> batches) ∧
             (x = Completes → done = concat (KVs <$> batches)) ∧
             served done cs ∧ accounted cs (exitError x).
Proof.
  revert st. induction batches as [|b rest IH]; simpl; intros st.
  - intros [= <- <-]. exists [], []. rewrite app_nil_r.
    repeat split; try done; [constructor|left; apply clean_nil].
  - destruct (ingestKVs (KVs b) st) as [st1 r1] eqn:Hkvs.
    apply ingestKVs_calls in Hkvs as (done1 & cs1 & Hc1 & Hpre1 & Hall1 & Hs1 & Ha1).
    destruct r1 as [err|].
    + intros [= <- <-]. exists done1, cs1. repeat split; try done.
      by apply prefix_app_r.
    + specialize (Hall1 eq_refl) as ->. apply accounted_None in Ha1.
      destruct (Progress.recordBatch _ _ _ _ _ _) as [a|].
      * intros H. apply IH in H as (done2 & cs2 & Hc2 & Hpre2 & Hall2 & Hs2 & Ha2).
        simpl in Hc2. exists (KVs b ++ done2), (cs1 ++ cs2).
        rewrite Hc2, Hc1, <- app_assoc. repeat split; try done.
        -- by apply prefix_app.
        -- intros Hx. by rewrite (Hall2 Hx).
        -- by apply Forall2_app.
        -- by apply accounted_app.
      * intros [= <- <-]. exists (KVs b), cs1. repeat split; try done.
        -- by apply prefix_app_r.
        -- by left.
Qed.

Lemma settled_wrap {S} pre cs post (out : outcome S) :
  clean pre → clean post → settled cs out → settled (pre ++ cs ++ post) out.
Proof.
  intros Hpre Hpost [Hcl|(p & c & e & q & -> & Hp & Hq & Hr & ->)].
  - left. by rewrite !clean_app.
  - right. exists (pre ++ p), c, e, (q ++ post).
    rewrite <- !app_assoc. simpl. rewrite !clean_app. by repeat split.
Qed.

Lemma flushBoth_calls st st' out :
  flushBoth st = (st', out) →
  ∃ cs, calls st' = calls st ++ cs ∧ adds cs = [] ∧ settled cs out.
Proof.
  unfold Ingest.flushBoth.
  destruct (callFlush PK st) as [st1 r1] eqn:H1. apply callFlush_calls in H1.
  destruct r1 as [e1|].
  - intros H. exists [mkCall PK OpFlush (Some e1)]. repeat split; try done.
    { by destruct (isDuplicateKeyError e1); injection H as <- _. }
    right. exists [], (mkCall PK OpFlush (Some e1)), e1, [].
    repeat split; try done; try apply clean_nil.
    unfold reported; simpl. by destruct (isDuplicateKeyError e1); injection H as _ <-.
  - destruct (callFlush IDX st1) as [st2 r2] eqn:H2. apply callFlush_calls in H2.
    destruct r2 as [e2|].
    + intros H. exists [mkCall PK OpFlush None; mkCall IDX OpFlush (Some e2)].
      repeat split; try done.
      { destruct (isDuplicateKeyError e2); injection H as <- _;
          by rewrite H2, H1, <- app_assoc. }
      right. exists [mkCall PK OpFlush None], (mkCall IDX OpFlush (Some e2)), e2, [].
      repeat split; try done; try apply clean_nil.
      * by apply clean_singleton.
      * unfold reported; simpl. by destruct (isDuplicateKeyError e2); injection H as _ <-.
    + intros [= <- <-]. exists [mkCall PK OpFlush None; mkCall IDX OpFlush None].
      repeat split; try done.
      { by rewrite H2, H1, <- app_assoc. }
      left. intros c Hc. by repeat (apply elem_of_cons in Hc as [->|Hc]; [done|]);
        apply elem_of_nil in Hc.
Qed.

Lemma flushBoth_returns st st' out : flushBoth st = (st', out) → out ≠ Panics.
Proof.
  unfold Ingest.flushBoth.
  destruct (callFlush PK st) as [st1 [e1|]].
  { by destruct (isDuplicateKeyError e1); intros [= _ <-]. }
  destruct (callFlush IDX st1) as [st2 [e2|]].
  { by destruct (isDuplicateKeyError e2); intros [= _ <-]. }
  by intros [= _ <-].
Qed.

Lemma closes_clean : clean [mkCall IDX OpClose None; mkCall PK OpClose None].
Proof.
  intros c Hc. by repeat (apply elem_of_cons in Hc as [->|Hc]; [done|]);
    apply elem_of_nil in Hc.
Qed.

(** The whole log of [ingestKvs]: the [Add] calls of the ingest task, one per
    KV of a prefix of the input, then the flushes and the closes. *)
Lemma ingestKvs_calls batches st st' out :
  ingestKvs batches st = (st', out) →
  ∃ done cs tail,
    calls st' = calls st ++ cs ++ tail ∧
    done `prefix_of` concat (KVs <$> batches) ∧
    served done cs ∧ adds tail = [] ∧ settled (cs ++ tail) out ∧
    (∀ summary, out = Returns (Some summary) None → done = concat (KVs <$> batches)).
Proof.
  unfold Ingest.ingestKvs.
  destruct (ingestBatches batches st) as [st1 x] eqn:Hb.
  apply ingestBatches_calls in Hb as (done & cs & Hc & Hpre & Hall & Hs & Ha).
  destruct x as [|err|]; simpl in Ha.
  - destruct (flushBoth st1) as [st2 out2] eqn:Hf.
    apply flushBoth_calls in Hf as (csf & Hcf & Hadds & Hset).
    simpl. intros [= <- <-].
    exists done, cs, (csf ++ [mkCall IDX OpClose None; mkCall PK OpClose None]).
    simpl. rewrite Hcf, Hc, <- !app_assoc. simpl.
    repeat split; try done.
    + unfold adds in *. by rewrite omap_app, Hadds.
    + apply (settled_wrap cs csf _ out2); auto using accounted_None, closes_clean.
    + intros _ _. by apply Hall.
  - intros [= <- <-].
    exists done, cs, [mkCall IDX OpClose None; mkCall PK OpClose None].
    simpl. rewrite Hc, <- !app_assoc. simpl.
    repeat split; try done.
    destruct Ha as [Hcl|(cs0 & c & e & -> & Hcl & Hr & [= ->])].
    + left. apply clean_app. auto using closes_clean.
    + right. exists cs0, c, e, [mkCall IDX OpClose None; mkCall PK OpClose None].
      rewrite <- app_assoc. repeat split; auto using closes_clean.
  - intros [= <- <-]. exists done, cs, []. rewrite !app_nil_r.
    repeat split; try done. left. by apply accounted_None.
Qed.

Lemma adds_nil_no_add cs c kv : adds cs = [] → c ∈ cs → what c ≠ OpAdd kv.
Proof.
  intros Hnil Hc Hw.
  assert ((callee c, kv) ∈ adds cs) as Hin.
  { apply list_elem_of_omap. exists c. by rewrite Hw. }
  rewrite Hnil in Hin. by apply elem_of_nil in Hin.
Qed.

Lemma adds_cons_add c cs kv :
  what c = OpAdd kv → adds (c :: cs) = (callee c, kv) :: adds cs.
Proof. intros H. unfold adds. simpl. by rewrite H. Qed.

Lemma served_adds done cs : served done cs → (adds cs).*2 = done.
Proof.
  induction 1 as [|kv c done cs [Hw Hr] _ IH]; [done|].
  rewrite (adds_cons_add _ _ _ Hw). rewrite fmap_cons. simpl. by f_equal.
Qed.

Lemma adds_app cs1 cs2 : adds (cs1 ++ cs2) = adds cs1 ++ adds cs2.
Proof. apply omap_app. Qed.

(** C3. Starting from an empty call log, whatever the adders answer and
    however [ingestKvs] ends: every [Add] call it made handed a KV whose key
    decodes, to the PK adder when the decoded index ID is 1 and to the
    secondary adder otherwise; the KVs handed to [Add], in order, are a
    prefix of the KVs of the batches, and all of them when a summary is
    returned. *)
Theorem kv_routed_by_index_id batches (st : state adder) :
  calls st = [] →
  (∀ w kv r, mkCall w (OpAdd kv) r ∈ calls (ingestKvs batches st).1 →
     ∃ rest tableID indexID,
       DecodeTableIDIndexID (Key kv) = Ok (rest, tableID, indexID) ∧
       (indexID = 1 → w = PK) ∧ (indexID ≠ 1 → w = IDX)) ∧
  (adds (calls (ingestKvs batches st).1)).*2 `prefix_of` concat (KVs <$> batches) ∧
  (∀ summary, (ingestKvs batches st).2 = Returns (Some summary) None →
     (adds (calls (ingestKvs batches st).1)).*2 = concat (KVs <$> batches)).
Proof.
  intros Hst. destruct (ingestKvs batches st) as [st' out] eqn:Hrun.
  apply ingestKvs_calls in Hrun as (done & cs & tail & Hc & Hpre & Hs & Hadds & _ & Hall).
  rewrite Hst in Hc. simpl in *.
  assert ((adds (calls st')).*2 = done) as Hdone.
  { rewrite Hc, adds_app, Hadds, app_nil_r. by apply served_adds. }
  split; [|split].
  - intros w kv r Hin. rewrite Hc in Hin. apply elem_of_app in Hin as [Hin|Hin].
    + apply list_elem_of_lookup_1 in Hin as [i Hi].
      destruct (Forall2_lookup_r _ _ _ _ _ Hs Hi) as (kv' & _ & Hw & Hr).
      simpl in *. injection Hw as <-. unfold Ingest.route in Hr.
      destruct (DecodeTableIDIndexID (Key kv)) as [[[rest tid] iid]|]; [|done].
      exists rest, tid, iid. split; [done|].
      case_decide; injection Hr as <-; by split.
    + by destruct (adds_nil_no_add _ _ kv Hadds Hin).
  - by rewrite Hdone.
  - intros summary Hout. rewrite Hdone. by eapply Hall.
Qed.

(** C4. Starting from an empty call log: if some [Add] or [Flush] call of
    [ingestKvs] on adder [w] returned the error [e], then [ingestKvs] returns
    no summary and the error [e] wrapped with "duplicate key in primary
    index" when [e] is a [DuplicateKeyError] and [w] the PK adder, wrapped
    with "duplicate key in index" when [e] is a [DuplicateKeyError] and [w]
    the secondary adder, and [e] itself when [e] is any other error. *)
Theorem adder_error_reported batches (st : state adder) w o e :
  calls st = [] →
  mkCall w o (Some e) ∈ calls (ingestKvs batches st).1 →
  (isDuplicateKeyError e = true → w = PK →
     (ingestKvs batches st).2
       = Returns None (Some (Wrapped e "duplicate key in primary index"))) ∧
  (isDuplicateKeyError e = true → w = IDX →
     (ingestKvs batches st).2
       = Returns None (Some (Wrapped e "duplicate key in index"))) ∧
  (isDuplicateKeyError e = false →
     (ingestKvs batches st).2 = Returns None (Some e)).
Proof.
  intros Hst. destruct (ingestKvs batches st) as [st' out] eqn:Hrun.
  apply ingestKvs_calls in Hrun as (done & cs & tail & Hc & _ & _ & _ & Hset & _).
  rewrite Hst in Hc. simpl in *. rewrite Hc. intros Hin.
  assert (out = Returns None (Some (reported w e))) as ->.
  { destruct Hset as [Hcl|(pre & c & e' & post & Heq & Hpre & Hpost & Hr & ->)].
    - by specialize (Hcl _ Hin).
    - rewrite Heq in Hin. apply elem_of_app in Hin as [Hin|Hin].
      { by specialize (Hpre _ Hin). }
      apply elem_of_cons in Hin as [<-|Hin].
      + simpl in Hr. by injection Hr as <-.
      + by specialize (Hpost _ Hin). }
  unfold reported. repeat split.
  - by intros -> ->.
  - by intros -> ->.
  - by intros ->.
Qed.

End AddersFacts.

Lemma kv_routed_by_index_id_witness :
  (∀ w kv r,
     mkCall w (OpAdd kv) r
       ∈ calls (Toy.ingestKvs [mkBatch 0 2 (IEEE.Finite 1) [mkKV "1a" "x"; mkKV "2a" "y"]] Toy.fresh).1 →
     ∃ rest tableID indexID,
       Toy.DecodeTableIDIndexID (Key kv) = Ok (rest, tableID, indexID) ∧
       (indexID = 1 → w = PK) ∧ (indexID ≠ 1 → w = IDX)) ∧
  (adds (calls (Toy.ingestKvs [mkBatch 0 2 (IEEE.Finite 1) [mkKV "1a" "x"; mkKV "2a" "y"]] Toy.fresh).1)).*2
    `prefix_of` concat (KVs <$> [mkBatch 0 2 (IEEE.Finite 1) [mkKV "1a" "x"; mkKV "2a" "y"]]) ∧
  (∀ summary,
     (Toy.ingestKvs [mkBatch 0 2 (IEEE.Finite 1) [mkKV "1a" "x"; mkKV "2a" "y"]] Toy.fresh).2
       = Returns (Some summary) None →
     (adds (calls (Toy.ingestKvs [mkBatch 0 2 (IEEE.Finite 1) [mkKV "1a" "x"; mkKV "2a" "y"]] Toy.fresh).1)).*2
       = concat (KVs <$> [mkBatch 0 2 (IEEE.Finite 1) [mkKV "1a" "x"; mkKV "2a" "y"]])).
Proof.
  apply (kv_routed_by_index_id (list string) Toy.Add Toy.Flush Toy.Close nat
           Toy.GetSummary Nat.add Toy.DecodeTableIDIndexID Toy.Float32bits
           (Progress.mkOffsets [0])
           [mkBatch 0 2 (IEEE.Finite 1) [mkKV "1a" "x"; mkKV "2a" "y"]] Toy.fresh).
  reflexivity.
Defined.

Lemma adder_error_reported_witness :
  (isDuplicateKeyError (DuplicateKeyError "1a" "y") = true → PK = PK →
     (Toy.ingestKvs [mkBatch 0 2 (IEEE.Finite 1) [mkKV "1a" "x"; mkKV "1a" "y"]] Toy.fresh).2
       = Returns None (Some (Wrapped (DuplicateKeyError "1a" "y")
                               "duplicate key in primary index"))) ∧
  (isDuplicateKeyError (DuplicateKeyError "1a" "y") = true → PK = IDX →
     (Toy.ingestKvs [mkBatch 0 2 (IEEE.Finite 1) [mkKV "1a" "x"; mkKV "1a" "y"]] Toy.fresh).2
       = Returns None (Some (Wrapped (DuplicateKeyError "1a" "y")
                               "duplicate key in index"))) ∧
  (isDuplicateKeyError (DuplicateKeyError "1a" "y") = false →
     (Toy.ingestKvs [mkBatch 0 2 (IEEE.Finite 1) [mkKV "1a" "x"; mkKV "1a" "y"]] Toy.fresh).2
       = Returns None (Some (DuplicateKeyError "1a" "y"))).
Proof.
  apply (adder_error_reported (list string) Toy.Add Toy.Flush Toy.Close nat
           Toy.GetSummary Nat.add Toy.DecodeTableIDIndexID Toy.Float32bits
           (Progress.mkOffsets [0])
           [mkBatch 0 2 (IEEE.Finite 1) [mkKV "1a" "x"; mkKV "1a" "y"]] Toy.fresh
           PK (OpAdd (mkKV "1a" "y")) (DuplicateKeyError "1a" "y")).
  - reflexivity.
  - vm_compute. right. left.
Defined.

End IngestFacts.

Module EmitFacts.
Import Emit.

Section SamplerFacts.
Variable rand : Type.
Variable Float64 : rand → Q * rand.
Variable receiver : Type.
Variable Push : receiver → list string → receiver * ConsumerStatus.
Variable IsDescriptorKey : string → bool.

Local Abbreviation sample := (sample rand Float64).
Local Abbreviation push := (push rand receiver Push).
Local Abbreviation emitKV := (emitKV rand Float64 receiver Push IsDescriptorKey).
Local Abbreviation emitKVs := (emitKVs rand Float64 receiver Push IsDescriptorKey).
Local Abbreviation emitBatches := (emitBatches rand Float64 receiver Push IsDescriptorKey).
Local Abbreviation emitKvs := (emitKvs rand Float64 receiver Push IsDescriptorKey).
Local Abbreviation round64 := IEEE.round64.

Lemma push_pushed row fn' (st st' : state rand receiver) x :
  push row fn' st = (st', x) → pushed st' = pushed st ++ [row] ∧ x ≠ Panic.
Proof.
  unfold Emit.push. intros [= <- <-]. split; [done|].
  by destruct (Push (output st) row).2.
Qed.

(** One KV: a KV inside a completed span changes nothing; any other KV adds
    at most one row, which carries its key. *)
Lemma emitKV_pushed sampleAll spans kv (st st' : state rand receiver) x :
  emitKV sampleAll spans kv st = (st', x) →
  (Contains spans (Key kv) = true ∧ st' = st ∧ x = Completes) ∨
  (outside spans kv ∧
   (pushed st' = pushed st ∨ ∃ row, rowOf kv row ∧ pushed st' = pushed st ++ [row])).
Proof.
  unfold Emit.emitKV, outside.
  destruct (Contains spans (Key kv)); [intros [= <- <-]; by left|].
  intros H. right. split; [done|].
  destruct (sampleAll || IsDescriptorKey (Key kv)).
  - apply push_pushed in H as [H _]. right. exists [Key kv; RawBytes kv].
    split; [by left|done].
  - destruct (fn st) as [s|]; [|injection H as <- <-; by left].
    destruct (sample s kv).1.
    + apply push_pushed in H as [H _]. right. exists [Key kv; ""].
      split; [by right|done].
    + injection H as <- <-. by left.
Qed.

Lemma emitKVs_pushed sampleAll spans kvs (st st' : state rand receiver) x :
  emitKVs sampleAll spans kvs st = (st', x) →
  ∃ kept rows, pushed st' = pushed st ++ rows ∧
               kept `sublist_of` filter (outside spans) kvs ∧
               Forall2 rowOf kept rows.
Proof.
  revert st. induction kvs as [|kv rest IH]; simpl; intros st.
  - intros [= <- <-]. exists [], []. by rewrite app_nil_r.
  - destruct (emitKV sampleAll spans kv st) as [st1 x1] eqn:Hkv. intros H.
    assert (∃ kept rows, pushed st1 = pushed st ++ rows ∧
                         kept `sublist_of` filter (outside spans) [kv] ∧
                         Forall2 rowOf kept rows) as (k1 & r1 & Hp1 & Hs1 & Hf1).
    { apply emitKV_pushed in Hkv as [(Hin & -> & ->)|(Hout & [Hp|(row & Hrow & Hp)])].
      - exists [], []. rewrite app_nil_r.
        split; [done|]. split; [apply sublist_nil_l|constructor].
      - exists [], []. rewrite app_nil_r.
        split; [done|]. split; [apply sublist_nil_l|constructor].
      - exists [kv], [row]. split; [done|].
        split; [|constructor; [done|constructor]].
        by rewrite filter_cons_True by done. }
    assert (∃ kept rows, pushed st' = pushed st1 ++ rows ∧
                         kept `sublist_of` filter (outside spans) rest ∧
                         Forall2 rowOf kept rows) as (k2 & r2 & Hp2 & Hs2 & Hf2).
    { destruct x1; [by apply IH| |];
        injection H as <- <-; exists [], []; rewrite app_nil_r;
        (split; [done|]; split; [apply sublist_nil_l|constructor]). }
    exists (k1 ++ k2), (r1 ++ r2). rewrite Hp2, Hp1, <- app_assoc.
    split; [done|]. split; [|by apply Forall2_app].
    change (kv :: rest) with ([kv] ++ rest). rewrite filter_app. by apply sublist_app.
Qed.

Lemma emitBatches_pushed sampleAll spans batches (st st' : state rand receiver) x :
  emitBatches sampleAll spans batches st = (st', x) →
  ∃ kept rows, pushed st' = pushed st ++ rows ∧
               kept `sublist_of` filter (outside spans) (concat (KVs <$> batches)) ∧
               Forall2 rowOf kept rows.
Proof.
  revert st. induction batches as [|b rest IH]; simpl; intros st.
  - intros [= <- <-]. exists [], []. by rewrite app_nil_r.
  - destruct (emitKVs sampleAll spans (KVs b) st) as [st1 x1] eqn:Hb. intros H.
    apply emitKVs_pushed in Hb as (k1 & r1 & Hp1 & Hs1 & Hf1).
    assert (∃ kept rows, pushed st' = pushed st1 ++ rows ∧
                         kept `sublist_of` filter (outside spans) (concat (KVs <$> rest)) ∧
                         Forall2 rowOf kept rows) as (k2 & r2 & Hp2 & Hs2 & Hf2).
    { destruct x1; [by apply IH| |];
        injection H as <- <-; exists [], []; rewrite app_nil_r;
        (split; [done|]; split; [apply sublist_nil_l|constructor]). }
    exists (k1 ++ k2), (r1 ++ r2). rewrite Hp2, Hp1, <- app_assoc.
    split; [done|]. split; [|by apply Forall2_app].
    rewrite filter_app. by apply sublist_app.
Qed.

(** C6. Whatever the sample size, the generator, the job's progress, the
    sink's answers and the way [emitKvs] ends: the rows pushed to the sink
    are, in order, rows of KVs taken from those KVs of the channel whose key
    lies outside every completed span of the job's progress; so every pushed
    row carries the key of a KV outside the completed spans, and a KV inside
    one has no row. *)
Theorem completed_span_keys_not_forwarded SampleSize seed job batches out :
  (∃ kept,
     kept `sublist_of`
       filter (outside (completedSpansOf job)) (concat (KVs <$> batches)) ∧
     Forall2 rowOf kept (pushed (emitKvs SampleSize seed job batches out).1)) ∧
  (∀ row, row ∈ pushed (emitKvs SampleSize seed job batches out).1 →
     ∃ kv, kv ∈ concat (KVs <$> batches) ∧ rowOf kv row ∧
           Contains (completedSpansOf job) (Key kv) = false).
Proof.
  assert (∃ kept,
     kept `sublist_of`
       filter (outside (completedSpansOf job)) (concat (KVs <$> batches)) ∧
     Forall2 rowOf kept (pushed (emitKvs SampleSize seed job batches out).1))
    as (kept & Hsub & Hrows).
  { unfold Emit.emitKvs. destruct job as [[spans|]|err]; simpl.
    - destruct (emitBatches _ _ _ _) as [st' x] eqn:Hrun.
      apply emitBatches_pushed in Hrun as (kept & rows & Hp & Hs & Hf).
      simpl in *. subst. by exists kept.
    - exists []. split; [apply sublist_nil_l|constructor].
    - exists []. split; [apply sublist_nil_l|constructor]. }
  split; [by exists kept|].
  intros row Hrow. apply list_elem_of_lookup_1 in Hrow as [i Hi].
  destruct (Forall2_lookup_r _ _ _ _ _ Hrows Hi) as (kv & Hkv & Hr).
  exists kv. apply list_elem_of_lookup_2 in Hkv.
  assert (kv ∈ filter (outside (completedSpansOf job)) (concat (KVs <$> batches))) as Hin.
  { eapply elem_of_sublist; eauto. }
  apply list_elem_of_filter in Hin as [Hout Hin]. by repeat split.
Qed.

Lemma emitKV_all kv (st : state rand receiver) :
  emitKV true [] kv st = push (fullRow kv) (fn st) st.
Proof. reflexivity. Qed.

Lemma emitKVs_all kvs (st st' : state rand receiver) x :
  emitKVs true [] kvs st = (st', x) →
  ∃ done, done `prefix_of` kvs ∧
          pushed st' = pushed st ++ (fullRow <$> done) ∧
          (x = Completes → done = kvs) ∧ x ≠ Panic.
Proof.
  revert st. induction kvs as [|kv rest IH]; intros st.
  - intros [= <- <-]. exists []. by rewrite app_nil_r.
  - cbn [Emit.emitKVs]. rewrite emitKV_all.
    destruct (push (fullRow kv) (fn st) st) as [st1 x1] eqn:Hpush.
    apply push_pushed in Hpush as [Hp Hx]. intros H.
    destruct x1 as [|err|]; [| |done].
    + apply IH in H as (done & Hpre & Hp2 & Hall & Hx2).
      exists (kv :: done). rewrite Hp2, Hp, <- app_assoc.
      repeat split; try done; [by apply prefix_cons|].
      intros Hc. by rewrite (Hall Hc).
    + injection H as <- <-. exists [kv].
      repeat split; try done. apply prefix_cons, prefix_nil.
Qed.

Lemma emitBatches_all batches (st st' : state rand receiver) x :
  emitBatches true [] batches st = (st', x) →
  ∃ done, done `prefix_of` concat (KVs <$> batches) ∧
          pushed st' = pushed st ++ (fullRow <$> done) ∧
          (x = Completes → done = concat (KVs <$> batches)) ∧ x ≠ Panic.
Proof.
  revert st. induction batches as [|b rest IH]; simpl; intros st.
  - intros [= <- <-]. exists []. by rewrite app_nil_r.
  - destruct (emitKVs true [] (KVs b) st) as [st1 x1] eqn:Hb. intros H.
    apply emitKVs_all in Hb as (d1 & Hpre1 & Hp1 & Hall1 & Hx1).
    destruct x1 as [|err|]; [| |done].
    + rewrite (Hall1 eq_refl) in *.
      apply IH in H as (d2 & Hpre2 & Hp2 & Hall2 & Hx2).
      exists (KVs b ++ d2). rewrite Hp2, Hp1, fmap_app, <- app_assoc.
      repeat split; try done; [by apply prefix_app|].
      intros Hc. by rewrite (Hall2 Hc).
    + injection H as <- <-. exists d1.
      repeat split; try done. by apply prefix_app_r.
Qed.

Lemma sample_fst (s : sampleRate rand) kv SampleSize :
  0 < SampleSize → sampleSize s = IEEE.ofInt round64 SampleSize →
  (sample s kv).1
  = negb (Qle_bool (round64 (round64 (inject_Z (size kv)) / round64 (inject_Z SampleSize)))
                   (Float64 (rnd s)).1).
Proof.
  intros Hpos Hs. unfold Emit.sample. rewrite Hs. simpl.
  assert (1 <= round64 (inject_Z SampleSize))%Q as H1
    by (apply IEEEFacts.round_int_ge_1; [apply IEEEFacts.round64_faithful|lia]).
  destruct (Qeq_bool (round64 (inject_Z SampleSize)) 0) eqn:Hz; [|done].
  apply Qeq_bool_iff in Hz. rewrite Hz in H1. by compute in H1.
Qed.

(** C7. For [SampleSize > 0] and draws in [0, 1): [sample] accepts a KV
    exactly when the draw is below the [float64] quotient of the KV's size
    [len(key) + len(value)] by [SampleSize]; a KV whose size is at least
    [SampleSize] is accepted whatever the draw, and the sampler pushes a row
    for it whenever its key lies outside the completed spans. *)
Theorem sample_by_size_ratio (s : sampleRate rand) kv SampleSize :
  (∀ r, 0 <= (Float64 r).1 < 1)%Q →
  0 < SampleSize →
  sampleSize s = IEEE.ofInt round64 SampleSize →
  ((sample s kv).1 = true ↔
   ((Float64 (rnd s)).1
      < round64 (round64 (inject_Z (size kv)) / round64 (inject_Z SampleSize)))%Q) ∧
  (SampleSize ≤ size kv → (sample s kv).1 = true) ∧
  (SampleSize ≤ size kv →
   ∀ sampleAll spans (st : state rand receiver),
     fn st = Some s → outside spans kv →
     ∃ row, rowOf kv row ∧
            pushed (emitKV sampleAll spans kv st).1 = pushed st ++ [row]).
Proof.
  intros Hdraw Hpos Hs.
  assert ((sample s kv).1 = true ↔
          ((Float64 (rnd s)).1
             < round64 (round64 (inject_Z (size kv)) / round64 (inject_Z SampleSize)))%Q)
    as Hiff.
  { rewrite (sample_fst s kv SampleSize Hpos Hs), negb_true_iff.
    rewrite <- not_true_iff_false, Qle_bool_iff. split.
    - apply Qnot_le_lt.
    - apply Qlt_not_le. }
  assert (SampleSize ≤ size kv → (sample s kv).1 = true) as Hbig.
  { intros Hsz. apply Hiff.
    eapply Qlt_le_trans; [apply Hdraw|].
    apply IEEEFacts.round_ratio_ge_1; [apply IEEEFacts.round64_faithful|lia|done]. }
  split; [done|]. split; [done|].
  intros Hsz sampleAll spans st Hfn Hout.
  unfold Emit.emitKV. rewrite Hout.
  destruct (sampleAll || IsDescriptorKey (Key kv)).
  - exists [Key kv; RawBytes kv]. split; [by left|done].
  - rewrite Hfn, (Hbig Hsz). exists [Key kv; ""]. split; [by right|done].
Qed.

(** C8 (as amended). With [SampleSize = 0] and no completed span, [emitKvs]
    does not panic and pushes, in channel order, the row (key, value) of each
    KV of a prefix of the channel's KVs; when it returns nil that prefix is
    the whole, so the rows delivered upstream are exactly the KVs the
    converter emitted, counted with multiplicity. *)
Theorem sample_all_forwards_every_kv seed batches out :
  (∃ done,
     done `prefix_of` concat (KVs <$> batches) ∧
     pushed (emitKvs 0 seed (Ok (Progress_Import [])) batches out).1 = fullRow <$> done) ∧
  (emitKvs 0 seed (Ok (Progress_Import [])) batches out).2 ≠ Panic ∧
  ((emitKvs 0 seed (Ok (Progress_Import [])) batches out).2 = Completes →
   pushed (emitKvs 0 seed (Ok (Progress_Import [])) batches out).1
     = fullRow <$> concat (KVs <$> batches)).
Proof.
  unfold Emit.emitKvs. simpl.
  destruct (emitBatches true [] batches _) as [st' x] eqn:Hrun.
  apply emitBatches_all in Hrun as (done & Hpre & Hp & Hall & Hx). simpl in *.
  split; [by exists done|]. split; [done|].
  intros Hc. by rewrite Hp, (Hall Hc).
Qed.

End SamplerFacts.

Lemma sample_by_size_ratio_witness :
  ((sample positive Toy.Float64
      (mkSampleRate 1%positive (IEEE.ofInt IEEE.round64 4)) (mkKV "ab" "cdef")).1 = true ↔
   ((Toy.Float64 (rnd (mkSampleRate 1%positive (IEEE.ofInt IEEE.round64 4)))).1
      < IEEE.round64 (IEEE.round64 (inject_Z (size (mkKV "ab" "cdef")))
                      / IEEE.round64 (inject_Z 4)))%Q) ∧
  (4 ≤ size (mkKV "ab" "cdef") →
   (sample positive Toy.Float64
      (mkSampleRate 1%positive (IEEE.ofInt IEEE.round64 4)) (mkKV "ab" "cdef")).1 = true) ∧
  (4 ≤ size (mkKV "ab" "cdef") →
   ∀ sampleAll spans (st : state positive nat),
     fn st = Some (mkSampleRate 1%positive (IEEE.ofInt IEEE.round64 4)) →
     outside spans (mkKV "ab" "cdef") →
     ∃ row, rowOf (mkKV "ab" "cdef") row ∧
            pushed (emitKV positive Toy.Float64 nat Toy.Push Toy.IsDescriptorKey
                      sampleAll spans (mkKV "ab" "cdef") st).1 = pushed st ++ [row]).
Proof.
  apply (sample_by_size_ratio positive Toy.Float64 nat Toy.Push Toy.IsDescriptorKey
           (mkSampleRate 1%positive (IEEE.ofInt IEEE.round64 4))
           (mkKV "ab" "cdef") 4).
  - intros r. unfold Toy.Float64, Qle, Qlt. simpl. lia.
  - lia.
  - reflexivity.
Defined.

(** A run of the sampler with [SampleSize = 4], one completed span and draws
    1/2, 1/3, 1/4, 1/5: the KV of size 2 is dropped on the draw 1/2, the KV
    of size 3 is kept on 1/3, the KV of size 6 is kept, the KV inside the
    span is skipped without a draw, the last KV of size 2 is kept on 1/5;
    every row carries the key and an empty value. *)
Example emitKvs_sampling_run :
  (sample positive Toy.Float64
     (mkSampleRate 1%positive (IEEE.ofInt IEEE.round64 4)) (mkKV "a" "b")).1 = false
  ∧ (sample positive Toy.Float64
       (mkSampleRate 2%positive (IEEE.ofInt IEEE.round64 4)) (mkKV "a" "b")).1 = true
  ∧ pushed (Toy.emitKvs 4 (Ok (Progress_Import [mkSpan "k5" "k7"]))
              [mkBatch 0 5 (IEEE.Finite 1)
                 [mkKV "k1" ""; mkKV "k2" "v"; mkKV "k3" "vvvv"; mkKV "k6" "vvvvvvvvv";
                  mkKV "k8" ""]] 10).1
    = [["k2"; ""]; ["k3"; ""]; ["k8"; ""]].
Proof. repeat split; vm_compute; reflexivity. Qed.

Lemma sample_all_forwards_every_kv_witness :
  (∃ done,
     done `prefix_of` concat (KVs <$> [mkBatch 0 2 (IEEE.Finite 1)
                                         [mkKV "1a" "x"; mkKV "2a" "y"]]) ∧
     pushed (Toy.emitKvs 0 (Ok (Progress_Import []))
               [mkBatch 0 2 (IEEE.Finite 1) [mkKV "1a" "x"; mkKV "2a" "y"]] 5).1
       = fullRow <$> done) ∧
  (Toy.emitKvs 0 (Ok (Progress_Import []))
     [mkBatch 0 2 (IEEE.Finite 1) [mkKV "1a" "x"; mkKV "2a" "y"]] 5).2 ≠ Panic ∧
  ((Toy.emitKvs 0 (Ok (Progress_Import []))
      [mkBatch 0 2 (IEEE.Finite 1) [mkKV "1a" "x"; mkKV "2a" "y"]] 5).2 = Completes →
   pushed (Toy.emitKvs 0 (Ok (Progress_Import []))
             [mkBatch 0 2 (IEEE.Finite 1) [mkKV "1a" "x"; mkKV "2a" "y"]] 5).1
     = fullRow <$> concat (KVs <$> [mkBatch 0 2 (IEEE.Finite 1)
                                      [mkKV "1a" "x"; mkKV "2a" "y"]])).
Proof.
  apply (sample_all_forwards_every_kv positive Toy.Float64 nat Toy.Push
           Toy.IsDescriptorKey 1%positive
           [mkBatch 0 2 (IEEE.Finite 1) [mkKV "1a" "x"; mkKV "2a" "y"]] 5%nat).
Defined.

(** C8 (the claim as stated fails). [SampleSize = 0], no completed span, two
    KVs on the channel and a sink that answers [ConsumerClosed] to the first
    push: [emitKvs] returns "unexpected closure of consumer" after one push,
    and the second KV is never forwarded. *)
Lemma sample_all_stops_when_consumer_closes :
  Toy.emitKvs 0 (Ok (Progress_Import []))
    [mkBatch 0 2 (IEEE.Finite 1) [mkKV "1a" "x"; mkKV "2a" "y"]] 0
  = (mkState O [["1a"; "x"]] None, Fails (ErrorString "unexpected closure of consumer"))
  ∧ (fullRow (mkKV "2a" "y") ∉ [["1a"; "x"]])
  ∧ ¬ ([["1a"; "x"]] ≡ₚ (fullRow <$> [mkKV "1a" "x"; mkKV "2a" "y"])).
Proof.
  split; [reflexivity|]. split.
  - intros H. apply list_elem_of_singleton in H. discriminate.
  - intros H. apply Permutation_length in H. discriminate.
Qed.

End EmitFacts.

Module ReaderFacts.
Import Reader.

(** C10. [ReadFraction] returns exactly 0 when the recorded total is 0; it
    returns the [float32] quotient of the bytes read by the total, whose
    divisor is not zero, when the total is positive; and for every
    [fileReader] its result is a finite number, so the division never has a
    zero divisor. *)
Theorem ReadFraction_total (f : fileReader) :
  (total f = 0 → ReadFraction f = IEEE.Finite 0) ∧
  (0 < total f →
   ReadFraction f
     = IEEE.Finite (IEEE.round32 (IEEE.round32 (inject_Z (counter_n f))
                             / IEEE.round32 (inject_Z (total f)))%Q) ∧
   ¬ (IEEE.round32 (inject_Z (total f)) == 0)%Q) ∧
  IEEE.isFinite (ReadFraction f) = true.
Proof.
  pose proof IEEEFacts.round32_faithful as Hr. unfold ReadFraction.
  assert (total f ≠ 0 →
          IEEE.div IEEE.round32 (IEEE.ofInt IEEE.round32 (counter_n f)) (IEEE.ofInt IEEE.round32 (total f))
          = IEEE.Finite (IEEE.round32 (IEEE.round32 (inject_Z (counter_n f))
                                  / IEEE.round32 (inject_Z (total f)))%Q)) as Hdiv.
  { intros Hne. simpl.
    destruct (Qeq_bool (IEEE.round32 (inject_Z (total f))) 0) eqn:Hz; [|done].
    apply Qeq_bool_iff in Hz.
    by destruct (IEEEFacts.round_int_nonzero IEEE.round32 Hr (total f)). }
  split; [|split].
  - intros ->. by rewrite decide_True.
  - intros Hpos. rewrite decide_False by lia. split.
    + apply Hdiv. lia.
    + apply IEEEFacts.round_int_nonzero; [done|lia].
  - case_decide; [done|]. by rewrite Hdiv.
Qed.

Lemma ReadFraction_total_witness :
  (total (mkFileReader "" 4 1) = 0 →
   ReadFraction (mkFileReader "" 4 1) = IEEE.Finite 0) ∧
  (0 < total (mkFileReader "" 4 1) →
   ReadFraction (mkFileReader "" 4 1)
     = IEEE.Finite (IEEE.round32 (IEEE.round32 (inject_Z (counter_n (mkFileReader "" 4 1)))
                                  / IEEE.round32 (inject_Z (total (mkFileReader "" 4 1))))%Q) ∧
   ¬ (IEEE.round32 (inject_Z (total (mkFileReader "" 4 1))) == 0)%Q) ∧
  IEEE.isFinite (ReadFraction (mkFileReader "" 4 1)) = true.
Proof. apply (ReadFraction_total (mkFileReader "" 4 1)). Defined.

Section FilesFacts.
Variable urlParse : string → result URL.
Variable conf : Type.
Variable storage : Type.
Variable ExportStorageConfFromURI : string → result conf.
Variable MakeExportStorage : conf → result storage.
Variable WriteFile : storage → string → string → option error.

Local Abbreviation saveRejected :=
  (saveRejected urlParse conf storage ExportStorageConfFromURI MakeExportStorage WriteFile).

(** Whatever the collaborators do, the collecting task writes nothing when
    it received no row, and otherwise at most one blob, the concatenation of
    the rows, through the storage opened from [dataFile] itself. *)
Lemma saveRejected_writes dataFile rows w :
  (rows = [] → saveRejected dataFile rows w = (w, None)) ∧
  (writes (saveRejected dataFile rows w).1 = writes w ∨
   writes (saveRejected dataFile rows w).1
     = writes w ++ [mkWrite dataFile "" (String.concat "" rows)]).
Proof.
  unfold Reader.saveRejected. split.
  - intros ->. by rewrite bool_decide_eq_true_2.
  - destruct (bool_decide (rows = [])); [by left|].
    destruct (urlParse dataFile); [|by left].
    destruct (ExportStorageConfFromURI dataFile) as [c|]; [|by left].
    destruct (MakeExportStorage c); [by right|by left].
Qed.

End FilesFacts.

(** C2 (the code at an input it can receive). Format MySQL-outfile with
    [SaveRejected], one data file "nodelocal://1/data/t.csv" whose parser
    rejects two rows: [readInputFiles] writes the two rows, concatenated,
    through the storage opened from "nodelocal://1/data/t.csv" itself with an
    empty base name, and nothing at a URI whose path ends in ".rejected";
    with no rejected row it writes nothing. *)
Theorem rejected_rows_written_at_source_uri :
  Toy.readInputFiles ["2,y,z;"; "3;"] [(0, "nodelocal://1/data/t.csv")]
    (mkFormat IOFileFormat_MysqlOutfile IOFileFormat_Auto true) None
  = (mkWorld [mkWrite "nodelocal://1/data/t.csv" "" "2,y,z;3;"] [] 0, None)
  ∧ Toy.readInputFiles [] [(0, "nodelocal://1/data/t.csv")]
      (mkFormat IOFileFormat_MysqlOutfile IOFileFormat_Auto true) None
    = (mkWorld [] [] 0, None).
Proof. split; reflexivity. Qed.

Lemma HasSuffix_true s suffix :
  HasSuffix s suffix = true →
  (String.length suffix ≤ String.length s)%nat ∧
  String.substring (String.length s - String.length suffix) (String.length suffix) s = suffix.
Proof.
  unfold HasSuffix. intros H. apply andb_true_iff in H as [Hlen Heq].
  apply Nat.leb_le in Hlen. by apply String.eqb_eq in Heq.
Qed.

(** The last byte of a string is the last byte of each of its suffixes. *)
Lemma HasSuffix_last s suffix :
  HasSuffix s suffix = true → (0 < String.length suffix)%nat →
  String.get (String.length s - 1) s = String.get (String.length suffix - 1) suffix.
Proof.
  intros H Hpos. apply HasSuffix_true in H as [Hlen Heq].
  rewrite <- Heq at 2. rewrite substring_correct1 by lia. f_equal. lia.
Qed.

(** A name with the gzip suffix has none of the bzip suffixes. *)
Lemma HasSuffix_gz_not_bz name :
  HasSuffix name ".gz" = true →
  HasSuffix name ".bz" = false ∧ HasSuffix name ".bz2" = false.
Proof.
  intros Hgz. split.
  - destruct (HasSuffix name ".bz") eqn:Hbz; [|done].
    apply HasSuffix_true in Hgz as [_ Hgz]. apply HasSuffix_true in Hbz as [_ Hbz].
    simpl in *. congruence.
  - destruct (HasSuffix name ".bz2") eqn:Hbz2; [|done].
    apply HasSuffix_last in Hgz; [|simpl; lia].
    apply HasSuffix_last in Hbz2; [|simpl; lia].
    simpl in *. congruence.
Qed.

Section CompressionFacts.
Variable urlParse : string → result URL.

Local Abbreviation guess := (guessCompressionFromName urlParse).
Local Abbreviation guessed := (guessed urlParse).

Lemma guess_bounded n :
  pathShrinks urlParse →
  ∀ name hint, (String.length name ≤ n)%nat →
    ∃ c, guessed name hint c ∧
         ∀ fuel, (String.length name ≤ fuel)%nat → guess fuel name hint = Some c.
Proof.
  intros Hshrink. induction n as [|n IH]; intros name hint Hlen.
  - destruct (decide (hint = IOFileFormat_Auto)) as [->|Hhint].
    2:{ exists hint. split; [by constructor|]. intros [|fuel] _; simpl;
          by rewrite decide_True. }
    destruct name; [|simpl in Hlen; lia].
    destruct (urlParse "") as [parsed|err] eqn:Hp.
    + assert (Path parsed = "") as Hpath.
      { destruct (decide (Path parsed = "")) as [|Hne]; [done|].
        specialize (Hshrink _ _ Hp Hne). simpl in Hshrink. lia. }
      exists IOFileFormat_None. split.
      * apply guessed_none; try done. intros p' Hp'. congruence.
      * intros [|fuel] _; simpl; rewrite Hp; by rewrite decide_False by (by intros []).
    + exists IOFileFormat_None. split.
      * apply guessed_none; try done. intros p' Hp'. congruence.
      * intros [|fuel] _; simpl; by rewrite Hp.
  - destruct (decide (hint = IOFileFormat_Auto)) as [->|Hhint].
    2:{ exists hint. split; [by constructor|]. intros [|fuel] _; simpl;
          by rewrite decide_True. }
    destruct (HasSuffix name ".gz") eqn:Hgz.
    { exists IOFileFormat_Gzip. split; [by constructor|].
      intros [|fuel] _; simpl; by rewrite Hgz. }
    destruct (HasSuffix name ".bz2") eqn:Hbz2.
    { exists IOFileFormat_Bzip. split; [apply guessed_bz; auto|].
      intros [|fuel] _; simpl; by rewrite Hgz, Hbz2. }
    destruct (HasSuffix name ".bz") eqn:Hbz.
    { exists IOFileFormat_Bzip. split; [apply guessed_bz; auto|].
      intros [|fuel] _; simpl; by rewrite Hgz, Hbz2, Hbz. }
    destruct (urlParse name) as [parsed|err] eqn:Hp.
    + destruct (decide (Path parsed = name)) as [Hsame|Hne].
      * exists IOFileFormat_None. split.
        -- apply guessed_none; try done. intros p' Hp'. congruence.
        -- intros [|fuel] _; simpl; rewrite Hgz, Hbz2, Hbz, Hp; simpl;
             by rewrite decide_False by (by intros []).
      * pose proof (Hshrink _ _ Hp Hne) as Hlt.
        destruct (IH (Path parsed) IOFileFormat_Auto) as (c & Hc & Hfuel); [lia|].
        exists c. split; [by eapply guessed_path|].
        intros [|fuel] Hf; [lia|]. simpl. rewrite Hgz, Hbz2, Hbz, Hp. simpl.
        rewrite decide_True by done. apply Hfuel. lia.
    + exists IOFileFormat_None. split.
      * apply guessed_none; try done. intros p' Hp'. congruence.
      * intros [|fuel] _; simpl; by rewrite Hgz, Hbz2, Hbz, Hp.
Qed.

(** The rules single out one result. *)
Lemma guessed_functional name hint c c' :
  guessed name hint c → guessed name hint c' → c = c'.
Proof.
  intros H. revert c'. induction H as
    [name hint Hhint|name Hgz|name Hbz|name parsed c Hgz Hbz Hbz2 Hp Hne _ IH
    |name Hgz Hbz Hbz2 Hp]; intros c' H'; inversion H'; subst; try congruence;
    try (apply HasSuffix_gz_not_bz in Hgz as [? ?]);
    try match goal with
        | H : HasSuffix _ ".gz" = true |- _ => apply HasSuffix_gz_not_bz in H as [? ?]
        end;
    try match goal with
        | H : _ ∨ _ |- _ => destruct H; congruence
        end.
  - apply IH. congruence.
  - exfalso. eauto.
  - exfalso. eauto.
Qed.

(** C9. For a URI parser whose path, when it differs from the name, is
    shorter than the name: [guessCompressionFromName] returns, for every
    name and hint and with fuel at least the length of the name, the one
    result the rules give: the hint when it is not Auto; with hint Auto,
    gzip for a name ending in ".gz", bzip for a name ending in ".bz" or
    ".bz2", otherwise what the rules give for the path of the name parsed as
    a URI when that path differs from the name, and none by default. *)
Theorem guessCompressionFromName_follows_rules name hint :
  pathShrinks urlParse →
  ∃ c, guessed name hint c ∧
       (∀ c', guessed name hint c' → c' = c) ∧
       ∀ fuel, (String.length name ≤ fuel)%nat → guess fuel name hint = Some c.
Proof.
  intros Hshrink.
  destruct (guess_bounded (String.length name) Hshrink name hint) as (c & Hc & Hfuel);
    [done|].
  exists c. repeat split; [done| |done].
  intros c' Hc'. by apply (guessed_functional name hint).
Qed.

End CompressionFacts.

Lemma beforeQuery_length s :
  (String.length (Toy.beforeQuery s) ≤ String.length s)%nat ∧
  (Toy.beforeQuery s ≠ s → String.length (Toy.beforeQuery s) < String.length s)%nat.
Proof.
  induction s as [|c rest [IH1 IH2]]; simpl; [done|].
  destruct (Ascii.eqb c "?"); simpl.
  - split; [lia|]. intros _. lia.
  - split; [lia|]. intros Hne.
    assert (Toy.beforeQuery rest ≠ rest) as Hr by congruence.
    specialize (IH2 Hr). lia.
Qed.

Lemma toy_pathShrinks : pathShrinks Toy.urlParse.
Proof.
  intros name parsed [= <-] Hne. simpl in *. by apply beforeQuery_length.
Qed.

Lemma guessCompressionFromName_follows_rules_witness :
  ∃ c, guessed Toy.urlParse "http://host/data/t.csv.gz?sig=abc" IOFileFormat_Auto c ∧
       (∀ c', guessed Toy.urlParse "http://host/data/t.csv.gz?sig=abc" IOFileFormat_Auto c'
              → c' = c) ∧
       ∀ fuel, (String.length "http://host/data/t.csv.gz?sig=abc" ≤ fuel)%nat →
               guessCompressionFromName Toy.urlParse fuel
                 "http://host/data/t.csv.gz?sig=abc" IOFileFormat_Auto = Some c.
Proof.
  apply (guessCompressionFromName_follows_rules Toy.urlParse
           "http://host/data/t.csv.gz?sig=abc" IOFileFormat_Auto).
  exact toy_pathShrinks.
Defined.

(** The cases of the rules on names: an explicit hint wins over the suffix,
    suffixes are seen directly, and a gzip suffix hidden behind a query is
    seen through the URI's path. *)
Example guessCompressionFromName_examples :
  guessCompressionFromName Toy.urlParse 40 "t.csv" IOFileFormat_Gzip = Some IOFileFormat_Gzip
  ∧ guessCompressionFromName Toy.urlParse 40 "t.csv.gz" IOFileFormat_None
    = Some IOFileFormat_None
  ∧ guessCompressionFromName Toy.urlParse 40 "t.csv.gz" IOFileFormat_Auto
    = Some IOFileFormat_Gzip
  ∧ guessCompressionFromName Toy.urlParse 40 "t.csv.bz2" IOFileFormat_Auto
    = Some IOFileFormat_Bzip
  ∧ guessCompressionFromName Toy.urlParse 40 "t.csv.bz" IOFileFormat_Auto
    = Some IOFileFormat_Bzip
  ∧ guessCompressionFromName Toy.urlParse 40 "http://host/data/t.csv.gz?sig=abc"
      IOFileFormat_Auto = Some IOFileFormat_Gzip
  ∧ guessCompressionFromName Toy.urlParse 40 "http://host/data/t.csv?sig=abc"
      IOFileFormat_Auto = Some IOFileFormat_None.
Proof. repeat split. Qed.

End ReaderFacts.

(** * Further properties of the progress arrays *)
Module ProgressLogFacts.
Import Progress ProgressFacts ProgressLog.

Lemma mkOffsets_foldl_slots (ids : list Z) :
  NoDup ids →
  ∀ (m : gmap Z Z) (k0 : Z),
    (∀ j file, ids !! j = Some file →
       (foldl (λ acc i, (<[i := acc.2]> acc.1, acc.2 + 1)) (m, k0) ids).1 !! file
       = Some (k0 + Z.of_nat j)) ∧
    (∀ file, file ∉ ids →
       (foldl (λ acc i, (<[i := acc.2]> acc.1, acc.2 + 1)) (m, k0) ids).1 !! file
       = m !! file).
Proof.
  induction 1 as [|i rest Hi Hnd IH]; intros m k0; simpl.
  - split; [intros j file Hj; by rewrite lookup_nil in Hj|done].
  - destruct (IH (<[i:=k0]> m) (k0 + 1)) as [IH1 IH2]. split.
    + intros [|j] file Hj; simpl in Hj.
      * injection Hj as ->. rewrite (IH2 _ Hi), lookup_insert_eq. f_equal. lia.
      * rewrite (IH1 _ _ Hj). f_equal. lia.
    + intros file Hf. apply not_elem_of_cons in Hf as [Hne Hf].
      rewrite (IH2 _ Hf). by apply lookup_insert_ne.
Qed.

(** X1. The files of the spec, which are distinct map keys, get the slots
    0, 1, 2, ... in the order the iteration visits them: two files never
    share a slot, and a file that is not in the spec has no slot. *)
Theorem mkOffsets_assigns_slots (ids : list Z) :
  NoDup ids →
  (∀ j file, ids !! j = Some file → mkOffsets ids !! file = Some (Z.of_nat j)) ∧
  (∀ file, file ∉ ids → mkOffsets ids !! file = None) ∧
  (∀ file file' offset,
     mkOffsets ids !! file = Some offset → mkOffsets ids !! file' = Some offset →
     file = file').
Proof.
  intros Hnd. destruct (mkOffsets_foldl_slots ids Hnd ∅ 0) as [H1 H2].
  assert (∀ file offset, mkOffsets ids !! file = Some offset →
                         ids !! Z.to_nat offset = Some file ∧ 0 ≤ offset) as Hinv.
  { intros file offset Hf.
    destruct (decide (file ∈ ids)) as [Hin|Hout].
    - apply list_elem_of_lookup_1 in Hin as [j Hj].
      unfold mkOffsets in Hf. rewrite (H1 _ _ Hj) in Hf. injection Hf as <-.
      split; [|lia]. by rewrite Z.add_0_l, Nat2Z.id.
    - unfold mkOffsets in Hf. rewrite (H2 _ Hout), lookup_empty in Hf. done. }
  split; [|split].
  - intros j file Hj. unfold mkOffsets. by rewrite (H1 _ _ Hj).
  - intros file Hf. unfold mkOffsets. by rewrite (H2 _ Hf), lookup_empty.
  - intros file file' offset Hf Hf'.
    apply Hinv in Hf as [Hf _]. apply Hinv in Hf' as [Hf' _]. congruence.
Qed.

Lemma mkOffsets_assigns_slots_witness :
  (∀ j file, [7; 3] !! j = Some file → mkOffsets [7; 3] !! file = Some (Z.of_nat j)) ∧
  (∀ file, file ∉ [7; 3] → mkOffsets [7; 3] !! file = None) ∧
  (∀ file file' offset,
     mkOffsets [7; 3] !! file = Some offset → mkOffsets [7; 3] !! file' = Some offset →
     file = file').
Proof.
  apply (mkOffsets_assigns_slots [7; 3]).
  apply NoDup_cons. split; [|apply NoDup_singleton].
  intros H. apply list_elem_of_singleton in H. lia.
Defined.

Lemma store_Some a i v : is_Some (store a i v) ↔ 0 ≤ i < Z.of_nat (length a).
Proof. unfold store. case_decide; split; intros H'; try done; by destruct H'. Qed.

Lemma storeEach_Some n w vals fl :
  length w = n → length fl = n → is_Some (storeEach w vals fl) ↔ allInRange n vals.
Proof.
  intros Hw. revert fl. unfold allInRange.
  induction vals as [|i rest IH]; intros fl Hfl; simpl.
  - split; [constructor|by eexists].
  - rewrite Forall_cons. unfold load at 1.
    destruct (decide (0 ≤ i < Z.of_nat (length w))) as [Hi|Hi].
    + destruct (lookup_lt_is_Some_2 w (Z.to_nat i)) as [v ->]; [lia|].
      unfold store. rewrite decide_True by (rewrite Hfl, <- Hw; done).
      rewrite IH by (by rewrite length_insert). rewrite <- Hw. tauto.
    + split; [by intros []|]. intros [Hi' _]. by rewrite <- Hw in Hi'.
Qed.

Lemma storeEach_written w vals fl fl' j :
  storeEach w vals fl = Some fl' → j ∈ vals → load fl' j = load w j.
Proof.
  revert fl. induction vals as [|i rest IH]; simpl; intros fl H Hj.
  - by apply elem_of_nil in Hj.
  - destruct (load w i) as [v|] eqn:Hw; [|discriminate].
    destruct (store fl i v) as [fl1|] eqn:Hst; [|discriminate].
    destruct (decide (j ∈ rest)) as [Hr|Hr]; [by eapply IH|].
    apply elem_of_cons in Hj as [->|Hj]; [|done].
    rewrite (storeEach_untouched _ _ _ _ _ H Hr), (load_store _ _ _ _ _ Hst).
    by rewrite decide_True.
Qed.

Lemma storeEach_refreshed w fl fl' :
  storeEach w w fl = Some fl' → refreshed w fl fl'.
Proof.
  intros H j. case_decide.
  - by eapply storeEach_written.
  - by eapply storeEach_untouched.
Qed.

(** X3. What the flush hooks do as written. A hook runs to its end exactly
    when every element of [writtenRow] is a valid index, and panics
    otherwise. When it runs, it leaves [writtenRow] and [writtenFraction] as
    they are and refreshes, in the flushed rows it owns, the slots whose
    index occurs as an element of [writtenRow]; the PK hook refreshes
    [idxFlushedRow] too when the secondary adder is empty and leaves it alone
    otherwise; the secondary hook never touches [pkFlushedRow]. *)
Theorem flush_hook_effect n indexAdderIsEmpty (s : arrays) :
  sized n s →
  (is_Some (pkOnFlush indexAdderIsEmpty s) ↔ allInRange n (writtenRow s)) ∧
  (is_Some (idxOnFlush s) ↔ allInRange n (writtenRow s)) ∧
  (∀ s', pkOnFlush indexAdderIsEmpty s = Some s' →
     writtenRow s' = writtenRow s ∧ writtenFraction s' = writtenFraction s ∧
     refreshed (writtenRow s) (pkFlushedRow s) (pkFlushedRow s') ∧
     if indexAdderIsEmpty
     then refreshed (writtenRow s) (idxFlushedRow s) (idxFlushedRow s')
     else idxFlushedRow s' = idxFlushedRow s) ∧
  (∀ s', idxOnFlush s = Some s' →
     writtenRow s' = writtenRow s ∧ writtenFraction s' = writtenFraction s ∧
     pkFlushedRow s' = pkFlushedRow s ∧
     refreshed (writtenRow s) (idxFlushedRow s) (idxFlushedRow s')).
Proof.
  intros (Hw & Hf & Hpk & Hidx).
  pose proof (storeEach_Some n (writtenRow s) (writtenRow s) (pkFlushedRow s) Hw Hpk) as Spk.
  pose proof (storeEach_Some n (writtenRow s) (writtenRow s) (idxFlushedRow s) Hw Hidx)
    as Sidx.
  unfold pkOnFlush, idxOnFlush.
  destruct (storeEach _ _ (pkFlushedRow s)) as [pk|] eqn:Epk;
    destruct (storeEach _ _ (idxFlushedRow s)) as [idx|] eqn:Eidx.
  - split.
    { split; intros _; [by apply Spk|destruct indexAdderIsEmpty; by eexists]. }
    split.
    { split; intros _; [by apply Sidx|by eexists]. }
    split.
    + intros s' H. destruct indexAdderIsEmpty; injection H as <-; simpl;
        (split; [done|]; split; [done|]; split; [by apply storeEach_refreshed|]);
        [by apply storeEach_refreshed|done].
    + intros s' [= <-]. simpl. split; [done|]. split; [done|]. split; [done|].
      by apply storeEach_refreshed.
  - assert (is_Some (Some pk)) as Hs by (by eexists).
    apply Spk, Sidx in Hs. by destruct Hs.
  - assert (is_Some (Some idx)) as Hs by (by eexists).
    apply Sidx, Spk in Hs. by destruct Hs.
  - split.
    { split; [by intros []|]. intros H. apply Spk in H. by destruct H. }
    split.
    { split; [by intros []|]. intros H. apply Sidx in H. by destruct H. }
    split; intros s' H; discriminate.
Qed.

Lemma flush_hook_effect_witness :
  (is_Some (pkOnFlush true (mkArrays [1; 1] [0; 0] [0; 0] [0; 0]))
   ↔ allInRange 2 (writtenRow (mkArrays [1; 1] [0; 0] [0; 0] [0; 0]))) ∧
  (is_Some (idxOnFlush (mkArrays [1; 1] [0; 0] [0; 0] [0; 0]))
   ↔ allInRange 2 (writtenRow (mkArrays [1; 1] [0; 0] [0; 0] [0; 0]))) ∧
  (∀ s', pkOnFlush true (mkArrays [1; 1] [0; 0] [0; 0] [0; 0]) = Some s' →
     writtenRow s' = writtenRow (mkArrays [1; 1] [0; 0] [0; 0] [0; 0]) ∧
     writtenFraction s' = writtenFraction (mkArrays [1; 1] [0; 0] [0; 0] [0; 0]) ∧
     refreshed (writtenRow (mkArrays [1; 1] [0; 0] [0; 0] [0; 0]))
       (pkFlushedRow (mkArrays [1; 1] [0; 0] [0; 0] [0; 0])) (pkFlushedRow s') ∧
     if true
     then refreshed (writtenRow (mkArrays [1; 1] [0; 0] [0; 0] [0; 0]))
            (idxFlushedRow (mkArrays [1; 1] [0; 0] [0; 0] [0; 0])) (idxFlushedRow s')
     else idxFlushedRow s' = idxFlushedRow (mkArrays [1; 1] [0; 0] [0; 0] [0; 0])) ∧
  (∀ s', idxOnFlush (mkArrays [1; 1] [0; 0] [0; 0] [0; 0]) = Some s' →
     writtenRow s' = writtenRow (mkArrays [1; 1] [0; 0] [0; 0] [0; 0]) ∧
     writtenFraction s' = writtenFraction (mkArrays [1; 1] [0; 0] [0; 0] [0; 0]) ∧
     pkFlushedRow s' = pkFlushedRow (mkArrays [1; 1] [0; 0] [0; 0] [0; 0]) ∧
     refreshed (writtenRow (mkArrays [1; 1] [0; 0] [0; 0] [0; 0]))
       (idxFlushedRow (mkArrays [1; 1] [0; 0] [0; 0] [0; 0])) (idxFlushedRow s')).
Proof.
  apply (flush_hook_effect 2 true (mkArrays [1; 1] [0; 0] [0; 0] [0; 0])).
  unfold sized. simpl. done.
Defined.

Section Slots.
Variable Float32bits : IEEE.float → Z.
Variable Float32frombits : Z → IEEE.float.
Variable offsets : gmap Z Z.

Local Abbreviation recordBatch := (recordBatch Float32bits offsets).
Local Abbreviation step := (step Float32bits offsets).
Local Abbreviation run := (run Float32bits offsets).
Local Abbreviation report := (report Float32frombits offsets).
Local Abbreviation reportList := (reportList Float32frombits).
Local Abbreviation slot := (slot offsets).
Local Abbreviation recorded := (recorded offsets).
Local Abbreviation known := (known offsets).

(** X2. Recording a batch succeeds exactly when the slot of its source is
    within the arrays; a source that is not in [offsets] has slot 0, the slot
    of the first file. The batch replaces the written row and the written
    fraction of its slot, leaves every other slot as it was, and leaves the
    flushed rows untouched. *)
Theorem recordBatch_only_its_slot n source lastRow progress (s : arrays) :
  sized n s →
  (offsets !! source = None → slot source = 0) ∧
  (is_Some (recordBatch source lastRow progress s) ↔ 0 ≤ slot source < Z.of_nat n) ∧
  (∀ s', recordBatch source lastRow progress s = Some s' →
     load (writtenRow s') (slot source) = Some lastRow ∧
     load (writtenFraction s') (slot source) = Some (Float32bits progress) ∧
     (∀ j, j ≠ slot source →
        load (writtenRow s') j = load (writtenRow s) j ∧
        load (writtenFraction s') j = load (writtenFraction s) j) ∧
     pkFlushedRow s' = pkFlushedRow s ∧ idxFlushedRow s' = idxFlushedRow s).
Proof.
  intros (Hw & Hf & _ & _). unfold ProgressLog.slot. split; [by intros ->|]. split.
  - unfold Progress.recordBatch.
    pose proof (store_Some (writtenRow s) (default 0 (offsets !! source)) lastRow) as H1.
    pose proof (store_Some (writtenFraction s) (default 0 (offsets !! source))
                  (Float32bits progress)) as H2.
    rewrite Hw in H1. rewrite Hf in H2.
    destruct (store (writtenRow s) _ lastRow) as [w|].
    + destruct (store (writtenFraction s) _ _) as [f|].
      * split; [intros _; by apply H1|by eexists].
      * split; [by intros []|]. intros H. apply H2 in H. by destruct H.
    + split; [by intros []|]. intros H. apply H1 in H. by destruct H.
  - intros s'. unfold Progress.recordBatch.
    destruct (store (writtenRow s) _ lastRow) as [w|] eqn:Ew; [|discriminate].
    destruct (store (writtenFraction s) _ _) as [f|] eqn:Ef; [|discriminate].
    intros [= <-]. simpl.
    rewrite (load_store _ _ _ _ _ Ew), (load_store _ _ _ _ _ Ef), !decide_True by done.
    repeat split; try done;
      rewrite ?(load_store _ _ _ _ j Ew), ?(load_store _ _ _ _ j Ef);
      by rewrite decide_False.
Qed.

Lemma recorded_app off h1 h2 : recorded off (h1 ++ h2) = recorded off h1 ++ recorded off h2.
Proof. apply omap_app. Qed.

Lemma known_app hist evs a : known hist a → known (hist ++ evs) a.
Proof.
  intros H j x Hx. destruct (H j x Hx) as [->|Hin]; [by left|right].
  rewrite recorded_app. apply elem_of_app. by left.
Qed.

Lemma known_storeEach hist w vals fl fl' :
  storeEach w vals fl = Some fl' → known hist w → known hist fl → known hist fl'.
Proof.
  intros H Hw Hfl j x Hx.
  destruct (storeEach_slot _ _ _ _ j H) as [E|E]; rewrite E in Hx; eauto.
Qed.

Lemma known_run evs hist s s' :
  run evs s = Some s' →
  known hist (writtenRow s) → known hist (pkFlushedRow s) → known hist (idxFlushedRow s) →
  known (hist ++ evs) (writtenRow s') ∧ known (hist ++ evs) (pkFlushedRow s') ∧
  known (hist ++ evs) (idxFlushedRow s').
Proof.
  revert hist s. induction evs as [|ev rest IH]; simpl; intros hist s.
  - intros [= <-]. by rewrite app_nil_r.
  - destruct (step ev s) as [s1|] eqn:Hst; [|discriminate].
    intros Hrun Hw Hpk Hidx.
    replace (hist ++ ev :: rest) with ((hist ++ [ev]) ++ rest)
      by (by rewrite <- app_assoc).
    apply (IH _ _ Hrun); clear IH Hrun.
    + destruct ev as [src lr pr|e|]; simpl in Hst.
      * unfold Progress.recordBatch in Hst.
        destruct (store (writtenRow s) _ lr) as [w|] eqn:Ew; [|discriminate].
        destruct (store (writtenFraction s) _ _) as [f|]; [|discriminate].
        injection Hst as <-. simpl. intros j x Hx.
        rewrite (load_store _ _ _ _ j Ew) in Hx. case_decide as Hj.
        -- injection Hx as <-. right. rewrite recorded_app. apply elem_of_app. right.
           unfold ProgressLog.recorded. simpl. subst j.
           unfold ProgressLog.slot. rewrite decide_True by done. by left.
        -- exact (known_app _ _ _ Hw j x Hx).
      * unfold pkOnFlush in Hst.
        destruct (storeEach _ _ (pkFlushedRow s)); [|discriminate].
        destruct e; [destruct (storeEach _ _ (idxFlushedRow s)); [|discriminate]|];
          injection Hst as <-; by apply known_app.
      * unfold idxOnFlush in Hst.
        destruct (storeEach _ _ (idxFlushedRow s)); [|discriminate].
        injection Hst as <-. by apply known_app.
    + destruct ev as [src lr pr|e|]; simpl in Hst.
      * unfold Progress.recordBatch in Hst.
        destruct (store (writtenRow s) _ lr) as [w|]; [|discriminate].
        destruct (store (writtenFraction s) _ _) as [f|]; [|discriminate].
        injection Hst as <-. by apply known_app.
      * unfold pkOnFlush in Hst.
        destruct (storeEach _ _ (pkFlushedRow s)) as [pk|] eqn:Epk; [|discriminate].
        destruct e; [destruct (storeEach _ _ (idxFlushedRow s)); [|discriminate]|];
          injection Hst as <-; simpl; apply known_app; by eapply known_storeEach.
      * unfold idxOnFlush in Hst.
        destruct (storeEach _ _ (idxFlushedRow s)); [|discriminate].
        injection Hst as <-. by apply known_app.
    + destruct ev as [src lr pr|e|]; simpl in Hst.
      * unfold Progress.recordBatch in Hst.
        destruct (store (writtenRow s) _ lr) as [w|]; [|discriminate].
        destruct (store (writtenFraction s) _ _) as [f|]; [|discriminate].
        injection Hst as <-. by apply known_app.
      * unfold pkOnFlush in Hst.
        destruct (storeEach _ _ (pkFlushedRow s)); [|discriminate].
        destruct e; [destruct (storeEach _ _ (idxFlushedRow s)) eqn:Eidx; [|discriminate]|];
          injection Hst as <-; simpl; apply known_app; [by eapply known_storeEach|done].
      * unfold idxOnFlush in Hst.
        destruct (storeEach _ _ (idxFlushedRow s)) eqn:Eidx; [|discriminate].
        injection Hst as <-. simpl. apply known_app. by eapply known_storeEach.
Qed.

Lemma known_replicate hist n : known hist (replicate n 0).
Proof. intros j x Hx. left. by eapply load_replicate. Qed.

(** X4. The reporter never invents a row. Whatever batches and flushes
    happened since the arrays were allocated, in whatever order and with or
    without ascending watermarks, the [CompletedRow] a record carries for a
    file is 0 or the [LastRow] of a batch that was recorded in the file's
    slot. *)
Theorem completed_row_was_recorded n evs (s : arrays) prog file offset v :
  run evs (init n) = Some s →
  report s = Some prog →
  offsets !! file = Some offset →
  CompletedRow prog !! file = Some v →
  v = 0 ∨ v ∈ recorded offset evs.
Proof.
  intros Hrun Hrep Hoff Hv.
  destruct (known_run evs [] _ _ Hrun) as (_ & Kpk & Kidx);
    try apply known_replicate.
  destruct (reportList_lookup Float32frombits s _ prog file offset
              (NoDup_fst_map_to_list _) Hrep) as (pk & idx & bits & Lpk & Lidx & _ & Hr & _).
  { by apply elem_of_map_to_list. }
  rewrite Hr in Hv. injection Hv as <-. unfold completedRow. case_decide; eauto.
Qed.

Lemma reportList_keys (s : arrays) l prog file :
  reportList s l = Some prog →
  (is_Some (CompletedRow prog !! file) ↔ file ∈ l.*1) ∧
  (is_Some (CompletedFraction prog !! file) ↔ file ∈ l.*1).
Proof.
  revert prog. induction l as [|[f o] rest IH]; simpl; intros prog.
  - intros [= <-]. simpl. rewrite !lookup_empty.
    split; (split; [by intros []|intros H; by apply elem_of_nil in H]).
  - destruct (reportList s rest) as [p|] eqn:Hrest; [|discriminate].
    unfold Progress.reportFile. simpl.
    destruct (load (pkFlushedRow s) o); [|discriminate].
    destruct (load (idxFlushedRow s) o); [|discriminate].
    destruct (load (writtenFraction s) o); [|discriminate].
    intros [= <-]. simpl. destruct (IH p eq_refl) as [IH1 IH2].
    rewrite !elem_of_cons, !lookup_insert.
    case_decide as Hf.
    + subst. split; (split; [by left|by eexists]).
    + rewrite IH1, IH2. split; (split; [by right|by intros [->|?]]).
Qed.

Lemma reportList_Some n (s : arrays) l :
  sized n s → is_Some (reportList s l) ↔ Forall (λ fo, 0 ≤ fo.2 < Z.of_nat n) l.
Proof.
  intros Hs. split.
  - induction l as [|[f o] rest IH]; simpl; [constructor|].
    destruct (reportList s rest) as [p|]; [|by intros []].
    unfold Progress.reportFile. simpl.
    destruct (load (pkFlushedRow s) o) as [pk|] eqn:Epk; [|by intros []].
    intros _. constructor; [|apply IH; by eexists].
    apply load_Some in Epk. destruct Hs as (_ & _ & <- & _). done.
  - intros H. eapply reportList_total; [done|]. intros fo Hfo.
    by eapply Forall_forall in H.
Qed.

(** X5. A tick builds its record exactly when every slot of [offsets] lies
    within the arrays, and panics otherwise. The record then has an entry, a
    row and a fraction, for every file of [offsets] and for no other file,
    whether or not a batch of the file was seen. *)
Theorem report_covers_every_file n (s : arrays) :
  sized n s →
  (is_Some (report s) ↔ ∀ file offset, offsets !! file = Some offset → 0 ≤ offset < Z.of_nat n) ∧
  (∀ prog file, report s = Some prog →
     (is_Some (CompletedRow prog !! file) ↔ is_Some (offsets !! file)) ∧
     (is_Some (CompletedFraction prog !! file) ↔ is_Some (offsets !! file))).
Proof.
  intros Hs. split.
  - unfold Progress.report. rewrite (reportList_Some n s _ Hs), Forall_forall. split.
    + intros H file offset Ho. apply (H (file, offset)). by apply elem_of_map_to_list.
    + intros H [file offset] Ho. apply elem_of_map_to_list in Ho. eauto.
  - intros prog file Hrep.
    destruct (reportList_keys s _ prog file Hrep) as [H1 H2].
    assert (file ∈ (map_to_list offsets).*1 ↔ is_Some (offsets !! file)) as Hk.
    { rewrite list_elem_of_fmap. split.
      - intros ([f o] & -> & H). apply elem_of_map_to_list in H. by eexists.
      - intros [o Ho]. exists (file, o). split; [done|]. by apply elem_of_map_to_list. }
    by rewrite H1, H2, Hk.
Qed.

Lemma run_fraction_last evs (s s' : arrays) j w :
  run evs s = Some s' →
  load (writtenFraction s) j = Some w →
  load (writtenFraction s') j
  = Some (default w (last (recordedBits Float32bits offsets j evs))).
Proof.
  revert s w. induction evs as [|ev rest IH]; simpl; intros s w.
  - by intros [= <-].
  - destruct (step ev s) as [s1|] eqn:Hst; [|discriminate]. intros Hrun Hw.
    destruct ev as [src lr pr|e|]; simpl in Hst.
    + unfold Progress.recordBatch in Hst.
      destruct (store (writtenRow s) _ lr) as [wr|]; [|discriminate].
      destruct (store (writtenFraction s) _ _) as [wf|] eqn:Ef; [|discriminate].
      injection Hst as <-.
      assert (load wf j = Some (if decide (j = slot src) then Float32bits pr else w)) as Hj.
      { rewrite (load_store _ _ _ _ j Ef). unfold ProgressLog.slot. by case_decide. }
      rewrite (IH _ _ Hrun Hj). f_equal.
      destruct (decide (slot src = j)) as [<-|Hne].
      * rewrite decide_True by done. rewrite last_cons.
        by destruct (last (recordedBits Float32bits offsets _ rest)).
      * by rewrite decide_False by done.
    + unfold pkOnFlush in Hst.
      destruct (storeEach _ _ (pkFlushedRow s)); [|discriminate].
      destruct e; [destruct (storeEach _ _ (idxFlushedRow s)); [|discriminate]|];
        injection Hst as <-; by eapply IH.
    + unfold idxOnFlush in Hst.
      destruct (storeEach _ _ (idxFlushedRow s)); [|discriminate].
      injection Hst as <-. by eapply IH.
Qed.

(** X18. The fraction a record carries is as of the last batch added, not as
    of the last flush. After any interleaving of recorded batches and flush
    hooks since the arrays were allocated, the [CompletedFraction] of a file
    is the [float32] decoded from the fraction bits of the last batch
    recorded in the file's slot, whether or not an adder has flushed since,
    and the [float32] decoded from 0 when no batch was recorded there. *)
Theorem completed_fraction_is_last_written n evs (s : arrays) prog file offset :
  run evs (init n) = Some s →
  report s = Some prog →
  offsets !! file = Some offset →
  CompletedFraction prog !! file
  = Some (Float32frombits (default 0 (last (recordedBits Float32bits offsets offset evs)))).
Proof.
  intros Hrun Hrep Hoff.
  destruct (reportList_lookup Float32frombits s _ prog file offset
              (NoDup_fst_map_to_list _) Hrep) as (pk & idx & bits & _ & _ & Lb & _ & Hf).
  { by apply elem_of_map_to_list. }
  rewrite Hf. do 2 f_equal.
  assert (0 ≤ offset < Z.of_nat n) as Hrange.
  { apply load_Some in Lb.
    assert (sized n s) as (_ & <- & _) by (eapply run_sized; [exact Hrun|apply init_sized]).
    done. }
  destruct (load_in_range (writtenFraction (init n)) offset) as [w0 Hw0].
  { simpl. by rewrite length_replicate. }
  assert (w0 = 0) as -> by (simpl in Hw0; by eapply load_replicate).
  rewrite (run_fraction_last _ _ _ _ _ Hrun Hw0) in Lb. by injection Lb as <-.
Qed.

End Slots.

Lemma completed_fraction_is_last_written_witness :
  CompletedFraction (mkProg (<[0 := 0]> (<[1 := 1]> ∅))
                            (<[0 := IEEE.Finite 0]> (<[1 := IEEE.Finite 1]> ∅))) !! 1
  = Some (Toy.Float32frombits
            (default 0 (last (recordedBits Toy.Float32bits (mkOffsets [0; 1]) 1
                                [Batch 1 1 (IEEE.Finite (1 # 2)); PkFlush true;
                                 Batch 1 0 (IEEE.Finite 1)])))).
Proof.
  apply (completed_fraction_is_last_written Toy.Float32bits Toy.Float32frombits
           (mkOffsets [0; 1]) 2
           [Batch 1 1 (IEEE.Finite (1 # 2)); PkFlush true; Batch 1 0 (IEEE.Finite 1)]
           (mkArrays [0; 0] [0; 0x3F800000] [0; 1] [0; 1])
           (mkProg (<[0 := 0]> (<[1 := 1]> ∅))
                   (<[0 := IEEE.Finite 0]> (<[1 := IEEE.Finite 1]> ∅))) 1 1);
    reflexivity.
Defined.

Lemma completed_row_was_recorded_witness :
  1 = 0 ∨ 1 ∈ recorded (mkOffsets [0; 1]) 1
            [Batch 1 1 (IEEE.Finite (1 # 2)); PkFlush true; Batch 1 0 (IEEE.Finite 1)].
Proof.
  apply (completed_row_was_recorded Toy.Float32bits Toy.Float32frombits (mkOffsets [0; 1]) 2
           [Batch 1 1 (IEEE.Finite (1 # 2)); PkFlush true; Batch 1 0 (IEEE.Finite 1)]
           (mkArrays [0; 0] [0; 0x3F800000] [0; 1] [0; 1])
           (mkProg (<[0 := 0]> (<[1 := 1]> ∅))
                   (<[0 := IEEE.Finite 0]> (<[1 := IEEE.Finite 1]> ∅))) 1 1 1);
    reflexivity.
Defined.

Lemma report_covers_every_file_witness :
  (is_Some (report Toy.Float32frombits (mkOffsets [0; 1]) (init 2))
   ↔ ∀ file offset, mkOffsets [0; 1] !! file = Some offset → 0 ≤ offset < Z.of_nat 2) ∧
  (∀ prog file, report Toy.Float32frombits (mkOffsets [0; 1]) (init 2) = Some prog →
     (is_Some (CompletedRow prog !! file) ↔ is_Some (mkOffsets [0; 1] !! file)) ∧
     (is_Some (CompletedFraction prog !! file) ↔ is_Some (mkOffsets [0; 1] !! file))).
Proof.
  apply (report_covers_every_file Toy.Float32frombits (mkOffsets [0; 1]) 2 (init 2)).
  apply init_sized.
Defined.

Lemma recordBatch_only_its_slot_witness :
  (mkOffsets [7; 3] !! 5 = None → slot (mkOffsets [7; 3]) 5 = 0) ∧
  (is_Some (recordBatch Toy.Float32bits (mkOffsets [7; 3]) 5 9 (IEEE.Finite 1) (init 2))
   ↔ 0 ≤ slot (mkOffsets [7; 3]) 5 < Z.of_nat 2) ∧
  (∀ s', recordBatch Toy.Float32bits (mkOffsets [7; 3]) 5 9 (IEEE.Finite 1) (init 2)
         = Some s' →
     load (writtenRow s') (slot (mkOffsets [7; 3]) 5) = Some 9 ∧
     load (writtenFraction s') (slot (mkOffsets [7; 3]) 5)
       = Some (Toy.Float32bits (IEEE.Finite 1)) ∧
     (∀ j, j ≠ slot (mkOffsets [7; 3]) 5 →
        load (writtenRow s') j = load (writtenRow (init 2)) j ∧
        load (writtenFraction s') j = load (writtenFraction (init 2)) j) ∧
     pkFlushedRow s' = pkFlushedRow (init 2) ∧ idxFlushedRow s' = idxFlushedRow (init 2)).
Proof.
  apply (recordBatch_only_its_slot Toy.Float32bits (mkOffsets [7; 3]) 2 5 9
           (IEEE.Finite 1) (init 2)).
  apply init_sized.
Defined.

End ProgressLogFacts.


(** * Further properties of the ingest task *)
Module IngestLogFacts.
Import Ingest IngestFacts IngestLog.

Section AdderLogs.
Variable adder : Type.
Variable Add : adder → string → string → adder * option error.
Variable Flush : adder → adder * option error.
Variable Close : adder → adder.
Variable BulkOpSummary : Type.
Variable GetSummary : adder → BulkOpSummary.
Variable summaryAdd : BulkOpSummary → BulkOpSummary → BulkOpSummary.
Variable DecodeTableIDIndexID : string → result (string * Z * Z).
Variable Float32bits : IEEE.float → Z.
Variable offsets : gmap Z Z.

Local Abbreviation callAdd := (callAdd adder Add).
Local Abbreviation callFlush := (callFlush adder Flush).
Local Abbreviation callClose := (callClose adder Close).
Local Abbreviation ingestKV := (ingestKV adder Add DecodeTableIDIndexID).
Local Abbreviation ingestKVs := (ingestKVs adder Add DecodeTableIDIndexID).
Local Abbreviation ingestBatches :=
  (ingestBatches adder Add DecodeTableIDIndexID Float32bits offsets).
Local Abbreviation flushBoth := (flushBoth adder Flush BulkOpSummary GetSummary summaryAdd).
Local Abbreviation ingestKvs :=
  (ingestKvs adder Add Flush Close BulkOpSummary GetSummary summaryAdd
     DecodeTableIDIndexID Float32bits offsets).
Local Abbreviation route := (route DecodeTableIDIndexID).
Local Abbreviation served := (served DecodeTableIDIndexID).

Lemma served_isAdd done cs : served done cs → Forall isAdd cs.
Proof.
  induction 1 as [|kv c done cs [Hw _] _ IH]; constructor; [by exists kv|done].
Qed.

(** The two flushes: which calls they make, and what comes back. *)
Lemma flushBoth_shape st st' out :
  flushBoth st = (st', out) →
  arrays st' = arrays st ∧
  ((∃ e, calls st' = calls st ++ [mkCall PK OpFlush (Some e)] ∧
         out = Returns None (Some (reported PK e))) ∨
   (∃ e, calls st' = calls st ++ [mkCall PK OpFlush None; mkCall IDX OpFlush (Some e)] ∧
         out = Returns None (Some (reported IDX e))) ∨
   (∃ summary, calls st' = calls st ++ [mkCall PK OpFlush None; mkCall IDX OpFlush None] ∧
               out = Returns (Some summary) None)).
Proof.
  unfold Ingest.flushBoth, Ingest.callFlush, reported. simpl.
  destruct (Flush (pkIndexAdder st)) as [pk [e1|]]; simpl.
  - intros H. split.
    + by destruct (isDuplicateKeyError e1); injection H as <- _.
    + left. exists e1. by destruct (isDuplicateKeyError e1); injection H as <- <-.
  - destruct (Flush (indexAdder st)) as [idx [e2|]]; simpl.
    + intros H. split.
      * by destruct (isDuplicateKeyError e2); injection H as <- _.
      * right. left. exists e2.
        destruct (isDuplicateKeyError e2); injection H as <- <-; simpl;
          by rewrite <- app_assoc.
    + intros [= <- <-]. split; [done|]. right. right. eexists. simpl.
      by rewrite <- app_assoc.
Qed.

(** X6. Starting from an empty call log, a run of [ingestKvs] that returns
    has made its calls in three stages: [Add] calls only; then no flush, or
    the PK flush alone when it failed, or the PK flush followed by the
    secondary flush; then [Close] on the secondary adder and [Close] on the
    PK adder, once each. A flush is attempted only after every KV of every
    batch was added without error, and a summary is returned exactly when
    both flushes succeeded. A run that panics has flushed and closed
    nothing. *)
Theorem adders_flushed_then_closed batches (st : state adder) :
  calls st = [] →
  match (ingestKvs batches st).2 with
  | Panics => Forall isAdd (calls (ingestKvs batches st).1)
  | Returns summary err =>
      ∃ cs flushes,
        calls (ingestKvs batches st).1 = cs ++ flushes ++ closes ∧
        Forall isAdd cs ∧
        (flushes = [] ∨
         (∃ e, flushes = [mkCall PK OpFlush (Some e)]) ∨
         (∃ r, flushes = [mkCall PK OpFlush None; mkCall IDX OpFlush r])) ∧
        (flushes ≠ [] → clean cs ∧ (adds cs).*2 = concat (KVs <$> batches)) ∧
        (is_Some summary ↔ flushes = [mkCall PK OpFlush None; mkCall IDX OpFlush None])
  end.
Proof.
  intros Hst. unfold Ingest.ingestKvs.
  destruct (ingestBatches batches st) as [st1 x] eqn:Hb.
  apply ingestBatches_calls in Hb as (done & cs & Hc & _ & Hall & Hs & Ha).
  rewrite Hst in Hc. simpl in Hc.
  destruct x as [|err|]; simpl in Ha; cbv zeta; cbn [fst snd].
  - specialize (Hall eq_refl) as ->. apply accounted_None in Ha.
    destruct (flushBoth st1) as [st2 out] eqn:Hf.
    apply flushBoth_shape in Hf as
      [_ [(e & Hcf & ->)|[(e & Hcf & ->)|(summary & Hcf & ->)]]];
      cbn [fst snd]; rewrite !callClose_calls, Hcf, Hc, <- !app_assoc.
    + exists cs, [mkCall PK OpFlush (Some e)].
      split; [done|]. split; [by eapply served_isAdd|].
      split; [right; left; by exists e|].
      split; [intros _; split; [done|by eapply served_adds]|].
      split; [by intros [? [=]]|by intros [=]].
    + exists cs, [mkCall PK OpFlush None; mkCall IDX OpFlush (Some e)].
      split; [done|]. split; [by eapply served_isAdd|].
      split; [right; right; by exists (Some e)|].
      split; [intros _; split; [done|by eapply served_adds]|].
      split; [by intros [? [=]]|by intros [=]].
    + exists cs, [mkCall PK OpFlush None; mkCall IDX OpFlush None].
      split; [done|]. split; [by eapply served_isAdd|].
      split; [right; right; by exists None|].
      split; [intros _; split; [done|by eapply served_adds]|].
      split; [done|by eexists].
  - rewrite !callClose_calls, Hc, <- !app_assoc. exists cs, [].
    split; [done|]. split; [by eapply served_isAdd|].
    split; [by left|]. split; [done|].
    split; [by intros [? [=]]|by intros [=]].
  - rewrite Hc. by eapply served_isAdd.
Qed.

(** The inner loop that stops with an error: the KVs before the one it
    stopped at were added without error; that KV either failed to decode,
    with no call made for it, or was refused by its adder. *)
Lemma ingestKVs_fails kvs st st' err :
  ingestKVs kvs st = (st', Some err) →
  ∃ done kv rest cs tail,
    kvs = done ++ kv :: rest ∧ calls st' = calls st ++ cs ++ tail ∧
    served done cs ∧ clean cs ∧
    ((tail = [] ∧ DecodeTableIDIndexID (Key kv) = Err err) ∨
     (∃ w e, tail = [mkCall w (OpAdd kv) (Some e)] ∧ err = reported w e)).
Proof.
  revert st. induction kvs as [|kv rest IH]; simpl; intros st; [done|].
  destruct (ingestKV kv st) as [st1 r1] eqn:Hkv.
  assert (Hkv' := Hkv).
  apply ingestKV_calls in Hkv as [(Hroute & -> & _)|(w & e & Hroute & Hcalls & ->)].
  - unfold Ingest.ingestKV in Hkv'. unfold Ingest.route in Hroute.
    destruct (DecodeTableIDIndexID (Key kv)) as [[[? ?] ?]|indexErr] eqn:Hd; [done|].
    injection Hkv' as <-. intros [= <- <-].
    exists [], kv, rest, [], []. rewrite !app_nil_r.
    split; [done|]. split; [done|]. split; [constructor|].
    split; [apply clean_nil|by left].
  - destruct e as [e|]; simpl.
    + intros [= <- <-]. exists [], kv, rest, [], [mkCall w (OpAdd kv) (Some e)].
      split; [done|]. split; [done|]. split; [constructor|].
      split; [apply clean_nil|right; by exists w, e].
    + intros H. apply IH in H as (done & kv' & rest' & cs & tail & -> & Hc & Hs & Hcl & Ht).
      exists (kv :: done), kv', rest', (mkCall w (OpAdd kv) None :: cs), tail.
      split; [done|]. split; [by rewrite Hc, Hcalls, <- !app_assoc|].
      split; [by constructor|]. split; [|done].
      change (mkCall w (OpAdd kv) None :: cs) with ([mkCall w (OpAdd kv) None] ++ cs).
      apply clean_app. split; [by apply clean_singleton|done].
Qed.

Lemma ingestBatches_fails batches st st' err :
  ingestBatches batches st = (st', Fails err) →
  ∃ done kv rest cs tail,
    concat (KVs <$> batches) = done ++ kv :: rest ∧ calls st' = calls st ++ cs ++ tail ∧
    served done cs ∧ clean cs ∧
    ((tail = [] ∧ DecodeTableIDIndexID (Key kv) = Err err) ∨
     (∃ w e, tail = [mkCall w (OpAdd kv) (Some e)] ∧ err = reported w e)).
Proof.
  revert st. induction batches as [|b bs IH]; intros st; [done|].
  rewrite fmap_cons. cbn [concat Ingest.ingestBatches].
  destruct (ingestKVs (KVs b) st) as [st1 r1] eqn:Hkvs. destruct r1 as [e1|].
  - intros [= <- <-].
    apply ingestKVs_fails in Hkvs as (done & kv & rest & cs & tail & Hk & Hc & Hs & Hcl & Ht).
    exists done, kv, (rest ++ concat (KVs <$> bs)), cs, tail.
    split; [by rewrite Hk, <- app_assoc|done].
  - apply ingestKVs_calls in Hkvs as (done1 & cs1 & Hc1 & _ & Hall1 & Hs1 & Ha1).
    specialize (Hall1 eq_refl) as ->. apply accounted_None in Ha1.
    destruct (Progress.recordBatch _ _ _ _ _ _) as [a|]; [|done].
    intros H. apply IH in H as (done & kv & rest & cs & tail & Hk & Hc & Hs & Hcl & Ht).
    simpl in Hc. exists (KVs b ++ done), kv, rest, (cs1 ++ cs), tail.
    split; [by rewrite Hk, <- app_assoc|].
    split; [by rewrite Hc, Hc1, <- !app_assoc|].
    split; [by apply Forall2_app|]. split; [by apply clean_app|done].
Qed.

(** X7. Starting from an empty call log: when [ingestKvs] returns an error
    although no call on an adder returned one, the error is the error of
    [DecodeTableIDIndexID] on the key of a KV of the batches, returned as it
    is; the KVs before that one were each added to the adder their index ID
    names, no KV after it was added, and nothing was flushed before the
    adders were closed. *)
Theorem undecodable_key_stops_ingest batches (st : state adder) err :
  calls st = [] →
  (ingestKvs batches st).2 = Returns None (Some err) →
  clean (calls (ingestKvs batches st).1) →
  ∃ done kv rest cs,
    concat (KVs <$> batches) = done ++ kv :: rest ∧
    DecodeTableIDIndexID (Key kv) = Err err ∧
    calls (ingestKvs batches st).1 = cs ++ closes ∧
    served done cs.
Proof.
  intros Hst. unfold Ingest.ingestKvs.
  destruct (ingestBatches batches st) as [st1 x] eqn:Hb.
  destruct x as [|err'|]; cbv zeta; cbn [fst snd]; [| |done].
  - destruct (flushBoth st1) as [st2 out] eqn:Hf.
    apply flushBoth_shape in Hf as
      [_ [(e & Hcf & ->)|[(e & Hcf & ->)|(summary & Hcf & ->)]]];
      cbn [fst snd]; [| |done]; intros _; rewrite !callClose_calls, Hcf, !clean_app;
      intros [[[_ Hcl] _] _]; exfalso.
    + by apply clean_singleton in Hcl.
    + assert (returned (mkCall IDX OpFlush (Some e)) = None) as Hr; [|done].
      apply Hcl. right. left.
  - intros [= ->]. rewrite !callClose_calls.
    apply ingestBatches_fails in Hb as (done & kv & rest & cs & tail & Hk & Hc & Hs & _ & Ht).
    rewrite Hst in Hc. simpl in Hc. rewrite Hc, !clean_app.
    intros [[[_ Hcl] _] _].
    destruct Ht as [[-> Hd]|(w & e & -> & _)].
    + exists done, kv, rest, cs. rewrite app_nil_r, <- app_assoc. done.
    + by apply clean_singleton in Hcl.
Qed.

Lemma ingestKV_arrays kv st st' r : ingestKV kv st = (st', r) → arrays st' = arrays st.
Proof.
  unfold Ingest.ingestKV, Ingest.callAdd.
  destruct (DecodeTableIDIndexID (Key kv)) as [[[? ?] iid]|]; [|by intros [= <- _]].
  case_decide; simpl.
  - destruct (Add (pkIndexAdder st) _ _) as [a [e|]]; simpl;
      [destruct (isDuplicateKeyError e)|]; by intros [= <- _].
  - destruct (Add (indexAdder st) _ _) as [a [e|]]; simpl;
      [destruct (isDuplicateKeyError e)|]; by intros [= <- _].
Qed.

Lemma ingestKVs_arrays kvs st st' r : ingestKVs kvs st = (st', r) → arrays st' = arrays st.
Proof.
  revert st. induction kvs as [|kv rest IH]; simpl; intros st; [by intros [= <- _]|].
  destruct (ingestKV kv st) as [st1 [e|]] eqn:Hkv; apply ingestKV_arrays in Hkv.
  - by intros [= <- _].
  - intros H. apply IH in H. congruence.
Qed.

(** The ingest task and the progress arrays: the batches it recorded are a
    prefix of the channel's, each recorded after all its KVs were added
    without error, and the arrays are those the [Batch] events of that prefix
    lead to. *)
Lemma ingestBatches_recorded batches st st' x :
  ingestBatches batches st = (st', x) →
  ∃ recordedBatches cs rest,
    recordedBatches `prefix_of` batches ∧
    (x = Completes → recordedBatches = batches) ∧
    calls st' = calls st ++ cs ++ rest ∧ clean cs ∧
    (adds cs).*2 = concat (KVs <$> recordedBatches) ∧
    Progress.run Float32bits offsets (ProgressLog.batchEvents recordedBatches) (arrays st)
      = Some (arrays st').
Proof.
  revert st. induction batches as [|b bs IH]; intros st.
  - intros [= <- <-]. exists [], [], []. rewrite !app_nil_r.
    repeat split; try done. apply clean_nil.
  - cbn [Ingest.ingestBatches].
    destruct (ingestKVs (KVs b) st) as [st1 r1] eqn:Hkvs.
    assert (Harr := ingestKVs_arrays _ _ _ _ Hkvs).
    apply ingestKVs_calls in Hkvs as (done1 & cs1 & Hc1 & _ & Hall1 & Hs1 & Ha1).
    destruct r1 as [e1|].
    + intros [= <- <-]. exists [], [], cs1.
      split; [apply prefix_nil|]. split; [done|]. split; [done|].
      split; [apply clean_nil|]. split; [done|]. simpl. by rewrite Harr.
    + specialize (Hall1 eq_refl) as ->. apply accounted_None in Ha1.
      destruct (Progress.recordBatch _ _ _ _ _ _) as [a|] eqn:Hrec.
      * intros H. apply IH in H as (rb & cs & rest & Hpre & Hall & Hc & Hcl & Hadds & Hrun).
        simpl in *. exists (b :: rb), (cs1 ++ cs), rest.
        split; [by apply prefix_cons|].
        split; [intros Hx; by rewrite (Hall Hx)|].
        split; [by rewrite Hc, Hc1, <- !app_assoc|].
        split; [by apply clean_app|].
        split; [by rewrite adds_app, fmap_app, Hadds, (served_adds _ _ _ Hs1)|].
        simpl. by rewrite <- Harr, Hrec.
      * intros [= <- <-]. exists [], [], cs1.
        split; [apply prefix_nil|]. split; [done|]. split; [done|].
        split; [apply clean_nil|]. split; [done|]. simpl. by rewrite Harr.
Qed.

(** After [Batch] events only, a slot of [writtenRow] holds the row recorded
    last in it, or what it held when none was. *)
Lemma run_batches_last bs (s s' : Progress.arrays) j w :
  Progress.run Float32bits offsets (ProgressLog.batchEvents bs) s = Some s' →
  Progress.load (Progress.writtenRow s) j = Some w →
  Progress.load (Progress.writtenRow s') j
  = Some (default w (last (ProgressLog.recorded offsets j (ProgressLog.batchEvents bs)))).
Proof.
  revert s w. induction bs as [|b bs IH]; simpl; intros s w.
  - by intros [= <-].
  - unfold Progress.recordBatch.
    destruct (Progress.store (Progress.writtenRow s) _ _) as [wr|] eqn:Ew; [|done].
    destruct (Progress.store (Progress.writtenFraction s) _ _) as [wf|]; [|done].
    intros Hrun Hw.
    assert (Progress.load wr j
            = Some (if decide (j = ProgressLog.slot offsets (Source b))
                    then LastRow b else w)) as Hj.
    { rewrite (ProgressFacts.load_store _ _ _ _ j Ew). unfold ProgressLog.slot.
      by case_decide. }
    rewrite (IH _ _ Hrun Hj). f_equal.
    unfold ProgressLog.recorded at 2. simpl.
    fold (ProgressLog.recorded offsets j (ProgressLog.batchEvents bs)).
    destruct (decide (ProgressLog.slot offsets (Source b) = j)) as [<-|Hne].
    + rewrite decide_True by done. rewrite last_cons.
      by destruct (last (ProgressLog.recorded offsets _ (ProgressLog.batchEvents bs))).
    + by rewrite decide_False by done.
Qed.

(** X8. The watermark never runs ahead of the adders. Starting from an empty
    call log, however [ingestKvs] ends, the batches whose [LastRow] it
    recorded are a prefix of the channel's batches, all of them when a
    summary is returned; every KV of those batches was handed to an adder
    before, in order and without error; and each slot of [writtenRow] holds
    the [LastRow] of the last recorded batch of that slot, or its old value
    when no recorded batch had that slot. *)
Theorem watermark_follows_adds batches (st : state adder) :
  calls st = [] →
  ∃ recordedBatches cs rest,
    recordedBatches `prefix_of` batches ∧
    (∀ summary, (ingestKvs batches st).2 = Returns (Some summary) None →
       recordedBatches = batches) ∧
    calls (ingestKvs batches st).1 = cs ++ rest ∧ clean cs ∧
    (adds cs).*2 = concat (KVs <$> recordedBatches) ∧
    (∀ j w, Progress.load (Progress.writtenRow (arrays st)) j = Some w →
       Progress.load (Progress.writtenRow (arrays (ingestKvs batches st).1)) j
       = Some (default w (last (ProgressLog.recorded offsets j
                                  (ProgressLog.batchEvents recordedBatches))))).
Proof.
  intros Hst. unfold Ingest.ingestKvs.
  destruct (ingestBatches batches st) as [st1 x] eqn:Hb.
  apply ingestBatches_recorded in Hb as (rb & cs & rest & Hpre & Hall & Hc & Hcl & Hadds & Hrun).
  rewrite Hst in Hc. simpl in Hc.
  assert (∀ w (s : state adder), arrays (callClose w s) = arrays s) as Hclose
    by (by intros []).
  destruct x as [|err|]; cbv zeta; cbn [fst snd]; rewrite ?Hclose.
  - destruct (flushBoth st1) as [st2 out] eqn:Hf.
    apply flushBoth_shape in Hf as [Harr Hf]. cbn [fst snd].
    assert (∃ fl, calls st2 = calls st1 ++ fl) as [fl Hfl].
    { destruct Hf as [(e & -> & _)|[(e & -> & _)|(sm & -> & _)]]; by eexists. }
    exists rb, cs, (rest ++ fl ++ closes).
    split; [done|]. split; [intros _ _; by apply Hall|].
    split; [by rewrite !callClose_calls, Hfl, Hc, <- !app_assoc|].
    split; [done|]. split; [done|].
    intros j w Hw. rewrite Harr. by eapply run_batches_last.
  - exists rb, cs, (rest ++ closes).
    split; [done|]. split; [done|].
    split; [by rewrite !callClose_calls, Hc, <- !app_assoc|].
    split; [done|]. split; [done|].
    intros j w Hw. by eapply run_batches_last.
  - exists rb, cs, rest. split; [done|]. split; [done|]. split; [done|].
    split; [done|]. split; [done|].
    intros j w Hw. by eapply run_batches_last.
Qed.

End AdderLogs.

Lemma adders_flushed_then_closed_witness :
  match (Toy.ingestKvs [mkBatch 0 2 (IEEE.Finite 1) [mkKV "1a" "x"; mkKV "2a" "y"]]
           Toy.fresh).2 with
  | Panics =>
      Forall isAdd
        (calls (Toy.ingestKvs [mkBatch 0 2 (IEEE.Finite 1) [mkKV "1a" "x"; mkKV "2a" "y"]]
                  Toy.fresh).1)
  | Returns summary err =>
      ∃ cs flushes,
        calls (Toy.ingestKvs [mkBatch 0 2 (IEEE.Finite 1) [mkKV "1a" "x"; mkKV "2a" "y"]]
                 Toy.fresh).1 = cs ++ flushes ++ closes ∧
        Forall isAdd cs ∧
        (flushes = [] ∨
         (∃ e, flushes = [mkCall PK OpFlush (Some e)]) ∨
         (∃ r, flushes = [mkCall PK OpFlush None; mkCall IDX OpFlush r])) ∧
        (flushes ≠ [] →
         clean cs ∧
         (adds cs).*2
         = concat (KVs <$> [mkBatch 0 2 (IEEE.Finite 1) [mkKV "1a" "x"; mkKV "2a" "y"]])) ∧
        (is_Some summary ↔ flushes = [mkCall PK OpFlush None; mkCall IDX OpFlush None])
  end.
Proof.
  apply (adders_flushed_then_closed (list string) Toy.Add Toy.Flush Toy.Close nat
           Toy.GetSummary Nat.add Toy.DecodeTableIDIndexID Toy.Float32bits
           (Progress.mkOffsets [0])
           [mkBatch 0 2 (IEEE.Finite 1) [mkKV "1a" "x"; mkKV "2a" "y"]] Toy.fresh).
  reflexivity.
Defined.

Lemma undecodable_key_stops_ingest_witness :
  ∃ done kv rest cs,
    concat (KVs <$> [mkBatch 0 2 (IEEE.Finite 1) [mkKV "1a" "x"; mkKV "" "y"; mkKV "2b" "z"]])
    = done ++ kv :: rest ∧
    Toy.DecodeTableIDIndexID (Key kv)
    = Err (ErrorString "insufficient bytes to decode uvarint value") ∧
    calls (Toy.ingestKvs
             [mkBatch 0 2 (IEEE.Finite 1) [mkKV "1a" "x"; mkKV "" "y"; mkKV "2b" "z"]]
             Toy.fresh).1 = cs ++ closes ∧
    served Toy.DecodeTableIDIndexID done cs.
Proof.
  apply (undecodable_key_stops_ingest (list string) Toy.Add Toy.Flush Toy.Close nat
           Toy.GetSummary Nat.add Toy.DecodeTableIDIndexID Toy.Float32bits
           (Progress.mkOffsets [0])
           [mkBatch 0 2 (IEEE.Finite 1) [mkKV "1a" "x"; mkKV "" "y"; mkKV "2b" "z"]]
           Toy.fresh (ErrorString "insufficient bytes to decode uvarint value")).
  - reflexivity.
  - reflexivity.
  - vm_compute. intros c Hc.
    repeat (apply elem_of_cons in Hc as [->|Hc]; [reflexivity|]).
    by apply elem_of_nil in Hc.
Defined.

Lemma watermark_follows_adds_witness :
  ∃ recordedBatches cs rest,
    recordedBatches
      `prefix_of` [mkBatch 0 2 (IEEE.Finite (1 # 2)) [mkKV "1a" "x"; mkKV "2a" "y"];
                   mkBatch 0 3 (IEEE.Finite 1) [mkKV "1a" "z"]] ∧
    (∀ summary,
       (Toy.ingestKvs [mkBatch 0 2 (IEEE.Finite (1 # 2)) [mkKV "1a" "x"; mkKV "2a" "y"];
                       mkBatch 0 3 (IEEE.Finite 1) [mkKV "1a" "z"]] Toy.fresh).2
       = Returns (Some summary) None →
       recordedBatches = [mkBatch 0 2 (IEEE.Finite (1 # 2)) [mkKV "1a" "x"; mkKV "2a" "y"];
                          mkBatch 0 3 (IEEE.Finite 1) [mkKV "1a" "z"]]) ∧
    calls (Toy.ingestKvs [mkBatch 0 2 (IEEE.Finite (1 # 2)) [mkKV "1a" "x"; mkKV "2a" "y"];
                          mkBatch 0 3 (IEEE.Finite 1) [mkKV "1a" "z"]] Toy.fresh).1
    = cs ++ rest ∧
    clean cs ∧
    (adds cs).*2 = concat (KVs <$> recordedBatches) ∧
    (∀ j w, Progress.load (Progress.writtenRow (arrays Toy.fresh)) j = Some w →
       Progress.load
         (Progress.writtenRow
            (arrays (Toy.ingestKvs
                       [mkBatch 0 2 (IEEE.Finite (1 # 2)) [mkKV "1a" "x"; mkKV "2a" "y"];
                        mkBatch 0 3 (IEEE.Finite 1) [mkKV "1a" "z"]] Toy.fresh).1)) j
       = Some (default w (last (ProgressLog.recorded (Progress.mkOffsets [0]) j
                                  (ProgressLog.batchEvents recordedBatches))))).
Proof.
  apply (watermark_follows_adds (list string) Toy.Add Toy.Flush Toy.Close nat
           Toy.GetSummary Nat.add Toy.DecodeTableIDIndexID Toy.Float32bits
           (Progress.mkOffsets [0])
           [mkBatch 0 2 (IEEE.Finite (1 # 2)) [mkKV "1a" "x"; mkKV "2a" "y"];
            mkBatch 0 3 (IEEE.Finite 1) [mkKV "1a" "z"]] Toy.fresh).
  reflexivity.
Defined.

End IngestLogFacts.

(** * Further properties of the two roundings *)
Module RoundingFacts.

Lemma round_zero prec x : (x == 0)%Q → IEEE.roundNearestEven prec x = 0%Q.
Proof.
  intros Hx. unfold IEEE.roundNearestEven.
  replace (Qnum x) with 0; [done|].
  unfold Qeq in Hx. simpl in Hx. lia.
Qed.

Lemma round64_zero x : (x == 0)%Q → IEEE.round64 x = 0%Q.
Proof. apply round_zero. Qed.

Lemma round64_mono x y : (x <= y)%Q → (IEEE.round64 x <= IEEE.round64 y)%Q.
Proof. apply IEEEFacts.round64_faithful. Qed.

Lemma round32_zero x : (x == 0)%Q → IEEE.round32 x = 0%Q.
Proof. apply round_zero. Qed.

Lemma round32_mono x y : (x <= y)%Q → (IEEE.round32 x <= IEEE.round32 y)%Q.
Proof. apply IEEEFacts.round32_faithful. Qed.

Lemma round32_one x : (x == 1)%Q → (IEEE.round32 x == 1)%Q.
Proof.
  intros Hx. destruct IEEEFacts.round32_faithful as [Hmono Hone _].
  rewrite <- Hone. apply Qle_antisym; apply Hmono; rewrite Hx; apply Qle_refl.
Qed.

End RoundingFacts.

(** * Further properties of the sampler *)
Module EmitLogFacts.
Import Emit EmitFacts EmitLog.

Section SinkFacts.
Variable rand : Type.
Variable Float64 : rand → Q * rand.
Variable receiver : Type.
Variable Push : receiver → list string → receiver * ConsumerStatus.
Variable IsDescriptorKey : string → bool.

Local Abbreviation sample := (sample rand Float64).
Local Abbreviation push := (push rand receiver Push).
Local Abbreviation emitKV := (emitKV rand Float64 receiver Push IsDescriptorKey).
Local Abbreviation emitKVs := (emitKVs rand Float64 receiver Push IsDescriptorKey).
Local Abbreviation emitBatches := (emitBatches rand Float64 receiver Push IsDescriptorKey).
Local Abbreviation emitKvs := (emitKvs rand Float64 receiver Push IsDescriptorKey).
Local Abbreviation required := (required IsDescriptorKey).
Local Abbreviation rowFor := (rowFor IsDescriptorKey).
Local Abbreviation replay := (replay receiver Push).
Local Abbreviation answers := (answers receiver Push).

Lemma emitKV_armed sampleAll spans kv (st st' : state rand receiver) x :
  armed sampleAll st → emitKV sampleAll spans kv st = (st', x) →
  x ≠ Panic ∧ armed sampleAll st'.
Proof.
  unfold Emit.emitKV, armed. intros Harmed.
  destruct (Contains spans (Key kv)); [by intros [= <- <-]|].
  destruct (sampleAll || IsDescriptorKey (Key kv)) eqn:Hreq.
  - intros H. split; [by apply push_pushed in H as [_ ?]|].
    unfold Emit.push in H. by injection H as <- _.
  - destruct Harmed as [->|[s Hs]]; [done|]. rewrite Hs.
    destruct (sample s kv).1.
    + intros H. split; [by apply push_pushed in H as [_ ?]|].
      unfold Emit.push in H. injection H as <- _. right. by eexists.
    + intros [= <- <-]. split; [done|]. right. by eexists.
Qed.

Lemma emitKVs_armed sampleAll spans kvs (st st' : state rand receiver) x :
  armed sampleAll st → emitKVs sampleAll spans kvs st = (st', x) →
  x ≠ Panic ∧ armed sampleAll st'.
Proof.
  revert st. induction kvs as [|kv rest IH]; intros st Harmed.
  - by intros [= <- <-].
  - cbn [Emit.emitKVs]. destruct (emitKV sampleAll spans kv st) as [st1 x1] eqn:Hkv.
    apply (emitKV_armed _ _ _ _ _ _ Harmed) in Hkv as [Hx1 Harmed1].
    destruct x1 as [|err|]; [by apply IH| |done]. by intros [= <- <-].
Qed.

Lemma emitBatches_armed sampleAll spans batches (st st' : state rand receiver) x :
  armed sampleAll st → emitBatches sampleAll spans batches st = (st', x) →
  x ≠ Panic ∧ armed sampleAll st'.
Proof.
  revert st. induction batches as [|b rest IH]; intros st Harmed.
  - by intros [= <- <-].
  - cbn [Emit.emitBatches].
    destruct (emitKVs sampleAll spans (KVs b) st) as [st1 x1] eqn:Hb.
    apply (emitKVs_armed _ _ _ _ _ _ Harmed) in Hb as [Hx1 Harmed1].
    destruct x1 as [|err|]; [by apply IH| |done]. by intros [= <- <-].
Qed.

(** X9. [emitKvs] never calls a nil [fn]: [fn] is left nil only when
    [SampleSize] is 0, and then every row is required and the call is
    short-circuited. Whatever the sample size, the job's progress, the
    batches and the sink, [emitKvs] returns nil or an error and does not
    panic. *)
Theorem emitKvs_never_calls_nil_fn SampleSize seed job batches out :
  (emitKvs SampleSize seed job batches out).2 ≠ Panic.
Proof.
  unfold Emit.emitKvs. destruct job as [[spans|]|err]; [|done|done].
  destruct (emitBatches _ _ _ _) as [st' x] eqn:Hrun. simpl.
  eapply emitBatches_armed in Hrun as [Hx _]; [done|].
  unfold armed. simpl. case_decide as Hs.
  - left. by apply bool_decide_eq_true.
  - right. by eexists.
Qed.

Lemma emitKV_rows sampleAll spans kv (st st' : state rand receiver) x :
  emitKV sampleAll spans kv st = (st', x) →
  ∃ kept, kept `sublist_of` filter (outside spans) [kv] ∧
          pushed st' = pushed st ++ (rowFor sampleAll <$> kept) ∧
          (x ≠ Panic →
           filter (λ kv, required sampleAll kv = true) (filter (outside spans) [kv])
             `sublist_of` kept).
Proof.
  unfold Emit.emitKV.
  destruct (Contains spans (Key kv)) eqn:Hin.
  - intros [= <- <-]. exists []. rewrite app_nil_r.
    rewrite filter_cons_False by (unfold outside; by rewrite Hin). done.
  - rewrite filter_cons_True by done. rewrite filter_nil.
    destruct (sampleAll || IsDescriptorKey (Key kv)) eqn:Hreq.
    + intros H. apply push_pushed in H as [Hp _]. exists [kv].
      split; [done|]. split.
      * rewrite Hp. simpl. unfold EmitLog.rowFor, EmitLog.required. by rewrite Hreq.
      * intros _. apply sublist_filter.
    + assert (filter (λ kv, required sampleAll kv = true) [kv] = []) as ->.
      { rewrite filter_cons_False; [done|]. unfold EmitLog.required. by rewrite Hreq. }
      destruct (fn st) as [s|].
      * destruct (sample s kv).1.
        -- intros H. apply push_pushed in H as [Hp _]. exists [kv].
           split; [done|]. split; [|intros _; apply sublist_nil_l].
           rewrite Hp. simpl. unfold EmitLog.rowFor, EmitLog.required. by rewrite Hreq.
        -- intros [= <- <-]. exists []. rewrite app_nil_r.
           split; [apply sublist_nil_l|done].
      * intros [= <- <-]. exists []. rewrite app_nil_r.
        split; [apply sublist_nil_l|done].
Qed.

Lemma emitKVs_rows sampleAll spans kvs (st st' : state rand receiver) x :
  emitKVs sampleAll spans kvs st = (st', x) →
  ∃ kept, kept `sublist_of` filter (outside spans) kvs ∧
          pushed st' = pushed st ++ (rowFor sampleAll <$> kept) ∧
          (x = Completes →
           filter (λ kv, required sampleAll kv = true) (filter (outside spans) kvs)
             `sublist_of` kept).
Proof.
  revert st. induction kvs as [|kv rest IH]; intros st.
  - intros [= <- <-]. exists []. by rewrite app_nil_r.
  - cbn [Emit.emitKVs]. destruct (emitKV sampleAll spans kv st) as [st1 x1] eqn:Hkv.
    apply emitKV_rows in Hkv as (k1 & Hs1 & Hp1 & Hr1).
    change (kv :: rest) with ([kv] ++ rest). rewrite !filter_app.
    destruct x1 as [|err|].
    + intros H. apply IH in H as (k2 & Hs2 & Hp2 & Hr2).
      exists (k1 ++ k2). split; [by apply sublist_app|].
      split; [by rewrite Hp2, Hp1, fmap_app, <- app_assoc|].
      intros Hx. apply sublist_app; [by apply Hr1|by apply Hr2].
    + intros [= <- <-]. exists k1.
      split; [by apply sublist_inserts_r|done].
    + intros [= <- <-]. exists k1.
      split; [by apply sublist_inserts_r|done].
Qed.

Lemma emitBatches_rows sampleAll spans batches (st st' : state rand receiver) x :
  emitBatches sampleAll spans batches st = (st', x) →
  ∃ kept, kept `sublist_of` filter (outside spans) (concat (KVs <$> batches)) ∧
          pushed st' = pushed st ++ (rowFor sampleAll <$> kept) ∧
          (x = Completes →
           filter (λ kv, required sampleAll kv = true)
                  (filter (outside spans) (concat (KVs <$> batches)))
             `sublist_of` kept).
Proof.
  revert st. induction batches as [|b rest IH]; intros st.
  - intros [= <- <-]. exists []. by rewrite app_nil_r.
  - rewrite fmap_cons. cbn [concat Emit.emitBatches].
    destruct (emitKVs sampleAll spans (KVs b) st) as [st1 x1] eqn:Hb.
    apply emitKVs_rows in Hb as (k1 & Hs1 & Hp1 & Hr1). rewrite !filter_app.
    destruct x1 as [|err|].
    + intros H. apply IH in H as (k2 & Hs2 & Hp2 & Hr2).
      exists (k1 ++ k2). split; [by apply sublist_app|].
      split; [by rewrite Hp2, Hp1, fmap_app, <- app_assoc|].
      intros Hx. apply sublist_app; [by apply Hr1|by apply Hr2].
    + intros [= <- <-]. exists k1.
      split; [by apply sublist_inserts_r|done].
    + intros [= <- <-]. exists k1.
      split; [by apply sublist_inserts_r|done].
Qed.

(** X10. Which rows [emitKvs] forwards, and in which form. The rows pushed
    are, in order, the rows of some of the channel's KVs outside the
    completed spans: key and value for a required KV (every KV when
    [SampleSize] is 0, a descriptor key otherwise), the key and an empty
    value for a KV that was only sampled, so with a non-zero [SampleSize] no
    value of a non-descriptor KV leaves the processor. When [emitKvs] returns
    nil no required KV outside the completed spans was dropped. *)
Theorem required_rows_in_full SampleSize seed spans batches out :
  ∃ kept,
    kept `sublist_of` filter (outside spans) (concat (KVs <$> batches)) ∧
    pushed (emitKvs SampleSize seed (Ok (Progress_Import spans)) batches out).1
    = rowFor (bool_decide (SampleSize = 0)) <$> kept ∧
    ((emitKvs SampleSize seed (Ok (Progress_Import spans)) batches out).2 = Completes →
     filter (λ kv, required (bool_decide (SampleSize = 0)) kv = true)
            (filter (outside spans) (concat (KVs <$> batches)))
       `sublist_of` kept).
Proof.
  unfold Emit.emitKvs.
  destruct (emitBatches _ _ _ _) as [st' x] eqn:Hrun.
  apply emitBatches_rows in Hrun as (kept & Hs & Hp & Hr). by exists kept.
Qed.

Lemma replay_app out rows1 rows2 :
  replay out (rows1 ++ rows2) = replay (replay out rows1) rows2.
Proof. apply foldl_app. Qed.

Lemma answers_app out rows1 rows2 :
  answers out (rows1 ++ rows2) = answers out rows1 ++ answers (replay out rows1) rows2.
Proof.
  revert out. induction rows1 as [|row rest IH]; intros out; [done|].
  simpl. by rewrite IH.
Qed.

Lemma push_fed out row fn' (st st' : state rand receiver) x :
  output st = replay out (pushed st) → fed receiver Push out (pushed st) →
  push row fn' st = (st', x) →
  output st' = replay out (pushed st') ∧
  match x with
  | Completes => fed receiver Push out (pushed st')
  | Fails err =>
      err = ErrorString "unexpected closure of consumer" ∧
      refused receiver Push out (pushed st')
  | Panic => False
  end.
Proof.
  unfold Emit.push, fed, refused. intros Ho Hfed.
  destruct (Push (output st) row) as [o a] eqn:HP. cbv zeta.
  intros [= <- <-]. cbn [pushed output fst snd].
  rewrite replay_app, answers_app, <- Ho. cbn [EmitLog.answers EmitLog.replay foldl].
  rewrite HP. cbn [fst snd]. split; [done|].
  destruct a.
  - apply Forall_app. split; [done|]. by repeat constructor.
  - split; [done|]. by eexists _, _.
  - split; [done|]. by eexists _, _.
Qed.

(** What a loop of the sampler leaves at the sink when it ends with [x]. *)
Local Abbreviation settled out st x :=
  (output st = replay out (pushed st) ∧
   match x with
   | Completes => fed receiver Push out (pushed st)
   | Fails err =>
       err = ErrorString "unexpected closure of consumer" ∧
       refused receiver Push out (pushed st)
   | Panic => True
   end).

Lemma emitKV_fed out sampleAll spans kv (st st' : state rand receiver) x :
  output st = replay out (pushed st) → fed receiver Push out (pushed st) →
  emitKV sampleAll spans kv st = (st', x) → settled out st' x.
Proof.
  intros Ho Hfed. unfold Emit.emitKV.
  destruct (Contains spans (Key kv)); [by intros [= <- <-]|].
  destruct (sampleAll || IsDescriptorKey (Key kv)).
  - intros H. apply (push_fed out) in H as [? H]; [|done..].
    split; [done|]. by destruct x.
  - destruct (fn st) as [s|]; [|by intros [= <- <-]].
    destruct (sample s kv).1; [|by intros [= <- <-]].
    intros H. apply (push_fed out) in H as [? H]; [|done..].
    split; [done|]. by destruct x.
Qed.

Lemma emitKVs_fed out sampleAll spans kvs (st st' : state rand receiver) x :
  output st = replay out (pushed st) → fed receiver Push out (pushed st) →
  emitKVs sampleAll spans kvs st = (st', x) → settled out st' x.
Proof.
  revert st. induction kvs as [|kv rest IH]; intros st Ho Hfed.
  - by intros [= <- <-].
  - cbn [Emit.emitKVs]. destruct (emitKV sampleAll spans kv st) as [st1 x1] eqn:Hkv.
    apply (emitKV_fed out) in Hkv as [Ho1 H1]; [|done..].
    destruct x1 as [|err|]; [by apply IH| |]; by intros [= <- <-].
Qed.

Lemma emitBatches_fed out sampleAll spans batches (st st' : state rand receiver) x :
  output st = replay out (pushed st) → fed receiver Push out (pushed st) →
  emitBatches sampleAll spans batches st = (st', x) → settled out st' x.
Proof.
  revert st. induction batches as [|b rest IH]; intros st Ho Hfed.
  - by intros [= <- <-].
  - cbn [Emit.emitBatches].
    destruct (emitKVs sampleAll spans (KVs b) st) as [st1 x1] eqn:Hb.
    apply (emitKVs_fed out) in Hb as [Ho1 H1]; [|done..].
    destruct x1 as [|err|]; [by apply IH| |]; by intros [= <- <-].
Qed.

(** X11. The sampler and its sink. The receiver [emitKvs] ends with is the
    one its pushes made, in order. When it returns nil the sink answered
    [NeedMoreRows] to every push. When it returns an error, either the job or
    its progress could not be used, the error says so and nothing was pushed;
    or the error is "unexpected closure of consumer", the sink gave another
    answer than [NeedMoreRows] to the last push and [NeedMoreRows] to all
    before, so nothing is pushed after the sink stops asking. *)
Theorem pushes_stop_with_the_sink SampleSize seed job batches out :
  output (emitKvs SampleSize seed job batches out).1
  = replay out (pushed (emitKvs SampleSize seed job batches out).1) ∧
  ((emitKvs SampleSize seed job batches out).2 = Completes →
   fed receiver Push out (pushed (emitKvs SampleSize seed job batches out).1)) ∧
  (∀ err, (emitKvs SampleSize seed job batches out).2 = Fails err →
     match job with
     | Err loadErr =>
         err = loadErr ∧ pushed (emitKvs SampleSize seed job batches out).1 = []
     | Ok Progress_Other =>
         err = ErrorString "unexpected progress type jobspb.Progress" ∧
         pushed (emitKvs SampleSize seed job batches out).1 = []
     | Ok (Progress_Import _) =>
         err = ErrorString "unexpected closure of consumer" ∧
         refused receiver Push out (pushed (emitKvs SampleSize seed job batches out).1)
     end).
Proof.
  unfold Emit.emitKvs. destruct job as [[spans|]|loadErr]; simpl.
  - destruct (emitBatches _ _ _ _) as [st' x] eqn:Hrun.
    apply (emitBatches_fed out) in Hrun as [Ho H]; [|done|constructor]. simpl.
    split; [done|]. split; [by intros ->|by intros err ->].
  - split; [done|]. split; [done|]. by intros err [= <-].
  - split; [done|]. split; [done|]. by intros err [= <-].
Qed.

Local Abbreviation round64 := IEEE.round64.

Local Abbreviation round64_zero := RoundingFacts.round64_zero.
Local Abbreviation round64_mono := RoundingFacts.round64_mono.

Lemma round64_size_nonneg kv : (0 <= round64 (inject_Z (size kv)))%Q.
Proof.
  rewrite <- (round64_zero 0) at 1 by reflexivity. apply round64_mono.
  change 0%Q with (inject_Z 0). rewrite <- Zle_Qle. unfold size. lia.
Qed.

Lemma sample_fst_nonzero (s : sampleRate rand) kv SampleSize :
  SampleSize ≠ 0 → sampleSize s = IEEE.ofInt round64 SampleSize →
  (sample s kv).1
  = negb (Qle_bool (round64 (round64 (inject_Z (size kv)) / round64 (inject_Z SampleSize)))
                   (Float64 (rnd s)).1).
Proof.
  intros Hnz Hs. unfold Emit.sample. rewrite Hs. simpl.
  destruct (Qeq_bool (round64 (inject_Z SampleSize)) 0) eqn:Hz; [|done].
  apply Qeq_bool_iff in Hz.
  by apply (IEEEFacts.round_int_nonzero _ IEEEFacts.round64_faithful) in Hz.
Qed.

(** X12. Edges of [sample], for a sampler made from a non-zero [SampleSize]
    and draws that are not negative: a KV with no bytes is never accepted; a
    negative [SampleSize] accepts nothing; and with a positive [SampleSize]
    the decision is monotone in the size, a draw that accepts a KV accepts
    every KV at least as large. *)
Theorem sample_rejects_and_grows (s : sampleRate rand) kv kv' SampleSize :
  (∀ r, 0 <= (Float64 r).1)%Q →
  SampleSize ≠ 0 →
  sampleSize s = IEEE.ofInt round64 SampleSize →
  (size kv = 0 → (sample s kv).1 = false) ∧
  (SampleSize < 0 → (sample s kv).1 = false) ∧
  (0 < SampleSize → size kv ≤ size kv' →
   (sample s kv).1 = true → (sample s kv').1 = true).
Proof.
  intros Hdraw Hnz Hs. rewrite !(sample_fst_nonzero s _ SampleSize Hnz Hs).
  specialize (Hdraw (rnd s)).
  set (ss := round64 (inject_Z SampleSize)). set (d := (Float64 (rnd s)).1) in *.
  split; [|split].
  - intros ->. apply negb_false_iff, Qle_bool_iff.
    rewrite (round64_zero (inject_Z 0)) by reflexivity.
    by rewrite (round64_zero (0 / ss)) by reflexivity.
  - intros Hneg. apply negb_false_iff, Qle_bool_iff.
    assert (ss <= -1)%Q as Hss.
    { destruct IEEEFacts.round64_faithful as [Hmono _ Hmone].
      rewrite <- Hmone. apply Hmono. change (-1)%Q with (inject_Z (-1)).
      rewrite <- Zle_Qle. lia. }
    pose proof (round64_size_nonneg kv) as Hsz.
    set (sz := round64 (inject_Z (size kv))) in *.
    assert (sz / ss <= 0)%Q as Hq.
    { clearbody sz ss.
      assert (sz / ss * ss == sz)%Q as Hm by (field; lra).
      apply Qnot_lt_le. intros Hpos. nra. }
    eapply Qle_trans; [|exact Hdraw].
    rewrite <- (round64_zero 0) by reflexivity. by apply round64_mono.
  - intros Hpos Hle. rewrite !negb_true_iff, <- !not_true_iff_false, !Qle_bool_iff.
    intros Hkv Hkv'. apply Hkv. eapply Qle_trans; [|exact Hkv'].
    apply round64_mono.
    assert (1 <= ss)%Q as Hss
      by (apply IEEEFacts.round_int_ge_1; [apply IEEEFacts.round64_faithful|lia]).
    apply Qmult_le_compat_r.
    + apply round64_mono. by rewrite <- Zle_Qle.
    + apply Qlt_le_weak, Qinv_lt_0_compat. lra.
Qed.

End SinkFacts.

Lemma sample_rejects_and_grows_witness :
  (size (mkKV "a" "b") = 0 →
   (sample positive Toy.Float64
      (mkSampleRate 2%positive (IEEE.ofInt IEEE.round64 4)) (mkKV "a" "b")).1 = false) ∧
  (4 < 0 →
   (sample positive Toy.Float64
      (mkSampleRate 2%positive (IEEE.ofInt IEEE.round64 4)) (mkKV "a" "b")).1 = false) ∧
  (0 < 4 → size (mkKV "a" "b") ≤ size (mkKV "k3" "vvvv") →
   (sample positive Toy.Float64
      (mkSampleRate 2%positive (IEEE.ofInt IEEE.round64 4)) (mkKV "a" "b")).1 = true →
   (sample positive Toy.Float64
      (mkSampleRate 2%positive (IEEE.ofInt IEEE.round64 4)) (mkKV "k3" "vvvv")).1 = true).
Proof.
  apply (sample_rejects_and_grows positive Toy.Float64
           (mkSampleRate 2%positive (IEEE.ofInt IEEE.round64 4))
           (mkKV "a" "b") (mkKV "k3" "vvvv") 4).
  - intros r. unfold Toy.Float64, Qle. simpl. lia.
  - lia.
  - reflexivity.
Defined.

End EmitLogFacts.

(** * Further properties of the file reader *)
Module ReaderLogFacts.
Import Reader ReaderFacts ReaderLog RoundingFacts.

Local Abbreviation round32 := IEEE.round32.

Lemma fraction32_finite k n :
  n ≠ 0 →
  fraction32 k n = IEEE.Finite (round32 (round32 (inject_Z k) / round32 (inject_Z n))).
Proof.
  intros Hn. unfold fraction32. simpl.
  destruct (Qeq_bool (round32 (inject_Z n)) 0) eqn:Hz; [|done].
  apply Qeq_bool_iff in Hz.
  by apply (IEEEFacts.round_int_nonzero _ IEEEFacts.round32_faithful) in Hz.
Qed.

Lemma round32_int_pos n : 0 < n → (1 <= round32 (inject_Z n))%Q.
Proof.
  intros Hn. apply IEEEFacts.round_int_ge_1; [apply IEEEFacts.round32_faithful|lia].
Qed.

(** The quotient grows with the numerator, from 0 at 0 to 1 at the
    denominator. *)
Lemma quotient32_bounds a b n :
  0 < n → 0 ≤ a → a ≤ b → b ≤ n →
  (0 <= round32 (round32 (inject_Z a) / round32 (inject_Z n)))%Q ∧
  (round32 (round32 (inject_Z a) / round32 (inject_Z n))
   <= round32 (round32 (inject_Z b) / round32 (inject_Z n)))%Q ∧
  (round32 (round32 (inject_Z b) / round32 (inject_Z n)) <= 1)%Q.
Proof.
  intros Hn Ha Hab Hbn. pose proof (round32_int_pos n Hn) as Hpos.
  assert (0 <= round32 (inject_Z a))%Q as Ha'.
  { rewrite <- (round32_zero 0) at 1 by reflexivity. apply round32_mono.
    change 0%Q with (inject_Z 0). by rewrite <- Zle_Qle. }
  assert (round32 (inject_Z a) <= round32 (inject_Z b))%Q as Hab'
    by (apply round32_mono; by rewrite <- Zle_Qle).
  assert (round32 (inject_Z b) <= round32 (inject_Z n))%Q as Hbn'
    by (apply round32_mono; by rewrite <- Zle_Qle).
  assert (0 < / round32 (inject_Z n))%Q as Hinv by (apply Qinv_lt_0_compat; lra).
  split; [|split].
  - rewrite <- (round32_zero 0) at 1 by reflexivity. apply round32_mono.
    apply Qmult_le_0_compat; lra.
  - apply round32_mono, Qmult_le_compat_r; lra.
  - rewrite <- (round32_one 1) by reflexivity. apply round32_mono.
    apply Qle_shift_div_r; lra.
Qed.

Lemma quotient32_full n :
  0 < n → (round32 (round32 (inject_Z n) / round32 (inject_Z n)) == 1)%Q.
Proof.
  intros Hn. pose proof (round32_int_pos n Hn) as Hpos.
  apply round32_one. field. lra.
Qed.

(** X13. While a file of known positive size is read, [ReadFraction] is a
    number between 0 and 1 that does not go down as the byte counter goes
    up: it is 0 before the first byte and 1 when the counter has reached the
    total. *)
Theorem ReadFraction_grows_to_one (f g : fileReader) :
  total f = total g → 0 < total f →
  0 ≤ counter_n f → counter_n f ≤ counter_n g → counter_n g ≤ total g →
  ∃ p q, ReadFraction f = IEEE.Finite p ∧ ReadFraction g = IEEE.Finite q ∧
         (0 <= p)%Q ∧ (p <= q)%Q ∧ (q <= 1)%Q ∧
         (counter_n f = 0 → (p == 0)%Q) ∧
         (counter_n g = total g → (q == 1)%Q).
Proof.
  intros Ht Hpos Hf Hfg Hg. unfold ReadFraction.
  rewrite !decide_False by lia.
  fold (fraction32 (counter_n f) (total f)). fold (fraction32 (counter_n g) (total g)).
  rewrite !fraction32_finite by lia. rewrite <- Ht in *.
  destruct (quotient32_bounds (counter_n f) (counter_n g) (total f)) as (H0 & Hle & H1);
    [done..|].
  eexists _, _. split; [done|]. split; [done|].
  split; [done|]. split; [done|]. split; [done|]. split.
  - intros ->. rewrite (round32_zero (inject_Z 0)) by reflexivity.
    by rewrite (round32_zero (0 / _)) by reflexivity.
  - intros ->. by apply quotient32_full.
Qed.

Lemma ReadFraction_grows_to_one_witness :
  ∃ p q, ReadFraction (mkFileReader "" 8 3) = IEEE.Finite p ∧
         ReadFraction (mkFileReader "" 8 8) = IEEE.Finite q ∧
         (0 <= p)%Q ∧ (p <= q)%Q ∧ (q <= 1)%Q ∧
         (counter_n (mkFileReader "" 8 3) = 0 → (p == 0)%Q) ∧
         (counter_n (mkFileReader "" 8 8) = total (mkFileReader "" 8 8) → (q == 1)%Q).
Proof.
  apply (ReadFraction_grows_to_one (mkFileReader "" 8 3) (mkFileReader "" 8 8));
    simpl; lia.
Defined.

Section DecoderFacts.
Variable urlParse : string → result URL.
Variable gzipNewReader : string → result string.
Variable bzip2NewReader : string → string.

Local Abbreviation guessed := (guessed urlParse).
Local Abbreviation decoded := (decoded gzipNewReader bzip2NewReader).

Local Abbreviation decompressingReader :=
  (decompressingReader urlParse gzipNewReader bzip2NewReader).

(** X14. For a URI parser whose path, when it differs from the name, is
    shorter than the name: [decompressingReader] applies the decoder of the
    compression the rules give for the name and the hint, gzip's reader for
    gzip, bzip2's for bzip, none otherwise; and the only error it can return
    is the one of [gzip.NewReader]. *)
Theorem decompressingReader_follows_rules input name hint c :
  pathShrinks urlParse → guessed name hint c →
  decompressingReader input name hint = decoded c input ∧
  (∀ err, decompressingReader input name hint = Err err →
     c = IOFileFormat_Gzip ∧ gzipNewReader input = Err err).
Proof.
  intros Hshrink Hc.
  destruct (guess_bounded urlParse (String.length name) Hshrink name hint)
    as (c0 & Hc0 & Hfuel); [done|].
  assert (c0 = c) as -> by (by eapply guessed_functional).
  unfold Reader.decompressingReader. rewrite Hfuel by done.
  split; [by destruct c|]. by destruct c.
Qed.

(** X19. The guess is never Auto: whatever the name, the hint and the URI
    parser, a result of [guessCompressionFromName] is none, gzip or bzip, so
    the default branch of [decompressingReader] is taken for none only; and
    the result, given back as the hint, is returned for every name. *)
Theorem guessCompressionFromName_never_auto fuel name hint c :
  guessCompressionFromName urlParse fuel name hint = Some c →
  c ≠ IOFileFormat_Auto ∧
  (∀ fuel' name', guessCompressionFromName urlParse fuel' name' c = Some c) ∧
  (∀ input, decompressingReader input name c = decoded c input).
Proof.
  intros H.
  assert (c ≠ IOFileFormat_Auto) as Hc.
  { revert name H. induction fuel as [|fuel IH]; intros name; simpl.
    - case_decide; [congruence|].
      destruct (HasSuffix name ".gz"); [congruence|].
      destruct (HasSuffix name ".bz2" || HasSuffix name ".bz"); [congruence|].
      destruct (urlParse name) as [parsed|]; [|congruence].
      case_decide; congruence.
    - case_decide; [congruence|].
      destruct (HasSuffix name ".gz"); [congruence|].
      destruct (HasSuffix name ".bz2" || HasSuffix name ".bz"); [congruence|].
      destruct (urlParse name) as [parsed|]; [|congruence].
      case_decide; [apply IH|congruence]. }
  assert (∀ fuel' name', guessCompressionFromName urlParse fuel' name' c = Some c) as Hfix.
  { intros [|fuel'] name'; simpl; by rewrite decide_True. }
  split; [done|]. split; [done|].
  intros input. unfold Reader.decompressingReader. rewrite Hfix. by destruct c.
Qed.

End DecoderFacts.

Lemma guessCompressionFromName_never_auto_witness :
  IOFileFormat_Gzip ≠ IOFileFormat_Auto ∧
  (∀ fuel' name',
     guessCompressionFromName Toy.urlParse fuel' name' IOFileFormat_Gzip
     = Some IOFileFormat_Gzip) ∧
  (∀ input,
     Reader.decompressingReader Toy.urlParse (λ input, Ok input) (λ input, input)
       input "http://host/t.csv.gz?sig=abc" IOFileFormat_Gzip
     = decoded (λ input, Ok input) (λ input, input) IOFileFormat_Gzip input).
Proof.
  apply (guessCompressionFromName_never_auto Toy.urlParse (λ input, Ok input)
           (λ input, input) 40 "http://host/t.csv.gz?sig=abc" IOFileFormat_Auto
           IOFileFormat_Gzip).
  reflexivity.
Defined.

Lemma decompressingReader_follows_rules_witness :
  Reader.decompressingReader Toy.urlParse (λ input, Err (ErrorString "gzip: invalid header"))
    (λ input, input) "1,x;" "http://host/t.csv.gz?sig=abc" IOFileFormat_Auto
  = decoded (λ input, Err (ErrorString "gzip: invalid header")) (λ input, input)
      IOFileFormat_Gzip "1,x;" ∧
  (∀ err,
     Reader.decompressingReader Toy.urlParse
       (λ input, Err (ErrorString "gzip: invalid header")) (λ input, input)
       "1,x;" "http://host/t.csv.gz?sig=abc" IOFileFormat_Auto = Err err →
     IOFileFormat_Gzip = IOFileFormat_Gzip ∧
     (λ input : string, @Err string (ErrorString "gzip: invalid header")) "1,x;" = Err err).
Proof.
  apply (decompressingReader_follows_rules Toy.urlParse
           (λ input, Err (ErrorString "gzip: invalid header")) (λ input, input)
           "1,x;" "http://host/t.csv.gz?sig=abc" IOFileFormat_Auto IOFileFormat_Gzip).
  - exact toy_pathShrinks.
  - eapply guessed_path; [reflexivity..|discriminate|].
    simpl. by apply guessed_gz.
Defined.

Section FilesLog.
Variable urlParse : string → result URL.
Variable conf : Type.
Variable storage : Type.
Variable ExportStorageConfFromURI : string → result conf.
Variable MakeExportStorage : conf → result storage.
Variable Size : storage → Z * option error.
Variable ReadFile : storage → result string.
Variable WriteFile : storage → string → string → option error.
Variable gzipNewReader : string → result string.
Variable bzip2NewReader : string → string.
Variable fileFunc : fileReader → Z → string → bool → parse.

Local Abbreviation saveRejected :=
  (saveRejected urlParse conf storage ExportStorageConfFromURI MakeExportStorage WriteFile).
Local Abbreviation readFile :=
  (readFile urlParse conf storage ExportStorageConfFromURI MakeExportStorage ReadFile
     WriteFile gzipNewReader bzip2NewReader fileFunc).
Local Abbreviation fetchSizes :=
  (fetchSizes conf storage ExportStorageConfFromURI MakeExportStorage Size).
Local Abbreviation readFiles :=
  (readFiles urlParse conf storage ExportStorageConfFromURI MakeExportStorage ReadFile
     WriteFile gzipNewReader bzip2NewReader fileFunc).
Local Abbreviation readInputFiles :=
  (readInputFiles urlParse conf storage ExportStorageConfFromURI MakeExportStorage Size
     ReadFile WriteFile gzipNewReader bzip2NewReader fileFunc).
Local Abbreviation readInputFilesIn :=
  (readInputFilesIn urlParse conf storage ExportStorageConfFromURI MakeExportStorage Size
     ReadFile WriteFile gzipNewReader bzip2NewReader fileFunc).
Local Abbreviation sizeOf :=
  (sizeOf conf storage ExportStorageConfFromURI MakeExportStorage Size).

(** When both loops visit the files in the same order. *)
Lemma readInputFilesIn_same dataFiles format progressFn :
  readInputFilesIn dataFiles dataFiles format progressFn
  = readInputFiles dataFiles format progressFn.
Proof. reflexivity. Qed.

Lemma reportBytes_writes pf totalBytes calls lastReported w :
  writes (reportBytes pf totalBytes calls lastReported w) = writes w.
Proof.
  revert lastReported w. induction calls as [|[finished n] rest IH]; intros last w; [done|].
  simpl. destruct (finished || _); by rewrite IH.
Qed.

Lemma saveRejected_world dataFile rows w :
  progress (saveRejected dataFile rows w).1 = progress w ∧
  readBytes (saveRejected dataFile rows w).1 = readBytes w ∧
  ∃ ws, writes (saveRejected dataFile rows w).1 = writes w ++ ws ∧
        (ws = [] ∨ ws = [mkWrite dataFile "" (String.concat "" rows)]).
Proof.
  unfold Reader.saveRejected.
  destruct (bool_decide (rows = [])).
  { repeat split; try done. exists []. rewrite app_nil_r. auto. }
  destruct (urlParse dataFile).
  2:{ repeat split; try done. exists []. rewrite app_nil_r. auto. }
  destruct (ExportStorageConfFromURI dataFile) as [c|].
  2:{ repeat split; try done. exists []. rewrite app_nil_r. auto. }
  destruct (MakeExportStorage c).
  2:{ repeat split; try done. exists []. rewrite app_nil_r. auto. }
  repeat split; try done. eexists. split; [done|]. by right.
Qed.

(** What one file adds to the blob writes. *)
Lemma readFile_writes format progressFn totalBytes fileSizes nFiles currentFile
    dataFileIndex dataFile w w' r :
  readFile format progressFn totalBytes fileSizes nFiles currentFile
    dataFileIndex dataFile w = (w', r) →
  ∃ ws, writes w' = writes w ++ ws ∧
        (ws = [] ∨
         (Format format = IOFileFormat_MysqlOutfile ∧ SaveRejected format = true ∧
          ∃ buf, ws = [mkWrite dataFile "" buf])).
Proof.
  unfold Reader.readFile.
  destruct (ExportStorageConfFromURI dataFile) as [c|].
  2:{ intros [= <- _]. exists []. rewrite app_nil_r. auto. }
  destruct (MakeExportStorage c) as [es|].
  2:{ intros [= <- _]. exists []. rewrite app_nil_r. auto. }
  destruct (ReadFile es) as [raw|].
  2:{ intros [= <- _]. exists []. rewrite app_nil_r. auto. }
  destruct (Reader.decompressingReader _ _ _ raw dataFile _) as [decompressed|].
  2:{ intros [= <- _]. exists []. rewrite app_nil_r. auto. }
  cbv zeta.
  set (src := mkFileReader _ _ _).
  set (rejected := bool_decide _ && SaveRejected format).
  set (p := fileFunc src dataFileIndex dataFile rejected).
  set (w1 := match progressFn with Some pf => _ | None => w end).
  assert (writes w1 = writes w) as Hw1.
  { subst w1. destruct progressFn as [pf|]; [|done].
    destruct (bool_decide (is_Some (Some pf)) && _); [apply reportBytes_writes|done]. }
  set (r1 := if rejected then _ else _).
  assert (∃ ws, writes r1.1 = writes w ++ ws ∧
                (ws = [] ∨
                 (Format format = IOFileFormat_MysqlOutfile ∧ SaveRejected format = true ∧
                  ∃ buf, ws = [mkWrite dataFile "" buf]))) as (ws & Hws & Hcase).
  { subst r1. destruct rejected eqn:Hrej.
    - destruct (saveRejected_world dataFile (rejectedRows p) w1) as (_ & _ & ws & Hws & Hcase).
      exists ws. split.
      + rewrite <- Hw1, <- Hws.
        by destruct (parseError p), (saveRejected dataFile (rejectedRows p) w1).2.
      + destruct Hcase as [-> | ->]; [by left|right].
        subst rejected. apply andb_true_iff in Hrej as [Hf Hs].
        apply bool_decide_eq_true in Hf. eauto.
    - exists []. rewrite app_nil_r. split; [|by left].
      by destruct (parseError p). }
  clearbody r1. destruct r1 as [w2 [err|]]; cbn [fst snd] in *.
  - intros [= <- _]. eauto.
  - destruct progressFn as [pf|]; [|intros [= <- _]; eauto].
    destruct (bool_decide (is_Some (Some pf)) && bool_decide (totalBytes = 0));
      intros [= <- _]; eauto.
Qed.

Lemma readFiles_writes format progressFn totalBytes fileSizes nFiles currentFile
    dataFiles w w' r :
  readFiles format progressFn totalBytes fileSizes nFiles currentFile dataFiles w = (w', r) →
  ∃ ws, writes w' = writes w ++ ws ∧ (length ws ≤ length dataFiles)%nat ∧
        (ws = [] ∨
         (Format format = IOFileFormat_MysqlOutfile ∧ SaveRejected format = true)) ∧
        Forall (λ wr, basename wr = "" ∧ ∃ id, (id, uri wr) ∈ dataFiles) ws.
Proof.
  revert currentFile w. induction dataFiles as [|[idx f] rest IH]; intros currentFile w.
  - intros [= <- _]. exists []. rewrite app_nil_r. repeat split; auto.
  - cbn [Reader.readFiles].
    destruct (readFile _ _ _ _ _ _ _ _ _) as [w1 r1] eqn:Hf.
    apply readFile_writes in Hf as (ws1 & Hw1 & Hcase1).
    assert ((length ws1 ≤ 1)%nat ∧
            (ws1 = [] ∨
             (Format format = IOFileFormat_MysqlOutfile ∧ SaveRejected format = true)) ∧
            Forall (λ wr, basename wr = "" ∧ ∃ id, (id, uri wr) ∈ (idx, f) :: rest) ws1)
      as (Hlen1 & Hmode1 & Hall1).
    { destruct Hcase1 as [->|(Hf & Hs & buf & ->)].
      - split; [simpl; lia|]. split; [by left|constructor].
      - split; [simpl; lia|]. split; [by right|].
        constructor; [|constructor]. split; [done|]. exists idx. simpl. by left. }
    destruct r1 as [err|].
    + intros [= <- _]. exists ws1. split; [done|]. split; [simpl; lia|done].
    + intros H. apply IH in H as (ws2 & Hw2 & Hlen2 & Hmode2 & Hall2).
      exists (ws1 ++ ws2). split; [by rewrite Hw2, Hw1, <- app_assoc|].
      split; [rewrite length_app; simpl; lia|]. split.
      * destruct Hmode1 as [->|?]; [|by right]. destruct Hmode2 as [->|?]; [by left|by right].
      * apply Forall_app. split; [done|].
        eapply Forall_impl; [exact Hall2|]. intros wr (? & id & Hin).
        split; [done|]. exists id. by right.
Qed.

(** X15. What [readInputFiles] writes to blob storage, in whatever order its
    second loop visits the data files and whatever its first loop found. It
    writes nothing unless the format is MySQL-outfile with [SaveRejected]; it
    makes at most one write per data file; and every write has an empty base
    name on a storage opened from the URI of one of the data files. *)
Theorem blob_writes_only_for_rejected_rows sizeOrder readOrder format progressFn :
  (Format format ≠ IOFileFormat_MysqlOutfile ∨ SaveRejected format = false →
   writes (readInputFilesIn sizeOrder readOrder format progressFn).1 = []) ∧
  (length (writes (readInputFilesIn sizeOrder readOrder format progressFn).1)
   ≤ length readOrder)%nat ∧
  (∀ wr, wr ∈ writes (readInputFilesIn sizeOrder readOrder format progressFn).1 →
     basename wr = "" ∧ ∃ id, (id, uri wr) ∈ readOrder).
Proof.
  unfold ReaderLog.readInputFilesIn.
  destruct (fetchSizes sizeOrder 0 ∅) as [[totalBytes fileSizes]|err].
  2:{ simpl. split; [done|]. split; [lia|]. intros wr H. by apply elem_of_nil in H. }
  destruct (readFiles _ _ _ _ _ _ _ _) as [w' r] eqn:Hrun.
  apply readFiles_writes in Hrun as (ws & Hw & Hlen & Hmode & Hall).
  simpl in *. subst. split; [|split].
  - intros Hoff. destruct Hmode as [->|[Hf Hs]]; [done|].
    destruct Hoff; congruence.
  - done.
  - intros wr Hin. by eapply Forall_forall in Hall.
Qed.

(** What one file adds to the values handed to [progressFn] and to
    [readBytes]: the byte reports of its parser when the total is known, and
    then its share of the file count when it is not. *)
Lemma readFile_progress format progressFn totalBytes fileSizes nFiles currentFile
    dataFileIndex dataFile w w' r :
  readFile format progressFn totalBytes fileSizes nFiles currentFile
    dataFileIndex dataFile w = (w', r) →
  ∃ w1 extra,
    progress w' = progress w1 ++ extra ∧ readBytes w' = readBytes w1 ∧
    (w1 = w ∨
     ∃ pf src rej, progressFn = Some pf ∧ 0 < totalBytes ∧
                   total src = default 0 (fileSizes !! dataFileIndex) ∧
                   w1 = reportBytes pf totalBytes
                          (progressCalls (fileFunc src dataFileIndex dataFile rej)) 0 w) ∧
    (extra = [] ∨
     (totalBytes = 0 ∧ is_Some progressFn ∧ extra = [fraction32 currentFile nFiles])) ∧
    (r = None → totalBytes = 0 → is_Some progressFn →
     extra = [fraction32 currentFile nFiles]).
Proof.
  unfold Reader.readFile.
  destruct (ExportStorageConfFromURI dataFile) as [c|].
  2:{ intros [= <- <-]. exists w, []. rewrite app_nil_r.
      split; [done|]. split; [done|]. split; [by left|]. split; [by left|done]. }
  destruct (MakeExportStorage c) as [es|].
  2:{ intros [= <- <-]. exists w, []. rewrite app_nil_r.
      split; [done|]. split; [done|]. split; [by left|]. split; [by left|done]. }
  destruct (ReadFile es) as [raw|].
  2:{ intros [= <- <-]. exists w, []. rewrite app_nil_r.
      split; [done|]. split; [done|]. split; [by left|]. split; [by left|done]. }
  destruct (Reader.decompressingReader _ _ _ raw dataFile _) as [decompressed|].
  2:{ intros [= <- <-]. exists w, []. rewrite app_nil_r.
      split; [done|]. split; [done|]. split; [by left|]. split; [by left|done]. }
  cbv zeta.
  set (src := mkFileReader _ _ _).
  set (rejected := bool_decide _ && SaveRejected format).
  set (p := fileFunc src dataFileIndex dataFile rejected).
  set (w1 := match progressFn with Some pf => _ | None => w end).
  assert (w1 = w ∨
          ∃ pf src rej, progressFn = Some pf ∧ 0 < totalBytes ∧
                        total src = default 0 (fileSizes !! dataFileIndex) ∧
                        w1 = reportBytes pf totalBytes
                               (progressCalls (fileFunc src dataFileIndex dataFile rej)) 0 w)
    as Hw1.
  { subst w1. destruct progressFn as [pf|]; [|by left].
    destruct (bool_decide (totalBytes > 0)) eqn:Hpos.
    - apply bool_decide_eq_true in Hpos. rewrite andb_true_r.
      rewrite bool_decide_eq_true_2 by (by eexists).
      right. exists pf, src, rejected.
      split; [done|]. split; [lia|]. split; done.
    - rewrite andb_false_r. by left. }
  set (r1 := if rejected then _ else _).
  assert (progress r1.1 = progress w1 ∧ readBytes r1.1 = readBytes w1) as [Hp1 Hb1].
  { subst r1. destruct rejected.
    - destruct (saveRejected_world dataFile (rejectedRows p) w1) as (Hp & Hb & _).
      by destruct (parseError p), (saveRejected dataFile (rejectedRows p) w1).2.
    - by destruct (parseError p). }
  clearbody r1 w1. destruct r1 as [w2 [err|]]; cbn [fst snd] in *.
  - intros [= <- <-]. exists w1, []. rewrite app_nil_r.
    split; [done|]. split; [done|]. split; [done|]. split; [by left|done].
  - destruct progressFn as [pf|].
    2:{ intros [= <- <-]. exists w1, []. rewrite app_nil_r.
        split; [done|]. split; [done|]. split; [done|]. split; [by left|].
        by intros _ _ [? [=]]. }
    destruct (bool_decide (totalBytes = 0)) eqn:Hz.
    + apply bool_decide_eq_true in Hz. rewrite andb_true_r.
      rewrite bool_decide_eq_true_2 by (by eexists).
      intros [= <- <-]. cbn [progress readBytes].
      exists w1, [fraction32 currentFile nFiles]. rewrite Hp1.
      split; [done|]. split; [done|]. split; [done|]. split; [|done].
      right. split; [done|]. split; [by eexists|done].
    + apply bool_decide_eq_false in Hz. rewrite andb_false_r.
      intros [= <- <-]. exists w1, []. rewrite app_nil_r.
      split; [done|]. split; [done|]. split; [done|]. split; [by left|].
      by intros _ ?.
Qed.

Lemma readFiles_by_count format pf fileSizes nFiles currentFile dataFiles w w' r :
  readFiles format (Some pf) 0 fileSizes nFiles currentFile dataFiles w = (w', r) →
  ∃ m, (m ≤ length dataFiles)%nat ∧
       progress w'
       = progress w ++ ((λ k, fraction32 (currentFile + Z.of_nat (S k)) nFiles) <$> seq 0 m) ∧
       (r = None → m = length dataFiles).
Proof.
  revert currentFile w. induction dataFiles as [|[idx f] rest IH]; intros currentFile w.
  - intros [= <- <-]. exists 0%nat. rewrite app_nil_r. done.
  - cbn [Reader.readFiles].
    destruct (readFile _ _ _ _ _ _ _ _ _) as [w1 r1] eqn:Hf.
    apply readFile_progress in Hf as (w0 & extra & Hp & _ & Hw0 & Hextra & Hnone).
    destruct Hw0 as [->|(? & ? & ? & _ & ? & _)]; [|lia].
    destruct r1 as [err|].
    + intros [= <- <-]. destruct Hextra as [->|(_ & _ & ->)].
      * exists 0%nat. split; [simpl; lia|]. split; [by rewrite Hp|done].
      * exists 1%nat. split; [simpl; lia|]. split; [by rewrite Hp|done].
    + assert (is_Some (Some pf)) as Hpf by (by eexists).
      specialize (Hnone eq_refl eq_refl Hpf) as ->.
      intros H. apply IH in H as (m & Hm & Hp2 & Hall).
      exists (S m). split; [simpl; lia|]. split; [|intros Hr; by rewrite (Hall Hr)].
      rewrite Hp2, Hp, <- app_assoc. f_equal. cbn [seq fmap list_fmap]. f_equal.
      rewrite <- fmap_S_seq, <- list_fmap_compose. apply list_fmap_ext.
      intros i k _. cbn [compose]. f_equal. lia.
Qed.

Lemma fetchSizes_abandoned dataFiles totalBytes fileSizes id f sz :
  (id, f) ∈ dataFiles → sizeOf f = Some sz → sz ≤ 0 →
  (∃ err, fetchSizes dataFiles totalBytes fileSizes = Err err) ∨
  (∃ sizes, fetchSizes dataFiles totalBytes fileSizes = Ok (0, sizes)).
Proof.
  intros Hin Hsz Hbad. revert totalBytes fileSizes.
  induction dataFiles as [|[id' f'] rest IH]; intros totalBytes fileSizes.
  { by apply elem_of_nil in Hin. }
  cbn [Reader.fetchSizes].
  destruct (ExportStorageConfFromURI f') as [c|err] eqn:Hc; [|left; by eexists].
  destruct (MakeExportStorage c) as [es|err] eqn:Hes; [|left; by eexists].
  cbv zeta. case_bool_decide as Hle; [right; by eexists|].
  apply elem_of_cons in Hin as [[= -> ->]|Hin]; [|by apply IH].
  unfold ReaderLog.sizeOf in Hsz. rewrite Hc, Hes in Hsz. injection Hsz as <-. lia.
Qed.

(** X16. Progress by file count, in whatever order the two loops of
    [readInputFiles] visit the data files. When the size of some data file
    comes back as zero or less, [readInputFiles] gives up on byte counts: the
    values it hands to [progressFn] are [float32(k) / float32(len(dataFiles))]
    for k = 1, 2, ..., one after each file that was read without error, all
    of them when it returns nil, and the value after the last file is 1. *)
Theorem progress_by_file_count sizeOrder readOrder format pf :
  sizeOrder ≡ₚ readOrder →
  (∃ id f sz, (id, f) ∈ readOrder ∧ sizeOf f = Some sz ∧ sz ≤ 0) →
  ∃ m, (m ≤ length readOrder)%nat ∧
       progress (readInputFilesIn sizeOrder readOrder format (Some pf)).1
       = (λ k, fraction32 (Z.of_nat (S k)) (Z.of_nat (length readOrder))) <$> seq 0 m ∧
       ((readInputFilesIn sizeOrder readOrder format (Some pf)).2 = None →
        m = length readOrder) ∧
       ∃ q, fraction32 (Z.of_nat (length readOrder)) (Z.of_nat (length readOrder))
            = IEEE.Finite q ∧ (q == 1)%Q.
Proof.
  intros Hperm (id & f & sz & Hin & Hsz & Hbad).
  assert (0 < Z.of_nat (length readOrder)) as Hlen.
  { destruct readOrder; [by apply elem_of_nil in Hin|simpl; lia]. }
  assert (∃ q, fraction32 (Z.of_nat (length readOrder)) (Z.of_nat (length readOrder))
               = IEEE.Finite q ∧ (q == 1)%Q) as Hlast.
  { eexists. split; [apply fraction32_finite; lia|by apply quotient32_full]. }
  assert ((id, f) ∈ sizeOrder) as Hin' by (by rewrite Hperm).
  unfold ReaderLog.readInputFilesIn.
  destruct (fetchSizes_abandoned sizeOrder 0 ∅ id f sz Hin' Hsz Hbad)
    as [[err ->]|[sizes ->]].
  - exists 0%nat. split; [lia|]. split; [done|]. split; [done|exact Hlast].
  - destruct (readFiles _ _ _ _ _ _ _ _) as [w' r] eqn:Hrun.
    apply readFiles_by_count in Hrun as (m & Hm & Hp & Hall).
    exists m. split; [done|]. split; [|split; [done|exact Hlast]].
    simpl in *. rewrite Hp. apply list_fmap_ext. intros i k _. by rewrite Z.add_0_l.
Qed.

Local Abbreviation totalSize :=
  (totalSize conf storage ExportStorageConfFromURI MakeExportStorage Size).

Lemma chain_weaken lo lo' l : lo' ≤ lo → chain Z.le lo l → chain Z.le lo' l.
Proof. destruct l as [|x l]; [done|]. simpl. intros ? [? ?]. split; [lia|done]. Qed.

Lemma chain_app lo mid l1 l2 :
  lo ≤ mid → chain Z.le lo l1 → Forall (λ x, x ≤ mid) l1 → chain Z.le mid l2 →
  chain Z.le lo (l1 ++ l2).
Proof.
  revert lo. induction l1 as [|x l1 IH]; intros lo Hlo H1 Hall H2.
  - by apply (chain_weaken mid).
  - destruct H1 as [Hx H1]. apply Forall_cons in Hall as [Hxm Hall].
    split; [done|]. by apply IH.
Qed.

(** The byte reports of one parser: [readBytes] grows by the distance the
    counter covered up to its last report, and the running totals that are
    reported go up from the old [readBytes] to the new one. *)
Lemma reportBytes_running pf totalBytes size prev calls lastReported w :
  counted size prev calls → lastReported ≤ prev → prev ≤ size →
  ∃ rbs,
    progress (reportBytes pf totalBytes calls lastReported w)
    = progress w ++ ((λ rb, fraction32 rb totalBytes) <$> rbs) ∧
    chain Z.le (readBytes w) rbs ∧
    Forall (λ rb, rb ≤ readBytes (reportBytes pf totalBytes calls lastReported w)) rbs ∧
    readBytes w ≤ readBytes (reportBytes pf totalBytes calls lastReported w) ∧
    readBytes (reportBytes pf totalBytes calls lastReported w)
      ≤ readBytes w - lastReported + size.
Proof.
  revert prev lastReported w.
  induction calls as [|[finished n] rest IH]; intros prev last w Hc Hlast Hprev.
  - exists []. simpl. rewrite app_nil_r. repeat split; [constructor|lia..].
  - destruct Hc as [Hn Hc]. cbn [reportBytes]. cbv zeta.
    destruct (finished || bool_decide (n - last > progressBytes)).
    + set (w1 := mkWorld _ _ _).
      destruct (IH n n w1 Hc) as (rbs & Hp & Hch & Hall & Hle & Hub); [lia..|].
      exists ((readBytes w + (n - last)) :: rbs). subst w1. cbn [progress readBytes] in *.
      split; [by rewrite Hp, <- app_assoc|]. split; [split; [lia|done]|].
      split; [constructor; [lia|done]|]. split; lia.
    + destruct (IH n last w Hc) as (rbs & Hp & Hch & Hall & Hle & Hub); [lia..|].
      by exists rbs.
Qed.

(** The sizes the second loop looks up, summed over the files. *)
Local Abbreviation lookedUp fileSizes dataFiles :=
  (foldr (λ (p : Z * string) acc, default 0 (fileSizes !! p.1) + acc) 0 dataFiles).

Lemma readFiles_by_bytes format pf totalBytes (fileSizes : gmap Z Z) nFiles currentFile
    dataFiles w w' r :
  (∀ src idx f rej,
     0 ≤ total src → counted (total src) 0 (progressCalls (fileFunc src idx f rej))) →
  0 < totalBytes →
  Forall (λ p : Z * string, 0 ≤ default 0 (fileSizes !! p.1)) dataFiles →
  readBytes w + lookedUp fileSizes dataFiles ≤ totalBytes →
  readFiles format (Some pf) totalBytes fileSizes nFiles currentFile dataFiles w = (w', r) →
  ∃ rbs, progress w' = progress w ++ ((λ rb, fraction32 rb totalBytes) <$> rbs) ∧
         chain Z.le (readBytes w) rbs ∧ Forall (λ rb, rb ≤ totalBytes) rbs.
Proof.
  intros Hcount Hpos. revert currentFile w.
  induction dataFiles as [|[idx f] rest IH]; intros currentFile w Hsizes Hsum.
  - intros [= <- <-]. exists []. rewrite app_nil_r. repeat split; constructor.
  - cbn [Reader.readFiles]. cbn [foldr fst] in Hsum.
    apply Forall_cons in Hsizes as [Hsz Hsizes]. cbn [fst] in Hsz.
    assert (0 ≤ lookedUp fileSizes rest) as Hrest.
    { clear -Hsizes. induction Hsizes as [|p l Hp _ IHl]; simpl; lia. }
    destruct (readFile _ _ _ _ _ _ _ _ _) as [w1 r1] eqn:Hf.
    apply readFile_progress in Hf as (w0 & extra & Hp & Hb & Hw0 & Hextra & _).
    destruct Hextra as [->|(? & _)]; [|lia]. rewrite app_nil_r in Hp.
    assert (∃ rbs1, progress w1 = progress w ++ ((λ rb, fraction32 rb totalBytes) <$> rbs1) ∧
                    chain Z.le (readBytes w) rbs1 ∧
                    Forall (λ rb, rb ≤ readBytes w1) rbs1 ∧
                    readBytes w ≤ readBytes w1 ∧
                    readBytes w1 ≤ readBytes w + default 0 (fileSizes !! idx))
      as (rbs1 & Hp1 & Hch1 & Hall1 & Hle1 & Hub1).
    { destruct Hw0 as [->|(pf' & src & rej & _ & _ & Hsrc & ->)].
      - exists []. rewrite app_nil_r, Hb. repeat split; [done|constructor|lia..].
      - rewrite Hp, Hb. rewrite <- Hsrc.
        destruct (reportBytes_running pf' totalBytes (total src) 0
                    (progressCalls (fileFunc src idx f rej)) 0 w)
          as (rbs & ? & ? & ? & ? & ?); [apply Hcount; lia|lia|lia|].
        exists rbs. repeat split; try done. lia. }
    destruct r1 as [err|].
    + intros [= <- <-]. exists rbs1. split; [done|]. split; [done|].
      eapply Forall_impl; [exact Hall1|]. simpl. intros rb ?. lia.
    + intros H. apply IH in H as (rbs2 & Hp2 & Hch2 & Hall2); [|done|lia].
      exists (rbs1 ++ rbs2). split; [by rewrite Hp2, Hp1, fmap_app, <- app_assoc|].
      split; [by apply (chain_app _ (readBytes w1))|].
      apply Forall_app. split; [|done].
      eapply Forall_impl; [exact Hall1|]. simpl. intros rb ?. lia.
Qed.

(** The first loop when every storage opens and every size is positive. *)
Lemma fetchSizes_known dataFiles totalBytes fileSizes :
  NoDup dataFiles.*1 →
  (∀ id f, (id, f) ∈ dataFiles → ∃ sz, sizeOf f = Some sz ∧ 0 < sz) →
  ∃ sizes,
    fetchSizes dataFiles totalBytes fileSizes = Ok (totalBytes + totalSize dataFiles, sizes) ∧
    (∀ id f, (id, f) ∈ dataFiles → sizes !! id = sizeOf f) ∧
    (∀ id, id ∉ dataFiles.*1 → sizes !! id = fileSizes !! id).
Proof.
  revert totalBytes fileSizes.
  induction dataFiles as [|[id f] rest IH]; intros totalBytes fileSizes Hnd Hall.
  - exists fileSizes. simpl. rewrite Z.add_0_r. split; [done|]. split; [|done].
    intros ? ? H. by apply elem_of_nil in H.
  - rewrite fmap_cons in Hnd. apply NoDup_cons in Hnd as [Hid Hnd]. cbn [fst] in Hid.
    destruct (Hall id f) as (sz & Hsz & Hpos); [by left|].
    cbn [Reader.fetchSizes ReaderLog.totalSize foldr snd]. rewrite Hsz.
    assert (Hsz' := Hsz). unfold ReaderLog.sizeOf in Hsz'.
    destruct (ExportStorageConfFromURI f) as [c|] eqn:Hc; [|done].
    destruct (MakeExportStorage c) as [es|] eqn:Hes; [|done].
    injection Hsz' as Hsz'. cbv zeta. rewrite Hsz'.
    rewrite bool_decide_eq_false_2 by lia.
    destruct (IH (totalBytes + sz) (<[id:=sz]> fileSizes) Hnd) as (sizes & Hf & Hin & Hout).
    { intros id' f' H. apply (Hall id' f'). by right. }
    exists sizes. split.
    { rewrite Hf. do 2 f_equal. unfold ReaderLog.totalSize. simpl. lia. }
    split.
    + intros id' f' H. apply elem_of_cons in H as [[= -> ->]|H]; [|by apply Hin].
      by rewrite (Hout id Hid), lookup_insert_eq.
    + intros id' H. rewrite fmap_cons, not_elem_of_cons in H. destruct H as [Hne H].
      cbn [fst] in Hne. rewrite (Hout id' H). by rewrite lookup_insert_ne.
Qed.

Lemma lookedUp_totalSize (sizes : gmap Z Z) dataFiles :
  (∀ id f, (id, f) ∈ dataFiles → sizes !! id = sizeOf f) →
  lookedUp sizes dataFiles = totalSize dataFiles.
Proof.
  induction dataFiles as [|[id f] rest IH]; intros H; [done|].
  unfold ReaderLog.totalSize. simpl. rewrite (H id f) by (by left).
  f_equal. apply IH. intros id' f' Hin. apply (H id' f'). by right.
Qed.

Lemma totalSize_pos dataFiles :
  dataFiles ≠ [] →
  (∀ id f, (id, f) ∈ dataFiles → ∃ sz, sizeOf f = Some sz ∧ 0 < sz) →
  0 < totalSize dataFiles.
Proof.
  intros Hne Hall.
  assert (0 ≤ totalSize dataFiles ∧ (dataFiles ≠ [] → 0 < totalSize dataFiles)) as [_ H];
    [|by apply H].
  clear Hne. induction dataFiles as [|[id f] rest IH]; [done|].
  destruct (Hall id f) as (sz & Hsz & Hpos); [by left|].
  destruct IH as [IH _]; [intros id' f' Hin; apply (Hall id' f'); by right|].
  unfold ReaderLog.totalSize in *. simpl. rewrite Hsz. simpl. lia.
Qed.

Lemma fractions_ascend totalBytes lo rbs :
  0 < totalBytes → 0 ≤ lo →
  chain Z.le lo rbs → Forall (λ rb, rb ≤ totalBytes) rbs →
  ∃ qs, (λ rb, fraction32 rb totalBytes) <$> rbs = IEEE.Finite <$> qs ∧
        chain Qle (round32 (round32 (inject_Z lo) / round32 (inject_Z totalBytes))) qs ∧
        Forall (λ q, (q <= 1)%Q) qs.
Proof.
  intros Hpos. revert lo. induction rbs as [|rb rest IH]; intros lo Hlo Hch Hall.
  - by exists [].
  - destruct Hch as [Hrb Hch]. apply Forall_cons in Hall as [Hub Hall].
    destruct (IH rb) as (qs & Hqs & Hchq & Hallq); [lia|done..|].
    destruct (quotient32_bounds lo rb totalBytes) as (_ & Hle & H1); [done..|].
    eexists (_ :: qs). rewrite !fmap_cons, Hqs, fraction32_finite by lia.
    split; [done|]. split; [by split|by constructor].
Qed.

Lemma totalSize_perm l1 l2 : l1 ≡ₚ l2 → totalSize l1 = totalSize l2.
Proof.
  unfold ReaderLog.totalSize.
  induction 1 as [|x l l' _ IH|x y l|l l' l'' _ IH1 _ IH2]; simpl; lia.
Qed.


End FilesLog.

Lemma progress_by_file_count_witness :
  ∃ m, (m ≤ length toyFilesSwapped)%nat ∧
       progress (toyRead 0 [] (atEnd 4) toyFiles toyFilesSwapped
                   (mkFormat IOFileFormat_CSV IOFileFormat_Auto false)
                   (Some (λ pct, None))).1
       = (λ k, fraction32 (Z.of_nat (S k)) (Z.of_nat (length toyFilesSwapped))) <$> seq 0 m ∧
       ((toyRead 0 [] (atEnd 4) toyFiles toyFilesSwapped
           (mkFormat IOFileFormat_CSV IOFileFormat_Auto false)
           (Some (λ pct, None))).2 = None →
        m = length toyFilesSwapped) ∧
       ∃ q, fraction32 (Z.of_nat (length toyFilesSwapped))
                       (Z.of_nat (length toyFilesSwapped))
            = IEEE.Finite q ∧ (q == 1)%Q.
Proof.
  apply (progress_by_file_count Toy.urlParse string string
           (λ dataFile, Ok dataFile) (λ conf, Ok conf)
           (λ es, (0, None)) (λ es, Ok "1,x;2,y;")
           (λ es basename content, None) (λ input, Ok input) (λ input, input)
           (λ src dataFileIndex dataFile rejected,
              mkParse (if rejected then [] else []) (atEnd 4 src) None)
           toyFiles toyFilesSwapped
           (mkFormat IOFileFormat_CSV IOFileFormat_Auto false) (λ pct, None)).
  - apply perm_swap.
  - exists 0, "a.csv", 0. split; [right; by left|]. split; [reflexivity|lia].
Defined.


End ReaderLogFacts.

(** * The choice of the input converter *)
Module ConverterFacts.
Import Reader Converter.

Section ReadersFacts.
Variable TableDescriptor : Type.
Variable conf : Type.
Variable ExportStorageConfFromURI : string → result conf.
Variable Provider : conf → ExportStorageProvider.
Variable inputConverter : Type.
Variable newWorkloadReader : option TableDescriptor → inputConverter.
Variable newCSVInputReader : option TableDescriptor → list string → inputConverter.
Variable newMysqloutfileReader : option TableDescriptor → result inputConverter.
Variable newMysqldumpReader : list (string * ImportTable TableDescriptor) → result inputConverter.
Variable newPgCopyReader : option TableDescriptor → result inputConverter.
Variable newPgDumpReader : list (string * ImportTable TableDescriptor) → result inputConverter.
Variable formatString : option IOFileFormat_FileFormat → string.
Variable formatNumber : option IOFileFormat_FileFormat → string.

Local Abbreviation isWorkload := (isWorkload conf ExportStorageConfFromURI Provider).
Local Abbreviation workloadURI := (workloadURI conf ExportStorageConfFromURI Provider).
Local Abbreviation makeInputConverter :=
  (makeInputConverter TableDescriptor conf ExportStorageConfFromURI Provider inputConverter
     newWorkloadReader newCSVInputReader newMysqloutfileReader newMysqldumpReader
     newPgCopyReader newPgDumpReader formatString formatNumber).

Lemma isWorkload_all uris : isWorkload uris = true ↔ Forall workloadURI uris.
Proof.
  induction uris as [|file rest IH]; simpl.
  - split; [constructor|done].
  - rewrite Forall_cons, <- IH. unfold Converter.workloadURI.
    destruct (ExportStorageConfFromURI file) as [c|err].
    + case_decide as Hp.
      * split; [done|]. intros [(c' & [= <-] & ?) _]. done.
      * split; [|by intros [_ ?]]. intros H. split; [|done]. exists c.
        split; [done|]. by destruct (decide (Provider c = ExportStorageProvider_Workload)).
    + split; [done|]. by intros [(c' & [=] & _) _].
Qed.

(** X20. The choice [makeInputConverter] makes. A converter is returned only
    when [spec.Tables] has exactly one entry with a table descriptor, or the
    format is Mysqldump or PgDump. For CSV with such a table, the workload
    reader is chosen exactly when every URI of [spec.Uri] parses to a
    configuration of the workload provider, so also when there is no URI at
    all, and the CSV reader otherwise. The order in which the loop visits the
    URIs of the map does not change the result. *)
Theorem converter_choice Tables format uris :
  (∀ c, makeInputConverter Tables format uris = Ok c →
     (∃ name table d, Tables = [(name, table)] ∧ Desc table = Some d) ∨
     format = Some IOFileFormat_Mysqldump ∨ format = Some IOFileFormat_PgDump) ∧
  (∀ name table d, Tables = [(name, table)] → Desc table = Some d →
     (Forall workloadURI uris →
      makeInputConverter Tables (Some IOFileFormat_CSV) uris
      = Ok (newWorkloadReader (Some d))) ∧
     (¬ Forall workloadURI uris →
      makeInputConverter Tables (Some IOFileFormat_CSV) uris
      = Ok (newCSVInputReader (Some d) (TargetCols table)))) ∧
  (∀ uris', uris ≡ₚ uris' →
     makeInputConverter Tables format uris' = makeInputConverter Tables format uris).
Proof.
  split; [|split].
  - intros c. unfold Converter.makeInputConverter.
    destruct Tables as [|[name table] [|? ?]]; simpl.
    + destruct format as [[]|]; simpl; try done; auto.
    + destruct (Desc table) as [d|] eqn:Hd.
      * intros _. left. by exists name, table, d.
      * destruct format as [[]|]; simpl; try done; auto.
    + destruct format as [[]|]; simpl; try done; auto.
  - intros name table d -> Hd. unfold Converter.makeInputConverter. rewrite Hd. simpl.
    split; intros H.
    + apply isWorkload_all in H. by rewrite H.
    + destruct (isWorkload uris) eqn:Hw; [|done]. by apply isWorkload_all in Hw.
  - intros uris' Hperm. unfold Converter.makeInputConverter.
    assert (isWorkload uris' = isWorkload uris) as ->; [|done].
    apply eq_true_iff_eq. rewrite !isWorkload_all. by rewrite Hperm.
Qed.

End ReadersFacts.

End ConverterFacts.

(** * PAUSE, RESUME and CANCEL JOBS *)
Module ControlJobsFacts.
Import ControlJobs.

Section RegistryFacts.
Variable StatusPaused : string.
Variable StatusRunning : string.
Variable StatusCanceled : string.
Variable registry : Type.
Variable PauseRequested : registry → Z → registry * option error.
Variable Resume : registry → Z → registry * option error.
Variable CancelRequested : registry → Z → registry * option error.
Variable QueryRowEx : registry → Z → registry * result (list Datum).
Variable WithMaxAttempts : (registry → registry * exit) → registry → registry * exit.
Variable expectedDInt : Datum → string.
Variable unhandledStatus : string → string.
Variable timedOut : Z → string.

Local Abbreviation command :=
  (command StatusPaused StatusRunning StatusCanceled registry PauseRequested Resume
     CancelRequested QueryRowEx WithMaxAttempts unhandledStatus timedOut).
Local Abbreviation startExec :=
  (startExec StatusPaused StatusRunning StatusCanceled registry PauseRequested Resume
     CancelRequested QueryRowEx WithMaxAttempts expectedDInt unhandledStatus timedOut).
Local Abbreviation issued := (issued StatusPaused StatusRunning StatusCanceled).

Lemma nonNull_null values rest : nonNull (Ok (DNull :: values) :: rest) = nonNull rest.
Proof.
  unfold nonNull, firstColumns. simpl. by rewrite filter_cons_False by (by intros H; apply H).
Qed.

Lemma nonNull_int jobID values rest :
  nonNull (Ok (DInt jobID :: values) :: rest) = DInt jobID :: nonNull rest.
Proof. unfold nonNull, firstColumns. simpl. by rewrite filter_cons_True. Qed.

(** One job: [numRows] is left to the caller; a command that went through
    made the calls [issued] lists; one that did not made calls of which only
    the last returned an error, the error of the command. *)
Lemma command_calls desiredStatus jobID (n n' : node registry) r :
  command desiredStatus jobID n = (n', r) →
  numRows n' = numRows n ∧
  match r with
  | Some None => calls n' = calls n ++ issued desiredStatus jobID
  | Some (Some err) =>
      ∃ tail, calls n' = calls n ++ tail ∧
              ∀ c e, c ∈ tail → returned c = Some e → e = err
  | None =>
      ∃ tail, calls n' = calls n ++ tail ∧ ∀ c, c ∈ tail → returned c = None
  end.
Proof.
  unfold ControlJobs.command, ControlJobs.issued.
  destruct (decide (desiredStatus = StatusPaused)) as [Hp|Hp].
  { destruct (PauseRequested (reg n) jobID) as [r1 [err|]].
    - intros [= <- <-]. split; [done|]. eexists. split; [done|].
      intros c e Hin Hret. apply list_elem_of_singleton in Hin as ->. by injection Hret.
    - destruct (WithMaxAttempts _ r1) as [r2 [|err|]]; intros [= <- <-]; (split; [done|]).
      + by rewrite <- app_assoc.
      + exists [mkCall OpPauseRequested jobID None; mkCall OpAwaitPaused jobID (Some err)].
        split; [by rewrite <- app_assoc|].
        intros c e Hin Hret. apply elem_of_cons in Hin as [->|Hin]; [done|].
        apply list_elem_of_singleton in Hin as ->. by injection Hret.
      + eexists. split; [done|]. intros c Hin.
        by apply list_elem_of_singleton in Hin as ->. }
  destruct (decide (desiredStatus = StatusRunning)) as [Hr|Hr].
  { destruct (Resume (reg n) jobID) as [r1 [err|]]; intros [= <- <-]; (split; [done|]).
    - eexists. split; [done|]. intros c e Hin Hret.
      apply list_elem_of_singleton in Hin as ->. by injection Hret.
    - done. }
  destruct (decide (desiredStatus = StatusCanceled)) as [Hc|Hc].
  { destruct (CancelRequested (reg n) jobID) as [r1 [err|]]; intros [= <- <-];
      (split; [done|]).
    - eexists. split; [done|]. intros c e Hin Hret.
      apply list_elem_of_singleton in Hin as ->. by injection Hret.
    - done. }
  intros [= <- <-]. split; [done|]. exists []. rewrite app_nil_r. split; [done|].
  intros c e Hin. by apply elem_of_nil in Hin.
Qed.

(** X21. What [startExec] does with the rows of job ids. The jobs whose
    command went through are, in row order, the integers at the head of the
    non-NULL first columns; [numRows] grows by their number, so a NULL job id
    is skipped and not counted; for each of them the registry was called as
    the desired status asks, once, and for PAUSE the wait for the paused
    state followed the request. A call that returns an error, the wait
    included, ends the run with that error, and its job is not counted. When
    [startExec] returns nil every non-NULL first column was an integer whose
    job was commanded and counted, and no call returned an error. *)
Theorem startExec_counts_commanded_jobs desiredStatus rows (n : node registry) :
  ∃ done tail,
    calls (startExec desiredStatus rows n).1
    = calls n ++ concat (issued desiredStatus <$> done) ++ tail ∧
    numRows (startExec desiredStatus rows n).1 = numRows n + Z.of_nat (length done) ∧
    (DInt <$> done) `prefix_of` nonNull rows ∧
    ((startExec desiredStatus rows n).2 = Completes →
     tail = [] ∧ DInt <$> done = nonNull rows) ∧
    (∀ c e, c ∈ tail → returned c = Some e →
       (startExec desiredStatus rows n).2 = Fails e).
Proof.
  revert n. induction rows as [|row rest IH]; intros n.
  - exists [], []. simpl. rewrite app_nil_r. repeat split; try done; [lia|].
    intros c e Hc. by apply elem_of_nil in Hc.
  - destruct row as [[|d values]|err].
    + exists [], []. simpl. rewrite app_nil_r.
      repeat split; try done; [lia|apply prefix_nil|].
      intros c e Hc. by apply elem_of_nil in Hc.
    + destruct d as [|jobID|str|].
      * cbn [ControlJobs.startExec]. destruct (IH n) as (done & tail & Hc & Hn & Hp & Hall & Hf).
        exists done, tail. by rewrite nonNull_null.
      * cbn [ControlJobs.startExec].
        destruct (command desiredStatus jobID n) as [n1 r] eqn:Hcmd.
        apply command_calls in Hcmd as [Hnum Hcalls].
        rewrite nonNull_int.
        destruct r as [[err|]|].
        -- destruct Hcalls as (tail & Hc & Hf). exists [], tail. simpl.
           split; [done|]. split; [lia|]. split; [apply prefix_nil|].
           split; [done|]. intros c e Hin Hr. by rewrite (Hf c e Hin Hr).
        -- destruct (IH (mkNode (reg n1) (numRows n1 + 1) (calls n1)))
             as (done & tail & Hc & Hn & Hp & Hall & Hf).
           exists (jobID :: done), tail. cbn [calls numRows] in *.
           split; [rewrite Hc, Hcalls, fmap_cons; simpl; by rewrite <- !app_assoc|].
           split; [rewrite Hn, Hnum; simpl; lia|].
           split; [rewrite fmap_cons; by apply prefix_cons|].
           split; [|done]. intros Hx. destruct (Hall Hx) as [-> Heq].
           split; [done|]. by rewrite fmap_cons, Heq.
        -- destruct Hcalls as (tail & Hc & Hf). exists [], tail. simpl.
           split; [done|]. split; [lia|]. split; [apply prefix_nil|].
           split; [done|]. intros c e Hin Hr. by rewrite (Hf c Hin) in Hr.
      * exists [], []. simpl. rewrite app_nil_r.
        repeat split; try done; [lia|apply prefix_nil|].
        intros c e Hc. by apply elem_of_nil in Hc.
      * exists [], []. simpl. rewrite app_nil_r.
        repeat split; try done; [lia|apply prefix_nil|].
        intros c e Hc. by apply elem_of_nil in Hc.
    + exists [], []. simpl. rewrite app_nil_r.
      repeat split; try done; [lia|apply prefix_nil|].
      intros c e Hc. by apply elem_of_nil in Hc.
Qed.

(** X22. A desired status that is none of paused, running and canceled:
    [startExec] calls nothing and counts nothing, and it returns nil exactly
    when every row has a NULL job id; the first row with another job id ends
    it with an error. *)
Theorem unhandled_status_commands_nothing desiredStatus rows (n : node registry) :
  desiredStatus ≠ StatusPaused → desiredStatus ≠ StatusRunning →
  desiredStatus ≠ StatusCanceled →
  (startExec desiredStatus rows n).1 = n ∧
  ((startExec desiredStatus rows n).2 = Completes ↔
   Forall (λ row, ∃ values, row = Ok (DNull :: values)) rows).
Proof.
  intros Hp Hr Hc. induction rows as [|row rest [IH1 IH2]]; [by split|].
  destruct row as [[|d values]|err]; simpl.
  - split; [done|]. split; [done|]. intros H. apply Forall_cons in H as [(? & [=]) _].
  - destruct d as [|jobID|str|].
    + split; [done|]. rewrite IH2, Forall_cons. split; [|by intros [_ ?]].
      intros H. split; [by eexists|done].
    + unfold ControlJobs.command. rewrite !decide_False by done.
      split; [done|]. split; [done|]. intros H. apply Forall_cons in H as [(? & [=]) _].
    + split; [done|]. split; [done|]. intros H. apply Forall_cons in H as [(? & [=]) _].
    + split; [done|]. split; [done|]. intros H. apply Forall_cons in H as [(? & [=]) _].
  - split; [done|]. split; [done|]. intros H. apply Forall_cons in H as [(? & [=]) _].
Qed.

End RegistryFacts.

(** A registry that accepts every request, in which no job ever reaches the
    paused state, and a retry that gives up after one attempt: PAUSE JOBS on
    the jobs 7 and 9 requests the pause of job 7, waits, and returns the
    error of the wait; job 7 is not counted and job 9 is not touched. RESUME
    JOBS on the same rows, one of them NULL, counts 2. *)
Example startExec_runs :
  startExec "paused" "running" "canceled" unit
    (λ r id, (r, None)) (λ r id, (r, None)) (λ r id, (r, None))
    (λ r id, (r, Ok [DString "pause-requested"])) (λ fn r, fn r)
    (λ d, "expected *DInt") (λ st, "unhandled status") (λ id, "timed out")
    "paused" [Ok [DInt 7]; Ok [DNull]; Ok [DInt 9]] (mkNode () 0 [])
  = (mkNode () 0 [mkCall OpPauseRequested 7 None;
                  mkCall OpAwaitPaused 7 (Some (ErrorString "timed out"))],
     Fails (ErrorString "timed out"))
  ∧ startExec "paused" "running" "canceled" unit
      (λ r id, (r, None)) (λ r id, (r, None)) (λ r id, (r, None))
      (λ r id, (r, Ok [DString "pause-requested"])) (λ fn r, fn r)
      (λ d, "expected *DInt") (λ st, "unhandled status") (λ id, "timed out")
      "running" [Ok [DInt 7]; Ok [DNull]; Ok [DInt 9]] (mkNode () 0 [])
    = (mkNode () 2 [mkCall OpResume 7 None; mkCall OpResume 9 None], Completes).
Proof. split; reflexivity. Qed.

Lemma unhandled_status_commands_nothing_witness :
  (startExec "paused" "running" "canceled" unit
     (λ r id, (r, None)) (λ r id, (r, None)) (λ r id, (r, None))
     (λ r id, (r, Ok [DString "paused"])) (λ fn r, fn r)
     (λ d, "expected *DInt") (λ st, "unhandled status") (λ id, "timed out")
     "succeeded" [Ok [DNull]; Ok [DInt 9]] (mkNode () 0 [])).1 = mkNode () 0 [] ∧
  ((startExec "paused" "running" "canceled" unit
      (λ r id, (r, None)) (λ r id, (r, None)) (λ r id, (r, None))
      (λ r id, (r, Ok [DString "paused"])) (λ fn r, fn r)
      (λ d, "expected *DInt") (λ st, "unhandled status") (λ id, "timed out")
      "succeeded" [Ok [DNull]; Ok [DInt 9]] (mkNode () 0 [])).2 = Completes ↔
   Forall (λ row, ∃ values, row = Ok (DNull :: values)) [Ok [DNull]; Ok [DInt 9]]).
Proof.
  apply (unhandled_status_commands_nothing "paused" "running" "canceled" unit
           (λ r id, (r, None)) (λ r id, (r, None)) (λ r id, (r, None))
           (λ r id, (r, Ok [DString "paused"])) (λ fn r, fn r)
           (λ d, "expected *DInt") (λ st, "unhandled status") (λ id, "timed out")
           "succeeded" [Ok [DNull]; Ok [DInt 9]] (mkNode () 0 [])); discriminate.
Defined.

End ControlJobsFacts.

(** * The fake advisory-lock manager *)
Module LockManagerFacts.
Import LockManager.

Section TxnsFacts.
Variable Txn : Type.
Variable ID : Txn → string.

Local Abbreviation NewFakeLockManager := (NewFakeLockManager Txn).
Local Abbreviation upsertLock := (upsertLock Txn).
Local Abbreviation AcquireExclusive := (AcquireExclusive Txn).
Local Abbreviation AcquireShared := (AcquireShared Txn ID).
Local Abbreviation TryAcquireExclusive := (TryAcquireExclusive Txn).
Local Abbreviation unlockFinalized := (unlockFinalized Txn).
Local Abbreviation step := (step Txn ID).
Local Abbreviation run := (run Txn ID).

(** The lock a call makes when the key has no entry in the map. *)
Local Abbreviation held t k :=
  (mkFakeLock (Some t) ∅ k (Some t) (mkRWMutex true 0) true).
Local Abbreviation read t k :=
  (mkFakeLock None {[ID t := t]} k (Some t) (mkRWMutex false 1) false).

Lemma AcquireExclusive_unregistered t k (fm : FakeLockManager Txn) :
  locks fm = ∅ →
  AcquireExclusive t k fm
  = (mkFakeLockManager ∅ (heap fm ++ [held t k]), Lease (length (heap fm))).
Proof.
  intros Hl. unfold LockManager.AcquireExclusive, LockManager.upsertLock.
  rewrite Hl, lookup_empty. cbn [fst snd heap locks].
  rewrite lookup_app_r by done. rewrite Nat.sub_diag. cbn [lookup list_lookup].
  change (Lock (mkRWMutex false 0)) with (Some (mkRWMutex true 0)).
  cbn [shared key txn]. do 2 f_equal. rewrite insert_app_r_alt by done.
  by rewrite Nat.sub_diag.
Qed.

Lemma AcquireShared_unregistered t k (fm : FakeLockManager Txn) :
  locks fm = ∅ →
  AcquireShared t k fm
  = (mkFakeLockManager ∅ (heap fm ++ [read t k]), Lease (length (heap fm))).
Proof.
  intros Hl. unfold LockManager.AcquireShared, LockManager.upsertLock.
  rewrite Hl, lookup_empty. cbn [fst snd heap locks].
  rewrite lookup_app_r by done. rewrite Nat.sub_diag. cbn [lookup list_lookup].
  change (RLock (mkRWMutex false 0)) with (Some (mkRWMutex false 1)).
  cbn [shared key txn exclusive isExclusive]. do 2 f_equal.
  rewrite insert_app_r_alt by done. rewrite Nat.sub_diag. by rewrite insert_empty.
Qed.

Lemma unlockFinalized_unregistered finalized (fm : FakeLockManager Txn) :
  locks fm = ∅ → unlockFinalized finalized fm = Some fm.
Proof.
  intros Hl. unfold LockManager.unlockFinalized. rewrite Hl, map_to_list_empty. simpl.
  destruct fm. simpl in *. by subst.
Qed.

(** No call ever puts a lock into the map, and so none waits. *)
Lemma run_unregistered cs (fm : FakeLockManager Txn) :
  locks fm = ∅ → ∃ fm', run cs fm = Some fm' ∧ locks fm' = ∅.
Proof.
  revert fm. induction cs as [|c rest IH]; intros fm Hl; [by exists fm|].
  cbn [LockManager.run].
  destruct c as [t k|t k|t k|finalized]; cbn [LockManager.step].
  - rewrite (AcquireExclusive_unregistered t k fm Hl). by apply IH.
  - rewrite (AcquireShared_unregistered t k fm Hl). by apply IH.
  - unfold LockManager.TryAcquireExclusive.
    rewrite (AcquireExclusive_unregistered t k fm Hl). by apply IH.
  - rewrite (unlockFinalized_unregistered finalized fm Hl). by apply IH.
Qed.

(** X23. The fake lock manager excludes no one. [upsertLock] never stores the
    lock it makes, so the map of a manager made by [NewFakeLockManager] stays
    empty whatever is called on it, no call waits or panics, and every
    [AcquireExclusive] and [AcquireShared] returns at once with a lock of its
    own: after any calls, two transactions asking for the exclusive lock of
    the same key both get a lease, on two different locks, each marked
    exclusive and held by its transaction. *)
Theorem exclusive_lock_excludes_no_one cs t1 t2 k :
  ∃ fm fm1 fm2 lock1 lock2,
    run cs NewFakeLockManager = Some fm ∧ locks fm = ∅ ∧
    AcquireExclusive t1 k fm = (fm1, Lease lock1) ∧
    AcquireExclusive t2 k fm1 = (fm2, Lease lock2) ∧
    lock1 ≠ lock2 ∧ locks fm2 = ∅ ∧
    heap fm2 !! lock1 = Some (held t1 k) ∧
    heap fm2 !! lock2 = Some (held t2 k).
Proof.
  destruct (run_unregistered cs NewFakeLockManager eq_refl) as (fm & Hrun & Hl).
  eexists fm, _, _, _, _. split; [done|]. split; [done|].
  split; [by apply AcquireExclusive_unregistered|].
  split; [by apply AcquireExclusive_unregistered|].
  cbn [heap locks]. rewrite length_app. simpl.
  split; [lia|]. split; [done|]. split.
  - rewrite lookup_app_l by (rewrite length_app; simpl; lia).
    rewrite lookup_app_r by done. by rewrite Nat.sub_diag.
  - rewrite lookup_app_r by (rewrite length_app; simpl; lia).
    rewrite length_app. simpl. by replace (_ - _)%nat with 0%nat by lia.
Qed.

(** X24. [TryAcquireExclusive] never returns a lease. On a manager made by
    [NewFakeLockManager], after any calls, it returns no lock and the error
    "could not acquire lock", for every transaction and key, also when no one
    holds the key; yet it has locked a new lock for the transaction. And
    [unlockFinalized] finds no lock to unlock, whichever transactions are
    finalized: it leaves the manager as it is. *)
Theorem TryAcquireExclusive_never_succeeds cs :
  ∃ fm,
    run cs NewFakeLockManager = Some fm ∧
    (∀ t k,
       TryAcquireExclusive t k fm
       = (mkFakeLockManager ∅ (heap fm ++ [held t k]),
          Returned None (Some (ErrorString "could not acquire lock")))) ∧
    (∀ finalized, unlockFinalized finalized fm = Some fm).
Proof.
  destruct (run_unregistered cs NewFakeLockManager eq_refl) as (fm & Hrun & Hl).
  exists fm. split; [done|]. split.
  - intros t k. unfold LockManager.TryAcquireExclusive.
    by rewrite (AcquireExclusive_unregistered t k fm Hl).
  - intros finalized. by apply unlockFinalized_unregistered.
Qed.

End TxnsFacts.

(** Two transactions, named by their ids, on the key "k". *)
Example fake_locks_run :
  run string (λ t, t)
    [CallAcquireExclusive "t1" "k"; CallAcquireShared "t2" "k";
     CallTryAcquireExclusive "t3" "k"; CallUnlockFinalized (λ t, true)]
    (NewFakeLockManager string)
  = Some (mkFakeLockManager ∅
            [mkFakeLock (Some "t1") ∅ "k" (Some "t1") (mkRWMutex true 0) true;
             mkFakeLock None {["t2" := "t2"]} "k" (Some "t2") (mkRWMutex false 1) false;
             mkFakeLock (Some "t3") ∅ "k" (Some "t3") (mkRWMutex true 0) true]).
Proof. reflexivity. Qed.

End LockManagerFacts.
